(** * JOB_HUNTER: the aggregation, scoring and filtering pipeline

    A shallow embedding of the core of [streamlit_app.py]
    ([EnhancedCVParser], [JobScraper], [JobMatcher], [JobFilter]) and the
    properties of its specification that can be settled on it.

    Conventions of the embedding.
    - A Python [str] is a list of code points ([Py.str]); literals are
      written [u"..."] and decoded from UTF-8.
    - Python [set]s are [gset]s; [dict]s that are only iterated are
      association lists in source order.
    - [float] scores are rationals ([Q]); arithmetic is exact.
    - A field that a source copies from a JSON answer is a
      [JobScraper.value]: a [str], [None], an [int], a [list] or a [dict].
    - A call that can raise returns a [result]; [try ... except] is a
      match on it.
    - Libraries the program calls but does not contain are either modelled
      on the fragment the program uses ([re], see [Re]) or taken as an
      interface ([pandas] sorting, [sklearn] vectors, [datetime]
      parsing). *)

From Stdlib Require Import ZArith NArith QArith Qround Qminmax Lia Lqa.
From Stdlib Require Import Sorting.Sorted Sorting.Permutation.
From Stdlib Require Import Strings.Ascii.
From stdpp Require Import base option list strings gmap sets.


(* ===================================================================== *)
(** * Exceptions *)

Inductive exn : Type :=
| re_error (msg : string)        (* re.error: the pattern does not compile *)
| Unsupported (what : string)    (* regex syntax outside the modelled fragment *)
| Exception (msg : string).      (* any other subclass of Exception *)

Inductive result (A : Type) : Type :=
| Ok (a : A)
| Raise (e : exn).
Arguments Ok {A} a.
Arguments Raise {A} e.

Definition bind {A B} (m : result A) (k : A -> result B) : result B :=
  match m with
  | Ok a => k a
  | Raise e => Raise e
  end.

Notation "'let*' x ':=' m 'in' k" := (bind m (fun x => k))
  (at level 10, x pattern, m at level 100, k at level 200).

(* ===================================================================== *)
(** * Python strings *)

Module Py.

Definition char := N.
Definition str := list N.

(** UTF-8 decoding of a source literal into code points. *)
Fixpoint utf8_decode (bs : list N) : str :=
  match bs with
  | [] => []
  | b :: rest =>
      if (b <? 128)%N then b :: utf8_decode rest
      else if (b <? 224)%N then
        match rest with
        | b1 :: r => ((b - 192) * 64 + (b1 - 128))%N :: utf8_decode r
        | [] => [b]
        end
      else if (b <? 240)%N then
        match rest with
        | b1 :: b2 :: r =>
            ((b - 224) * 4096 + (b1 - 128) * 64 + (b2 - 128))%N :: utf8_decode r
        | _ => [b]
        end
      else
        match rest with
        | b1 :: b2 :: b3 :: r =>
            ((b - 240) * 262144 + (b1 - 128) * 4096 + (b2 - 128) * 64 + (b3 - 128))%N
              :: utf8_decode r
        | _ => [b]
        end
  end.

Fixpoint bytes_of (s : string) : list N :=
  match s with
  | EmptyString => []
  | String a s' => N_of_ascii a :: bytes_of s'
  end.

Definition utf8 (s : string) : str := utf8_decode (bytes_of s).

(** [str.lower()], on the ASCII letters. *)
Definition lower_char (c : char) : char :=
  if ((65 <=? c) && (c <=? 90))%N then (c + 32)%N else c.
Definition lower (s : str) : str := map lower_char s.

(** White space removed by [str.strip()] and matched by [\s]. *)
Definition is_space (c : char) : bool :=
  ((9 <=? c) && (c <=? 13) || (28 <=? c) && (c <=? 32))%N.

Fixpoint lstrip (s : str) : str :=
  match s with
  | c :: s' => if is_space c then lstrip s' else s
  | [] => []
  end.
Definition rstrip (s : str) : str := rev (lstrip (rev s)).
Definition strip (s : str) : str := rstrip (lstrip s).

Definition eqb (a b : str) : bool := bool_decide (a = b).

Fixpoint startswith (p s : str) : bool :=
  match p, s with
  | [], _ => true
  | _ :: _, [] => false
  | a :: p', b :: s' => (a =? b)%N && startswith p' s'
  end.

(** [needle in hay] *)
Fixpoint contains (needle hay : str) : bool :=
  startswith needle hay ||
  match hay with
  | [] => false
  | _ :: hay' => contains needle hay'
  end.

(** [sep.join(parts)] *)
Fixpoint join (sep : str) (parts : list str) : str :=
  match parts with
  | [] => []
  | [p] => p
  | p :: ps => p ++ sep ++ join sep ps
  end.

(** [s.replace(old, new)] for a non-empty [old]. *)
Fixpoint replace_fuel (fuel : nat) (old new s : str) : str :=
  match fuel with
  | O => s
  | S fuel' =>
      match s with
      | [] => []
      | c :: s' =>
          if startswith old s
          then new ++ replace_fuel fuel' old new (drop (length old) s)
          else c :: replace_fuel fuel' old new s'
      end
  end.
Definition replace (old new s : str) : str :=
  match old with
  | [] => s
  | _ => replace_fuel (S (length s)) old new s
  end.

(** [s[:n]] *)
Definition slice_to (n : nat) (s : str) : str := take n s.

(** Truthiness of a string. *)
Definition truthy (s : str) : bool :=
  match s with [] => false | _ => true end.

End Py.

(** [u "text"] is the Python literal ["text"]. *)
Definition u (s : string) : Py.str := Py.utf8 s.
Arguments u s%_string : simpl never.

(** A single character of a literal. *)
Definition ch (a : ascii) : N := N_of_ascii a.
Arguments ch a%_char.
Definition chr_is (c : N) (a : ascii) : bool := (c =? ch a)%N.
Arguments chr_is c a%_char.

(* ===================================================================== *)
(** * The [re] module, on the syntax the program and its users can reach

    [compile] follows the parser of CPython's [re] (groups, alternation,
    sets, the escapes [\b \d \s \w] and their complements, the
    quantifiers [* + ? {m,n}] with their lazy forms), and raises
    [re_error] where CPython does.  Since Python 3.11 a [+] after a
    quantifier makes it possessive, where older interpreters raise
    "multiple repeat"; [possessive] selects the behaviour.  Constructs
    outside the fragment (look-around, back-references, flags, [\x]
    escapes) raise [Unsupported].  [\d], [\s], [\w] and [\b] are modelled
    on ASCII.

    Matching is the backtracking, leftmost, greedy-first search of [re],
    written with a success continuation. *)

Module Re.
Import Py.

Inductive category := Digit | NotDigit | Space | NotSpace | Word | NotWord.

Inductive set_item :=
| SChar (c : N)
| SRange (lo hi : N)
| SCat (k : category).

Inductive anchor := Boundary | NotBoundary | Beginning | End | BeginningString | EndString.

Inductive rep_mode := Greedy | Lazy | Possessive.

Inductive regex :=
| Eps
| Lit (c : N)
| Any
| In (neg : bool) (items : list set_item)
| At (a : anchor)
| Seq (r1 r2 : regex)
| Alt (r1 r2 : regex)
| Group (idx : option nat) (r : regex)
| Repeat (lo : nat) (hi : option nat) (mode : rep_mode) (r : regex).

(** ** Parsing *)

Definition is_digit (c : N) : bool := ((48 <=? c) && (c <=? 57))%N.
Definition is_alpha (c : N) : bool :=
  ((65 <=? c) && (c <=? 90) || (97 <=? c) && (c <=? 122))%N.
Definition is_word (c : N) : bool := is_digit c || is_alpha c || chr_is c "_".

Definition is_at (r : regex) : bool :=
  match r with At _ => true | _ => false end.
Definition is_repeat (r : regex) : bool :=
  match r with Repeat _ _ _ _ => true | _ => false end.

Fixpoint seq_of (items : list regex) : regex :=
  match items with
  | [] => Eps
  | [r] => r
  | r :: rs => Seq r (seq_of rs)
  end.

(** The category escapes shared by patterns and sets. *)
Definition category_of (e : N) : option category :=
  if chr_is e "d" then Some Digit else if chr_is e "D" then Some NotDigit
  else if chr_is e "s" then Some Space else if chr_is e "S" then Some NotSpace
  else if chr_is e "w" then Some Word else if chr_is e "W" then Some NotWord
  else None.

(** The character escapes shared by patterns and sets. *)
Definition control_of (e : N) : option N :=
  if chr_is e "n" then Some 10%N else if chr_is e "t" then Some 9%N
  else if chr_is e "r" then Some 13%N else if chr_is e "f" then Some 12%N
  else if chr_is e "v" then Some 11%N else if chr_is e "a" then Some 7%N
  else None.

Definition numeric_escape (e : N) : bool :=
  chr_is e "x" || chr_is e "u" || chr_is e "U" || chr_is e "N" || is_digit e.

(** [_escape]: the text after a backslash, outside a set. *)
Definition parse_escape (s : str) : result (regex * str) :=
  match s with
  | [] => Raise (re_error "bad escape (end of pattern)")
  | e :: s' =>
      if chr_is e "b" then Ok (At Boundary, s')
      else if chr_is e "B" then Ok (At NotBoundary, s')
      else if chr_is e "A" then Ok (At BeginningString, s')
      else if chr_is e "Z" then Ok (At EndString, s')
      else match category_of e with
      | Some k => Ok (In false [SCat k], s')
      | None =>
      match control_of e with
      | Some c => Ok (Lit c, s')
      | None =>
          if numeric_escape e then Raise (Unsupported "numeric escape or group reference")
          else if is_alpha e then Raise (re_error "bad escape")
          else Ok (Lit e, s')
      end end
  end.

(** [_class_escape]: one member of a set, after a backslash. *)
Definition parse_class_escape (s : str) : result (set_item * str) :=
  match s with
  | [] => Raise (re_error "unterminated character set")
  | e :: s' =>
      match category_of e with
      | Some k => Ok (SCat k, s')
      | None =>
      match control_of e with
      | Some c => Ok (SChar c, s')
      | None =>
          if chr_is e "b" then Ok (SChar 8%N, s')
          else if numeric_escape e then Raise (Unsupported "numeric escape")
          else if is_alpha e then Raise (re_error "bad escape")
          else Ok (SChar e, s')
      end end
  end.

(** One member of a set: a character or an escape. *)
Definition parse_set_atom (s : str) : result (set_item * str) :=
  match s with
  | [] => Raise (re_error "unterminated character set")
  | c :: s' => if chr_is c "\" then parse_class_escape s' else Ok (SChar c, s')
  end.

(** The members of a set up to the closing bracket; [first] is true
    where a [\]] is still a literal. *)
Fixpoint parse_set_items (fuel : nat) (first : bool) (s : str) (acc : list set_item)
  : result (list set_item * str) :=
  match fuel with
  | O => Raise (re_error "unterminated character set")
  | S fuel' =>
      match s with
      | [] => Raise (re_error "unterminated character set")
      | c :: s' =>
          if chr_is c "]" && negb first then Ok (rev acc, s')
          else
            let* (lo, s1) := parse_set_atom s in
            match s1 with
            | d :: s2 =>
                if chr_is d "-" then
                  match s2 with
                  | [] => Raise (re_error "unterminated character set")
                  | e :: s3 =>
                      if chr_is e "]" then Ok (rev (SChar (ch "-") :: lo :: acc), s3)
                      else
                        let* (hi, s4) := parse_set_atom s2 in
                        match lo, hi with
                        | SChar a, SChar b =>
                            if (b <? a)%N then Raise (re_error "bad character range")
                            else parse_set_items fuel' false s4 (SRange a b :: acc)
                        | _, _ => Raise (re_error "bad character range")
                        end
                  end
                else parse_set_items fuel' false s1 (lo :: acc)
            | [] => Raise (re_error "unterminated character set")
            end
      end
  end.

Definition parse_set (s : str) : result (regex * str) :=
  let '(neg, s1) :=
    match s with
    | c :: s' => if chr_is c "^" then (true, s') else (false, s)
    | [] => (false, s)
    end in
  let* (items, rest) := parse_set_items (S (length s1)) true s1 [] in
  Ok (In neg items, rest).

(** Decimal digits at the head of [s], as in the bounds of [{m,n}]. *)
Fixpoint parse_digits (s : str) (acc : option nat) : option nat * str :=
  match s with
  | c :: s' =>
      if is_digit c
      then parse_digits s' (Some (10 * default 0 acc + N.to_nat (c - 48)))
      else (acc, s)
  | [] => (acc, s)
  end.

(** The bounds of a [{m,n}] quantifier, read after the brace; [None]
    where the text is not a quantifier and the brace is a literal. *)
Definition parse_bounds (s : str) : option (result (nat * option nat * str)) :=
  match s with
  | c :: _ =>
      if chr_is c "}" then None
      else
        let '(lo, s1) := parse_digits s None in
        let '(hi, s2) :=
          match s1 with
          | d :: s1' => if chr_is d "," then parse_digits s1' None else (lo, s1)
          | [] => (lo, s1)
          end in
        match s2 with
        | e :: s3 =>
            if chr_is e "}" then
              let mn := default 0 lo in
              match hi with
              | Some mx =>
                  if mx <? mn
                  then Some (Raise (re_error "min repeat greater than max repeat"))
                  else Some (Ok (mn, Some mx, s3))
              | None => Some (Ok (mn, None, s3))
              end
            else None
        | [] => None
        end
  | [] => None
  end.

(** The suffix that makes a quantifier lazy or, where the interpreter
    has them, possessive. *)
Definition parse_mode (possessive : bool) (s : str) : rep_mode * str :=
  match s with
  | q :: s' =>
      if chr_is q "?" then (Lazy, s')
      else if possessive && chr_is q "+" then (Possessive, s')
      else (Greedy, s)
  | [] => (Greedy, s)
  end.

(** A quantifier applied to the last item parsed. *)
Definition apply_repeat (possessive : bool) (lo : nat) (hi : option nat)
    (s : str) (items : list regex) : result (list regex * str) :=
  match items with
  | [] => Raise (re_error "nothing to repeat")
  | item :: items' =>
      if is_at item then Raise (re_error "nothing to repeat")
      else if is_repeat item then Raise (re_error "multiple repeat")
      else
        let '(mode, s') := parse_mode possessive s in
        Ok (Repeat lo hi mode item :: items', s')
  end.

Section Parser.
Variable possessive : bool.

(** [_parse_sub] and [_parse]: the branches of an alternation and the
    items of one branch ([items] holds them last first; [ng] counts the
    capturing groups opened so far). *)
Fixpoint parse_sub (fuel : nat) (s : str) (ng : nat) {struct fuel}
  : result (regex * str * nat) :=
  match fuel with
  | O => Raise (Unsupported "pattern too long")
  | S fuel' =>
      let* (items, rest, ng1) := parse_seq fuel' s [] ng in
      let r := seq_of (rev items) in
      match rest with
      | c :: rest' =>
          if chr_is c "|" then
            let* (r2, rest2, ng2) := parse_sub fuel' rest' ng1 in
            Ok (Alt r r2, rest2, ng2)
          else Ok (r, rest, ng1)
      | [] => Ok (r, rest, ng1)
      end
  end
with parse_seq (fuel : nat) (s : str) (items : list regex) (ng : nat) {struct fuel}
  : result (list regex * str * nat) :=
  match fuel with
  | O => Raise (Unsupported "pattern too long")
  | S fuel' =>
      match s with
      | [] => Ok (items, s, ng)
      | c :: s' =>
          if chr_is c "|" || chr_is c ")" then Ok (items, s, ng)
          else if chr_is c "\" then
            let* (r, s1) := parse_escape s' in
            parse_seq fuel' s1 (r :: items) ng
          else if chr_is c "[" then
            let* (r, s1) := parse_set s' in
            parse_seq fuel' s1 (r :: items) ng
          else if chr_is c "*" then
            let* (items1, s1) := apply_repeat possessive 0 None s' items in
            parse_seq fuel' s1 items1 ng
          else if chr_is c "+" then
            let* (items1, s1) := apply_repeat possessive 1 None s' items in
            parse_seq fuel' s1 items1 ng
          else if chr_is c "?" then
            let* (items1, s1) := apply_repeat possessive 0 (Some 1) s' items in
            parse_seq fuel' s1 items1 ng
          else if chr_is c "{" then
            match parse_bounds s' with
            | None => parse_seq fuel' s' (Lit c :: items) ng
            | Some b =>
                let* (lo, hi, s1) := b in
                let* (items1, s2) := apply_repeat possessive lo hi s1 items in
                parse_seq fuel' s2 items1 ng
            end
          else if chr_is c "." then parse_seq fuel' s' (Any :: items) ng
          else if chr_is c "^" then parse_seq fuel' s' (At Beginning :: items) ng
          else if chr_is c "$" then parse_seq fuel' s' (At End :: items) ng
          else if chr_is c "(" then
            let* (idx, body, ng0) :=
              match s' with
              | q :: s1 =>
                  if chr_is q "?" then
                    match s1 with
                    | k :: s2 =>
                        if chr_is k ":" then Ok (None, s2, ng)
                        else Raise (Unsupported "group extension")
                    | [] => Raise (re_error "unexpected end of pattern")
                    end
                  else Ok (Some (S ng), s', S ng)
              | [] => Ok (Some (S ng), s', S ng)
              end in
            let* (r, rest, ng1) := parse_sub fuel' body ng0 in
            match rest with
            | d :: rest' =>
                if chr_is d ")" then parse_seq fuel' rest' (Group idx r :: items) ng1
                else Raise (re_error "missing ), unterminated subpattern")
            | [] => Raise (re_error "missing ), unterminated subpattern")
            end
          else parse_seq fuel' s' (Lit c :: items) ng
      end
  end.

(** [re.compile]: the pattern and the number of its capturing groups. *)
Definition compile (pattern : str) : result (regex * nat) :=
  let* (r, rest, ng) := parse_sub (2 * length pattern + 4) pattern 0 in
  match rest with
  | [] => Ok (r, ng)
  | _ => Raise (re_error "unbalanced parenthesis")
  end.

End Parser.

(** ** Matching *)

(** A position in the subject: the character before it, the text from it
    on, and the groups captured on the way to it. *)
Record mstate := MState {
  prev : option N;
  rest : str;
  caps : list (nat * str)
}.

Definition in_category (k : category) (c : N) : bool :=
  match k with
  | Digit => is_digit c
  | NotDigit => negb (is_digit c)
  | Space => is_space c
  | NotSpace => negb (is_space c)
  | Word => is_word c
  | NotWord => negb (is_word c)
  end.

Definition in_item (c : N) (i : set_item) : bool :=
  match i with
  | SChar a => (c =? a)%N
  | SRange lo hi => ((lo <=? c) && (c <=? hi))%N
  | SCat k => in_category k c
  end.

Definition word_at (o : option N) : bool :=
  match o with Some c => is_word c | None => false end.

Definition at_anchor (a : anchor) (st : mstate) : bool :=
  match a with
  | Boundary => negb (Bool.eqb (word_at (prev st)) (word_at (head (rest st))))
  | NotBoundary => Bool.eqb (word_at (prev st)) (word_at (head (rest st)))
  | Beginning | BeginningString => match prev st with None => true | Some _ => false end
  | End => match rest st with [] => true | [c] => (c =? 10)%N | _ => false end
  | EndString => match rest st with [] => true | _ => false end
  end.

(** One character consumed when [ok] accepts it. *)
Definition step_char (ok : N -> bool) (st : mstate) (k : mstate -> option mstate)
  : option mstate :=
  match rest st with
  | c :: s' => if ok c then k (MState (Some c) s' (caps st)) else None
  | [] => None
  end.

Definition consumed (st0 st1 : mstate) : str :=
  take (length (rest st0) - length (rest st1)) (rest st0).

Definition progressed (st0 st1 : mstate) : bool :=
  length (rest st1) <? length (rest st0).

Definition below (count : nat) (hi : option nat) : bool :=
  match hi with Some h => count <? h | None => true end.

(** [rmatch r st k]: the first way, in the order [re] tries them, to
    match [r] at [st] and have the continuation [k] accept the position
    reached. *)
Fixpoint rmatch (r : regex) (st : mstate) (k : mstate -> option mstate) {struct r}
  : option mstate :=
  match r with
  | Eps => k st
  | Lit c => step_char (fun x => (x =? c)%N) st k
  | Any => step_char (fun x => negb (x =? 10)%N) st k
  | In neg items => step_char (fun x => xorb neg (existsb (in_item x) items)) st k
  | At a => if at_anchor a st then k st else None
  | Seq r1 r2 => rmatch r1 st (fun st1 => rmatch r2 st1 k)
  | Alt r1 r2 =>
      match rmatch r1 st k with
      | Some x => Some x
      | None => rmatch r2 st k
      end
  | Group None r1 => rmatch r1 st k
  | Group (Some i) r1 =>
      rmatch r1 st (fun st1 =>
        k (MState (prev st1) (rest st1) ((i, consumed st st1) :: caps st1)))
  | Repeat lo hi mode r1 =>
      let loop :=
        fix loop (fuel count : nat) (st0 : mstate) (kk : mstate -> option mstate)
            {struct fuel} : option mstate :=
          let stop := fun _ : unit => if lo <=? count then kk st0 else None in
          match fuel with
          | O => stop tt
          | S fuel' =>
              let more := fun _ : unit =>
                if below count hi then
                  rmatch r1 st0 (fun st1 =>
                    if (count <? lo) || progressed st0 st1
                    then loop fuel' (S count) st1 kk
                    else None)
                else None in
              match mode with
              | Lazy =>
                  match stop tt with
                  | Some x => Some x
                  | None => more tt
                  end
              | Greedy | Possessive =>
                  match more tt with
                  | Some x => Some x
                  | None => stop tt
                  end
              end
          end in
      let fuel := S (length (rest st) + lo) in
      match mode with
      | Possessive =>
          match loop fuel 0 st Some with
          | Some st1 => k st1
          | None => None
          end
      | Greedy | Lazy => loop fuel 0 st k
      end
  end.

(** A match starting exactly at [s]; with [must_advance] an empty match
    is refused (the scanner's rule after an empty match). *)
Definition match_at (r : regex) (p : option N) (s : str) (must_advance : bool)
  : option mstate :=
  rmatch r (MState p s [])
    (fun st1 => if must_advance && (length (rest st1) =? length s) then None else Some st1).

(** [re.search]: the leftmost match, as the text from its start and
    the position at its end. *)
Fixpoint search_from (r : regex) (p : option N) (s : str) (must_advance : bool)
  : option (str * mstate) :=
  match match_at r p s must_advance with
  | Some st1 => Some (s, st1)
  | None =>
      match s with
      | [] => None
      | c :: s' => search_from r (Some c) s' false
      end
  end.

(** The text of group [i]: its latest capture, or the empty string. *)
Fixpoint lookup_cap (cs : list (nat * str)) (i : nat) : str :=
  match cs with
  | [] => []
  | (j, t) :: cs' => if j =? i then t else lookup_cap cs' i
  end.
Definition group_text (st : mstate) (i : nat) : str := lookup_cap (caps st) i.

(** The scanner behind [re.findall]: for each match, the whole match
    when the pattern has no group, else the text of each group. *)
Fixpoint scan (fuel : nat) (r : regex) (ng : nat) (p : option N) (s : str)
    (must_advance : bool) : list (list str) :=
  match fuel with
  | O => []
  | S fuel' =>
      match search_from r p s must_advance with
      | None => []
      | Some (start, st1) =>
          let whole := take (length start - length (rest st1)) start in
          let item :=
            match ng with
            | O => [whole]
            | _ => map (group_text st1) (seq 1 ng)
            end in
          item :: scan fuel' r ng (prev st1) (rest st1)
                    (match whole with [] => true | _ => false end)
      end
  end.

Section Api.
Variable possessive : bool.

(** [re.search(pattern, text) is not None], the test behind pandas'
    [str.contains(pattern, regex=True)]. *)
Definition contains (pattern text : str) : result bool :=
  let* (r, _) := compile possessive pattern in
  Ok (bool_decide (is_Some (search_from r None text false))).

(** [re.findall(pattern, text)] *)
Definition findall (pattern text : str) : result (list (list str)) :=
  let* (r, ng) := compile possessive pattern in
  Ok (scan (2 * length text + 2) r ng None text false).

End Api.

End Re.

(** Python lists of string literals. *)
Definition strs (l : list string) : list Py.str := map u l.
Arguments strs l%_string : simpl never.

(* ===================================================================== *)
(** * [EnhancedCVParser] *)

Module CVParser.
Import Py.

(** [self.skill_database], the categories in source order. *)
Definition skill_database : list (str * list str) := [
  (u "social_media",
     strs [
       "instagram"; "facebook"; "twitter"; "tiktok"; "linkedin"; "youtube";
       "snapchat"; "pinterest"; "social media management"; "content creation";
       "content strategy"; "community management"; "social media marketing";
       "social media analytics"; "engagement"; "brand awareness";
       "influencer marketing"; "social media advertising"; "paid social";
       "organic social"; "hashtag strategy"; "social listening";
       "crisis management"; "brand voice"; "copywriting"; "content calendar";
       "scheduling"; "hootsuite"; "buffer"; "sprout social"; "later";
       "meta business suite"; "facebook ads manager"; "instagram insights";
       "twitter analytics"; "tiktok analytics"; "canva"; "adobe creative suite";
       "photoshop"; "illustrator"; "video editing"; "premiere pro"; "final cut";
       "capcut"; "seo"; "sem"; "google analytics"; "social media reporting";
       "kpi tracking"; "roi analysis"; "a/b testing"; "audience insights";
       "social media strategy"; "brand management"; "reputation management"
     ]);
  (u "data_science",
     strs [
       "python"; "r"; "sql"; "java"; "scala"; "javascript"; "c++";
       "machine learning"; "deep learning"; "neural networks"; "ai";
       "artificial intelligence"; "natural language processing"; "nlp";
       "computer vision"; "cv"; "data analysis"; "data science"; "statistics";
       "probability"; "tensorflow"; "pytorch"; "keras"; "scikit-learn"; "sklearn";
       "pandas"; "numpy"; "scipy"; "matplotlib"; "seaborn"; "plotly"; "jupyter";
       "apache spark"; "hadoop"; "big data"; "etl"; "aws"; "azure"; "gcp";
       "google cloud"; "cloud computing"; "docker"; "kubernetes"; "mlops";
       "model deployment"; "tableau"; "power bi"; "git"; "github"; "agile";
       "scrum"
     ]);
  (u "engineering",
     strs [
       "software engineering"; "web development"; "frontend"; "backend";
       "full stack"; "react"; "angular"; "vue"; "node.js"; "express"; "django";
       "flask"; "fastapi"; "typescript"; "html"; "css"; "sass"; "tailwind";
       "bootstrap"; "mongodb"; "postgresql"; "mysql"; "redis"; "graphql";
       "rest api"; "ci/cd"; "jenkins"; "terraform"; "ansible"; "linux"; "devops";
       "microservices"; "system design"; "architecture"; "testing"; "unit testing"
     ]);
  (u "design",
     strs [
       "ui design"; "ux design"; "user research"; "wireframing"; "prototyping";
       "figma"; "sketch"; "adobe xd"; "invision"; "zeplin"; "graphic design";
       "visual design"; "branding"; "typography"; "color theory";
       "motion graphics"; "animation"; "after effects"; "blender"; "3d modeling";
       "product design"; "design systems"; "accessibility"; "responsive design"
     ]);
  (u "business",
     strs [
       "sales"; "business development"; "account management"; "client relations";
       "negotiation"; "crm"; "salesforce"; "hubspot"; "pipedrive"; "strategy";
       "consulting"; "market research"; "competitive analysis";
       "financial analysis"; "budgeting"; "forecasting"; "excel"; "powerpoint";
       "operations"; "supply chain"; "logistics"; "procurement";
       "vendor management"
     ]);
  (u "hr_admin",
     strs [
       "recruiting"; "talent acquisition"; "onboarding"; "hr management";
       "payroll"; "benefits administration"; "employee relations";
       "performance management"; "administrative"; "executive assistant";
       "office management"; "scheduling"; "bookkeeping"; "quickbooks"; "invoicing";
       "data entry"; "virtual assistant"
     ]);
  (u "writing",
     strs [
       "content writing"; "technical writing"; "blog writing"; "article writing";
       "editing"; "proofreading"; "journalism"; "storytelling"; "creative writing";
       "grant writing"; "proposal writing"; "documentation"; "translation"
     ]);
  (u "customer_service",
     strs [
       "customer support"; "customer service"; "help desk"; "technical support";
       "live chat"; "zendesk"; "intercom"; "freshdesk"; "ticketing";
       "conflict resolution"; "customer success"; "account management";
       "retention"
     ]);
  (u "soft_skills",
     strs [
       "communication"; "teamwork"; "leadership"; "project management";
       "problem solving"; "critical thinking"; "creativity"; "collaboration";
       "time management"; "organization"; "adaptability"; "remote work"; "agile";
       "scrum"; "cross-functional"; "stakeholder management"; "presentation";
       "writing"; "research"; "analytical"; "attention to detail"
     ])
].


(** [prog_langs] of [extract_comprehensive_skills]. *)
Definition prog_langs : list str :=
  strs ["python"; "java"; "javascript"; "r"; "sql"; "scala"; "c++"; "c#"].

(** The loop [for x in xs: if x in text_lower: found_skills.add(x)]. *)
Definition add_found (text_lower : str) (xs : list str) (found : gset str) : gset str :=
  foldl (fun found x => if contains x text_lower then {[x]} ∪ found else found)
        found xs.

(** [extract_comprehensive_skills] on a [str] argument. *)
Definition extract_comprehensive_skills (text : str) : gset str :=
  let text_lower := lower text in
  let found_skills := ∅ in
  let all_skills := concat (map snd skill_database) in
  let found_skills := add_found text_lower all_skills found_skills in
  let found_skills := add_found text_lower prog_langs found_skills in
  found_skills.

(** [int(m)] on a string of decimal digits.  From Python 3.11 on, and in
    the security releases of the older lines, a string of more than
    [int_max_str_digits] digits is refused: 4300 unless the interpreter
    is configured otherwise, 0 for no limit; the test is the one of
    [longobject.c].  The empty string is a [ValueError]; a string with
    other characters (a sign, blanks, underscores, digits of other
    scripts) is outside this embedding. *)
Fixpoint int_digits (s : str) (acc : Z) : Z :=
  match s with
  | [] => acc
  | c :: s' => int_digits s' (10 * acc + Z.of_N (c - 48))%Z
  end.

Definition exceeds_limit (int_max_str_digits : nat) (s : str) : bool :=
  (640 <? length s) && (0 <? int_max_str_digits) && (int_max_str_digits <? length s).

Definition int (int_max_str_digits : nat) (s : str) : result Z :=
  match s with
  | [] => Raise (Exception "ValueError: invalid literal for int()")
  | _ =>
      if negb (forallb Re.is_digit s)
      then Raise (Unsupported "int() of a string that is not all decimal digits")
      else if exceeds_limit int_max_str_digits s
      then Raise (Exception "ValueError: Exceeds the limit for integer string conversion")
      else Ok (int_digits s 0%Z)
  end.

(** [[f(x) for x in xs]] for an [f] that can raise. *)
Fixpoint mapM {A B} (f : A -> result B) (xs : list A) : result (list B) :=
  match xs with
  | [] => Ok []
  | x :: xs' =>
      let* y := f x in
      let* ys := mapM f xs' in
      Ok (y :: ys)
  end.

(** [max(ns)] of a non-empty list, written as the fold it is. *)
Definition max_of (ns : list Z) : Z :=
  match ns with
  | [] => 0%Z
  | n :: ns' => foldl Z.max n ns'
  end.

Definition patterns : list str := [
  u "(\d+)\+?\s*years?\s+(?:of\s+)?experience";
  u "experience[:\s]+(\d+)\+?\s*years?";
  u "(\d+)\+?\s*years?\s+(?:in|working|as)"
].

Definition date_pattern : str :=
  u "(20\d{2}|19\d{2})\s*[-–—]\s*(20\d{2}|19\d{2}|present|current)".

Section Extract.
Variable possessive : bool.
Variable int_max_str_digits : nat.

(** [re.findall] for a pattern with one group: the group of each match. *)
Definition findall1 (pattern text : str) : result (list str) :=
  let* items := Re.findall possessive pattern text in
  Ok (map (fun item => default [] (head item)) items).

(** [re.findall] for a pattern with two groups: the pair of each match. *)
Definition findall2 (pattern text : str) : result (list (str * str)) :=
  let* items := Re.findall possessive pattern text in
  Ok (map (fun item => (nth 0 item [], nth 1 item [])) items).

(** The body of [for pattern in patterns]. *)
Definition years_step (text_lower : str) (years : Z) (pattern : str) : result Z :=
  let* matches := findall1 pattern text_lower in
  match matches with
  | [] => Ok years
  | _ =>
      let* ns := mapM (int int_max_str_digits) matches in
      Ok (Z.max years (max_of ns))
  end.

Fixpoint years_loop (text_lower : str) (years : Z) (ps : list str) : result Z :=
  match ps with
  | [] => Ok years
  | p :: ps' =>
      let* years1 := years_step text_lower years p in
      years_loop text_lower years1 ps'
  end.

(** The body of [for start, end in date_ranges]. *)
Definition range_step (total_years : Z) (range : str * str) : result Z :=
  let '(start, end_) := range in
  let* start_year := int int_max_str_digits start in
  let* end_year :=
    if bool_decide (end_ ∈ strs ["present"; "current"]) then Ok 2026%Z
    else int int_max_str_digits end_ in
  Ok (total_years + (end_year - start_year))%Z.

Fixpoint range_loop (total_years : Z) (ranges : list (str * str)) : result Z :=
  match ranges with
  | [] => Ok total_years
  | r :: rs =>
      let* total1 := range_step total_years r in
      range_loop total1 rs
  end.

(** [_extract_years_experience] *)
Definition _extract_years_experience (text : str) : result Z :=
  let text_lower := lower text in
  let years := 0%Z in
  let* years := years_loop text_lower years patterns in
  let* date_ranges := findall2 date_pattern text_lower in
  match date_ranges with
  | [] => Ok years
  | _ =>
      let total_years := 0%Z in
      let* total_years := range_loop total_years date_ranges in
      Ok (Z.max years total_years)
  end.

(** ** The extraction as the specification words it

    (a) the largest N over all matches of the three patterns, (b) the sum
    of [end - start] over all date ranges with present/current read as the
    reference year, and the larger of the two; nothing found counts as 0. *)

Definition reference_year : Z := 2026.

Definition largest (ns : list Z) : Z := foldr Z.max 0%Z ns.

Definition explicit_years (text_lower : str) : result (list Z) :=
  let* per_pattern := mapM (fun p => findall1 p text_lower) patterns in
  mapM (int int_max_str_digits) (concat per_pattern).

Definition range_years (range : str * str) : result Z :=
  let* start_year := int int_max_str_digits range.1 in
  let* end_year :=
    if bool_decide (range.2 = u "present" \/ range.2 = u "current")
    then Ok reference_year else int int_max_str_digits range.2 in
  Ok (end_year - start_year)%Z.

Definition spec_years_experience (text : str) : result Z :=
  let text_lower := lower text in
  let* ns := explicit_years text_lower in
  let* ranges := findall2 date_pattern text_lower in
  let* spans := mapM range_years ranges in
  Ok (Z.max (largest ns) (foldr Z.add 0%Z spans)).

End Extract.

End CVParser.

(* ===================================================================== *)
(** * [JobScraper], on records of strings *)

(** [scrape_all] on records whose fields are all [str]s, with the
    lower-casing of ASCII; [JobScraper] below takes the records as the
    sources deliver them. *)

Module Scraper.
Import Py.

(** The dict every source normalises its records to. *)
Record job := Job {
  title : str;
  company : str;
  location : str;
  description : str;
  tags : list str;
  url : str;
  salary : str;
  posted_date : str;
  source : str
}.

#[export] Instance job_eq_dec : EqDecision job.
Proof. solve_decision. Defined.

(** The body of the [try] block of each [scrape_*] method: the request
    to the job board and the normalisation of its answer, which returns a
    list of jobs or raises. *)
Record Web := {
  fetch_jobspy : list str -> result (list job);
  fetch_remoteok : nat -> result (list job);
  fetch_remotive : nat -> result (list job);
  fetch_jobicy : nat -> result (list job);
  fetch_arbeitnow : nat -> result (list job);
  fetch_himalayas : nat -> result (list job);
  fetch_weworkremotely : nat -> result (list job)
}.

(** [try: <body> except Exception: return []] *)
Definition guarded (body : result (list job)) : list job :=
  match body with
  | Ok jobs => jobs
  | Raise _ => []
  end.

Section Scrape.
Variable web : Web.

Definition scrape_jobspy (search_terms : list str) : list job :=
  guarded (fetch_jobspy web search_terms).
Definition scrape_remoteok (limit : nat) : list job := guarded (fetch_remoteok web limit).
Definition scrape_remotive (limit : nat) : list job := guarded (fetch_remotive web limit).
Definition scrape_jobicy (limit : nat) : list job := guarded (fetch_jobicy web limit).
Definition scrape_arbeitnow (limit : nat) : list job := guarded (fetch_arbeitnow web limit).
Definition scrape_himalayas (limit : nat) : list job := guarded (fetch_himalayas web limit).
Definition scrape_weworkremotely (limit : nat) : list job :=
  guarded (fetch_weworkremotely web limit).

(** [keywords or ["remote"]] *)
Definition keywords_or_remote (keywords : option (list str)) : list str :=
  match keywords with
  | Some (k :: ks) => k :: ks
  | _ => strs ["remote"]
  end.

(** The seven sources, queried in this order and concatenated. *)
Definition collect (keywords : option (list str)) : list job :=
  let all_jobs := [] in
  let all_jobs := all_jobs ++ scrape_jobspy (keywords_or_remote keywords) in
  let all_jobs := all_jobs ++ scrape_remoteok 100 in
  let all_jobs := all_jobs ++ scrape_remotive 100 in
  let all_jobs := all_jobs ++ scrape_jobicy 100 in
  let all_jobs := all_jobs ++ scrape_arbeitnow 100 in
  let all_jobs := all_jobs ++ scrape_himalayas 100 in
  let all_jobs := all_jobs ++ scrape_weworkremotely 100 in
  all_jobs.

End Scrape.

(** The related terms added for one lower-cased keyword. *)
Definition expand_keyword (expanded_keywords : gset str) (kw : str) : gset str :=
  let e1 :=
    if contains (u "social media") kw
    then expanded_keywords ∪
         list_to_set (strs ["social"; "media"; "content"; "marketing"; "community"; "digital"])
    else expanded_keywords in
  let e2 :=
    if contains (u "data") kw
    then e1 ∪ list_to_set (strs ["data"; "analyst"; "analytics"; "scientist"; "engineer"])
    else e1 in
  if contains (u "developer") kw || contains (u "engineer") kw
  then e2 ∪ list_to_set
         (strs ["developer"; "engineer"; "software"; "frontend"; "backend"; "fullstack"])
  else e2.

Definition expand_keywords (keywords : list str) : gset str :=
  let keywords_lower := map lower keywords in
  foldl expand_keyword (list_to_set keywords_lower) keywords_lower.

(** The test of the relevance filter on one job. *)
Definition keyword_relevant (expanded_keywords : gset str) (j : job) : bool :=
  let title_lower := lower (title j) in
  let desc_lower := slice_to 500 (lower (description j)) in
  let combined := title_lower ++ u " " ++ desc_lower in
  existsb (fun kw => contains kw combined) (elements expanded_keywords).

(** [if keywords: all_jobs = keyword_filtered] *)
Definition keyword_filter (keywords : option (list str)) (all_jobs : list job) : list job :=
  match keywords with
  | Some (k :: ks) => filter (fun j => keyword_relevant (expand_keywords (k :: ks)) j) all_jobs
  | _ => all_jobs
  end.

Definition job_key (j : job) : str := lower (title j) ++ u "_" ++ lower (company j).

(** The state of the de-duplication loop. *)
Record dedup_state := Dedup {
  seen_urls : gset str;
  seen_jobs : gset str;
  unique_jobs : list job
}.

(** The body of the loop, for one job. *)
Definition dedup_step (st : dedup_state) (j : job) : dedup_state :=
  if truthy (url j)
     && bool_decide (url j ∉ seen_urls st)
     && bool_decide (job_key j ∉ seen_jobs st)
  then Dedup ({[url j]} ∪ seen_urls st) ({[job_key j]} ∪ seen_jobs st)
             (unique_jobs st ++ [j])
  else st.

Definition remove_duplicates (all_jobs : list job) : list job :=
  unique_jobs (foldl dedup_step (Dedup ∅ ∅ []) all_jobs).

(** [scrape_all] without a progress callback. *)
Definition scrape_all (web : Web) (keywords : option (list str)) : list job :=
  let all_jobs := collect web keywords in
  let all_jobs := keyword_filter keywords all_jobs in
  remove_duplicates all_jobs.

(** ** The outcomes of the seven fetches, for stating what is merged *)

(** What each source's [try] body did, in the order [scrape_all] calls
    them. *)
Definition outcomes (web : Web) (keywords : option (list str)) : list (result (list job)) :=
  [ fetch_jobspy web (keywords_or_remote keywords);
    fetch_remoteok web 100; fetch_remotive web 100; fetch_jobicy web 100;
    fetch_arbeitnow web 100; fetch_himalayas web 100; fetch_weworkremotely web 100 ].

(** The record lists of the sources that did not fail. *)
Definition successful (os : list (result (list job))) : list (list job) :=
  omap (fun o => match o with Ok jobs => Some jobs | Raise _ => None end) os.

(** A web on which every failing fetch answers with no record instead. *)
Definition quiet {A} (fetch : A -> result (list job)) (a : A) : result (list job) :=
  match fetch a with
  | Ok jobs => Ok jobs
  | Raise _ => Ok []
  end.

Definition silenced (web : Web) : Web := {|
  fetch_jobspy := quiet (fetch_jobspy web);
  fetch_remoteok := quiet (fetch_remoteok web);
  fetch_remotive := quiet (fetch_remotive web);
  fetch_jobicy := quiet (fetch_jobicy web);
  fetch_arbeitnow := quiet (fetch_arbeitnow web);
  fetch_himalayas := quiet (fetch_himalayas web);
  fetch_weworkremotely := quiet (fetch_weworkremotely web)
|}.

End Scraper.

(* ===================================================================== *)
(** * [JobScraper] on the records as the sources deliver them *)

(** Five of the seven sources copy fields of a JSON answer into the
    record as they come ([item.get('title', '')]): such a field is a
    [str] only when the answer holds a string there.  [scrape_all] calls
    [.lower()] on the title, the description and the company outside
    every [try], and puts the url in a set.  This module models
    [scrape_all] on records whose fields hold a [str], [None] (a JSON
    null), an [int], a [list] or a [dict]; [Scraper] above is the case
    where every field is a [str] and the text is ASCII.  Floats and
    booleans are not modelled. *)

Module JobScraper.
Import Py.

#[warnings="-register-all"] Inductive value :=
| Str (s : str)
| NoneValue
| Int (n : Z)
| List (items : list value)
| Dict (items : list (str * value)).

(** The values that can be members of a [set]. *)
Inductive hashable :=
| HStr (s : str)
| HNone
| HInt (n : Z).

#[export] Instance hashable_eq_dec : EqDecision hashable.
Proof. solve_decision. Defined.

#[export] Instance hashable_countable : Countable hashable.
Proof.
  refine (inj_countable'
            (fun v => match v with
                      | HStr s => inl s
                      | HNone => inr (inl ())
                      | HInt n => inr (inr n)
                      end)
            (fun x => match x with
                      | inl s => HStr s
                      | inr (inl _) => HNone
                      | inr (inr n) => HInt n
                      end) _).
  by intros [].
Defined.

(** [v] as a member of a set: a [TypeError] when [v] has no hash. *)
Definition hashed (v : value) : result hashable :=
  match v with
  | Str s => Ok (HStr s)
  | NoneValue => Ok HNone
  | Int n => Ok (HInt n)
  | List _ => Raise (Exception "TypeError: unhashable type: 'list'")
  | Dict _ => Raise (Exception "TypeError: unhashable type: 'dict'")
  end.

(** The dict every source normalises its records to. *)
Record job := Job {
  title : value;
  company : value;
  location : value;
  description : value;
  tags : value;
  url : value;
  salary : value;
  posted_date : value;
  source : value
}.


(** The truth value of [v] in a condition. *)
Definition truthy (v : value) : bool :=
  match v with
  | Str s => Py.truthy s
  | NoneValue => false
  | Int n => negb (n =? 0)%Z
  | List items => match items with [] => false | _ :: _ => true end
  | Dict items => match items with [] => false | _ :: _ => true end
  end.

(** [str.lower], the lower-casing of the interpreter's Unicode tables,
    taken as an interface. *)
Class Casing := { str_lower : str -> str }.

(** The body of the [try] block of each [scrape_*] method. *)
Record Web := {
  fetch_jobspy : list str -> result (list job);
  fetch_remoteok : nat -> result (list job);
  fetch_remotive : nat -> result (list job);
  fetch_jobicy : nat -> result (list job);
  fetch_arbeitnow : nat -> result (list job);
  fetch_himalayas : nat -> result (list job);
  fetch_weworkremotely : nat -> result (list job)
}.

(** [try: <body> except Exception: return []] *)
Definition guarded (body : result (list job)) : list job :=
  match body with
  | Ok jobs => jobs
  | Raise _ => []
  end.

Section Scrape.
Variable web : Web.

Definition scrape_jobspy (search_terms : list str) : list job :=
  guarded (fetch_jobspy web search_terms).
Definition scrape_remoteok (limit : nat) : list job := guarded (fetch_remoteok web limit).
Definition scrape_remotive (limit : nat) : list job := guarded (fetch_remotive web limit).
Definition scrape_jobicy (limit : nat) : list job := guarded (fetch_jobicy web limit).
Definition scrape_arbeitnow (limit : nat) : list job := guarded (fetch_arbeitnow web limit).
Definition scrape_himalayas (limit : nat) : list job := guarded (fetch_himalayas web limit).
Definition scrape_weworkremotely (limit : nat) : list job :=
  guarded (fetch_weworkremotely web limit).

(** The seven sources, queried in this order and concatenated. *)
Definition collect (keywords : option (list str)) : list job :=
  let all_jobs := [] in
  let all_jobs := all_jobs ++ scrape_jobspy (Scraper.keywords_or_remote keywords) in
  let all_jobs := all_jobs ++ scrape_remoteok 100 in
  let all_jobs := all_jobs ++ scrape_remotive 100 in
  let all_jobs := all_jobs ++ scrape_jobicy 100 in
  let all_jobs := all_jobs ++ scrape_arbeitnow 100 in
  let all_jobs := all_jobs ++ scrape_himalayas 100 in
  let all_jobs := all_jobs ++ scrape_weworkremotely 100 in
  all_jobs.

End Scrape.

Section Aggregate.
Context `{Casing}.

(** [v.lower()]: an [AttributeError] unless [v] is a [str]. *)
Definition lower (v : value) : result str :=
  match v with
  | Str s => Ok (str_lower s)
  | NoneValue =>
      Raise (Exception "AttributeError: 'NoneType' object has no attribute 'lower'")
  | Int _ => Raise (Exception "AttributeError: 'int' object has no attribute 'lower'")
  | List _ => Raise (Exception "AttributeError: 'list' object has no attribute 'lower'")
  | Dict _ => Raise (Exception "AttributeError: 'dict' object has no attribute 'lower'")
  end.

Definition expand_keywords (keywords : list str) : gset str :=
  let keywords_lower := map str_lower keywords in
  foldl Scraper.expand_keyword (list_to_set keywords_lower) keywords_lower.

(** The test of the relevance filter on one job. *)
Definition keyword_relevant (expanded_keywords : gset str) (j : job) : result bool :=
  let* title_lower := lower (title j) in
  let* desc_lower := lower (description j) in
  let desc_lower := slice_to 500 desc_lower in
  let combined := title_lower ++ u " " ++ desc_lower in
  Ok (existsb (fun kw => contains kw combined) (elements expanded_keywords)).

(** [for job in all_jobs: ... keyword_filtered.append(job)] *)
Fixpoint keyword_loop (expanded_keywords : gset str) (all_jobs keyword_filtered : list job)
  : result (list job) :=
  match all_jobs with
  | [] => Ok keyword_filtered
  | j :: all_jobs' =>
      let* relevant := keyword_relevant expanded_keywords j in
      keyword_loop expanded_keywords all_jobs'
        (if relevant then keyword_filtered ++ [j] else keyword_filtered)
  end.

(** [if keywords: all_jobs = keyword_filtered] *)
Definition keyword_filter (keywords : option (list str)) (all_jobs : list job)
  : result (list job) :=
  match keywords with
  | Some (k :: ks) => keyword_loop (expand_keywords (k :: ks)) all_jobs []
  | _ => Ok all_jobs
  end.

Definition job_key (j : job) : result str :=
  let* title_lower := lower (title j) in
  let* company_lower := lower (company j) in
  Ok (title_lower ++ u "_" ++ company_lower).

(** The state of the de-duplication loop. *)
Record dedup_state := Dedup {
  seen_urls : gset hashable;
  seen_jobs : gset str;
  unique_jobs : list job
}.

(** The body of the loop, for one job: the key is computed before the
    url is tested, and the url is looked up in the set only when it is
    true. *)
Definition dedup_step (st : dedup_state) (j : job) : result dedup_state :=
  let url := url j in
  let* job_key := job_key j in
  if truthy url
  then
    let* member := hashed url in
    if bool_decide (member ∉ seen_urls st) && bool_decide (job_key ∉ seen_jobs st)
    then Ok (Dedup ({[member]} ∪ seen_urls st) ({[job_key]} ∪ seen_jobs st)
                   (unique_jobs st ++ [j]))
    else Ok st
  else Ok st.

Fixpoint dedup_loop (st : dedup_state) (all_jobs : list job) : result dedup_state :=
  match all_jobs with
  | [] => Ok st
  | j :: all_jobs' =>
      let* st' := dedup_step st j in
      dedup_loop st' all_jobs'
  end.

Definition remove_duplicates (all_jobs : list job) : result (list job) :=
  let* st := dedup_loop (Dedup ∅ ∅ []) all_jobs in
  Ok (unique_jobs st).

(** [scrape_all] without a progress callback. *)
Definition scrape_all (web : Web) (keywords : option (list str)) : result (list job) :=
  let all_jobs := collect web keywords in
  let* all_jobs := keyword_filter keywords all_jobs in
  remove_duplicates all_jobs.

End Aggregate.

(** ** The outcomes of the seven fetches, for stating what is merged *)

Definition outcomes (web : Web) (keywords : option (list str)) : list (result (list job)) :=
  [ fetch_jobspy web (Scraper.keywords_or_remote keywords);
    fetch_remoteok web 100; fetch_remotive web 100; fetch_jobicy web 100;
    fetch_arbeitnow web 100; fetch_himalayas web 100; fetch_weworkremotely web 100 ].

(** The record lists of the sources that did not fail. *)
Definition successful (os : list (result (list job))) : list (list job) :=
  omap (fun o => match o with Ok jobs => Some jobs | Raise _ => None end) os.

(** A web on which every failing fetch answers with no record instead. *)
Definition quiet {A} (fetch : A -> result (list job)) (a : A) : result (list job) :=
  match fetch a with
  | Ok jobs => Ok jobs
  | Raise _ => Ok []
  end.

Definition silenced (web : Web) : Web := {|
  fetch_jobspy := quiet (fetch_jobspy web);
  fetch_remoteok := quiet (fetch_remoteok web);
  fetch_remotive := quiet (fetch_remotive web);
  fetch_jobicy := quiet (fetch_jobicy web);
  fetch_arbeitnow := quiet (fetch_arbeitnow web);
  fetch_himalayas := quiet (fetch_himalayas web);
  fetch_weworkremotely := quiet (fetch_weworkremotely web)
|}.

(** ** Records whose fields are all strings *)

(** A record of [Scraper] as the dict it stands for. *)
Definition of_strings (j : Scraper.job) : job := {|
  title := Str (Scraper.title j);
  company := Str (Scraper.company j);
  location := Str (Scraper.location j);
  description := Str (Scraper.description j);
  tags := List (map Str (Scraper.tags j));
  url := Str (Scraper.url j);
  salary := Str (Scraper.salary j);
  posted_date := Str (Scraper.posted_date j);
  source := Str (Scraper.source j)
|}.

Definition lifted {A} (fetch : A -> result (list Scraper.job)) (a : A) : result (list job) :=
  match fetch a with
  | Ok jobs => Ok (map of_strings jobs)
  | Raise e => Raise e
  end.

Definition web_of_strings (web : Scraper.Web) : Web := {|
  fetch_jobspy := lifted (Scraper.fetch_jobspy web);
  fetch_remoteok := lifted (Scraper.fetch_remoteok web);
  fetch_remotive := lifted (Scraper.fetch_remotive web);
  fetch_jobicy := lifted (Scraper.fetch_jobicy web);
  fetch_arbeitnow := lifted (Scraper.fetch_arbeitnow web);
  fetch_himalayas := lifted (Scraper.fetch_himalayas web);
  fetch_weworkremotely := lifted (Scraper.fetch_weworkremotely web)
|}.

(** Lower-casing of the letters A to Z alone; it agrees with [str.lower]
    on ASCII text. *)
Definition ascii_casing : Casing := {| str_lower := Py.lower |}.

End JobScraper.

(* ===================================================================== *)
(** * Numbers *)

Module Num.

(** Rounding to the nearest integer, ties to the even one. *)
Definition round_half_even (q : Q) : Z :=
  let f := Qfloor q in
  let d := (q - inject_Z f)%Q in
  match (d ?= 1 # 2)%Q with
  | Lt => f
  | Gt => (f + 1)%Z
  | Eq => if Z.even f then f else (f + 1)%Z
  end.

(** [round(q, 2)] *)
Definition round2 (q : Q) : Q := (inject_Z (round_half_even (q * 100)) / 100)%Q.

(** The decimal digits of a natural number. *)
Fixpoint digits_fuel (fuel : nat) (n : N) (acc : Py.str) : Py.str :=
  match fuel with
  | O => acc
  | S fuel' =>
      let acc' := (48 + n mod 10)%N :: acc in
      if (n <? 10)%N then acc' else digits_fuel fuel' (n / 10)%N acc'
  end.

(** [str(z)] *)
Definition str_of_Z (z : Z) : Py.str :=
  let ds := digits_fuel (S (N.to_nat (N.log2 (Z.abs_N z)))) (Z.abs_N z) [] in
  if (z <? 0)%Z then ch "-" :: ds else ds.

(** [f"{q:.0f}"] *)
Definition format0 (q : Q) : Py.str := str_of_Z (round_half_even q).

End Num.

(* ===================================================================== *)
(** * The rows both [JobMatcher] and [JobFilter] work on *)

(** A job as the page normalises it before scoring. *)
Record listing := Listing {
  Title : Py.str;
  Company : Py.str;
  Location : Py.str;
  Description : Py.str;
  URL : Py.str;
  Salary : Py.str;
  Posted : Py.str;
  Source : Py.str
}.

(** A scored job, then a row of the data frame; the last three columns
    are the ones [apply_all_filters] adds. *)
Record row := Row {
  job : listing;
  Match_Score : Q;
  Match_Explanation : Py.str;
  Skills_Matched : nat;
  keyword_match : option bool;
  parsed_date : option Z;
  days_ago : option Z
}.

Definition set_score (s : Q) (r : row) : row :=
  Row (job r) s (Match_Explanation r) (Skills_Matched r)
      (keyword_match r) (parsed_date r) (days_ago r).

(* ===================================================================== *)
(** * [JobMatcher] *)

Module Matcher.
Import Py.

(** The keys of [cv_data] the matcher reads. *)
Record cv_data := CV {
  skills : list str;
  full_text : str;
  years_experience : Z
}.

(** [TfidfVectorizer.fit_transform] followed by [cosine_similarity] on
    the two documents: a similarity, or an exception.  TF-IDF weights are
    non-negative, so the cosine is. *)
Class Vectorizer := {
  cosine : str -> str -> result Q;
  cosine_nonneg : forall a b c, cosine a b = Ok c -> (0 <= c)%Q
}.

Definition cv_text (cv : cv_data) : str :=
  lower (join (u " ") [join (u " ") (skills cv); slice_to 3000 (full_text cv)]).

Definition adjacent_roles : list (str * list str) := [
  (u "social media", strs ["content creator"; "community manager"; "brand strategist";
                           "digital marketer"; "marketing coordinator"; "influencer"]);
  (u "content", strs ["copywriter"; "writer"; "blogger"; "editor"; "content strategist"]);
  (u "marketing", strs ["growth"; "campaign manager"; "brand coordinator"; "seo"]);
  (u "software", strs ["developer"; "engineer"; "programmer"; "full stack"; "backend";
                       "frontend"]);
  (u "python", strs ["data scientist"; "machine learning"; "backend"; "automation"]);
  (u "javascript", strs ["frontend"; "react"; "node"; "web developer"; "full stack"]);
  (u "data", strs ["analyst"; "scientist"; "bi"; "reporting"; "insights"; "analytics"]);
  (u "design", strs ["ui"; "ux"; "graphic"; "visual"; "product designer"; "creative"]);
  (u "figma", strs ["ui designer"; "ux designer"; "product designer"; "visual designer"]);
  (u "sales", strs ["business development"; "account executive"; "account manager"; "bdm"]);
  (u "account", strs ["customer success"; "client relations"; "account manager"]);
  (u "customer", strs ["support"; "service"; "help desk"; "success"; "chat"]);
  (u "admin", strs ["assistant"; "coordinator"; "office manager"; "executive assistant"]);
  (u "virtual assistant", strs ["admin"; "data entry"; "scheduling"; "bookkeeping"]);
  (u "recruiting", strs ["talent acquisition"; "hr"; "sourcer"; "recruiter"]);
  (u "hr", strs ["people operations"; "talent"; "employee relations"])
].

Definition skill_synonyms : list (str * list str) := [
  (u "python", strs ["programming"; "coding"; "development"]);
  (u "javascript", strs ["js"; "frontend"; "web development"]);
  (u "react", strs ["frontend"; "ui development"; "web app"]);
  (u "sql", strs ["database"; "data"; "queries"]);
  (u "excel", strs ["spreadsheet"; "data analysis"; "reporting"]);
  (u "canva", strs ["graphic design"; "visual design"; "design tools"]);
  (u "figma", strs ["ui design"; "ux design"; "prototyping"]);
  (u "social media", strs ["smm"; "social marketing"; "digital marketing"]);
  (u "content creation", strs ["content writing"; "copywriting"; "storytelling"]);
  (u "customer service", strs ["customer support"; "help desk"; "client support"]);
  (u "project management", strs ["pm"; "coordination"; "planning"]);
  (u "analytics", strs ["data analysis"; "reporting"; "insights"; "metrics"])
].

(** [d[k]] for a key known to the dict, [None] otherwise. *)
Fixpoint dict_get (d : list (str * list str)) (k : str) : option (list str) :=
  match d with
  | [] => None
  | (k', v) :: d' => if bool_decide (k' = k) then Some v else dict_get d' k
  end.

(** [expand_skills] *)
Definition expand_skills (skills : gset str) : gset str :=
  foldl (fun expanded skill =>
           match dict_get skill_synonyms skill with
           | Some syn => expanded ∪ list_to_set syn
           | None => expanded
           end)
        skills (elements skills).

Definition important_keywords : list str :=
  strs ["manager"; "coordinator"; "specialist"; "analyst"; "developer"; "engineer";
        "designer"; "assistant"; "associate"; "consultant"; "administrator";
        "marketing"; "sales"; "support"; "content"; "data"; "software"; "product"].

Definition entry_keywords : list str :=
  strs ["junior"; "associate"; "assistant"; "coordinator"; "entry"; "intern"; "specialist"].
Definition senior_keywords : list str :=
  strs ["senior"; "lead"; "head"; "director"; "manager"; "principal"].

(** [any(kw in title for kw in kws)] *)
Definition any_in (kws : list str) (title : str) : bool :=
  existsb (fun kw => contains kw title) kws.

(** The [if]/[elif] chain that picks the experience multiplier. *)
Definition exp_multiplier (is_entry is_senior : bool) (years : Z) : Q :=
  if is_senior && (years <? 3)%Z then (7 # 10)%Q
  else if is_entry && (1 <=? years)%Z && (years <=? 3)%Z then (12 # 10)%Q
  else if negb is_senior && (1 <=? years)%Z && (years <=? 4)%Z then (11 # 10)%Q
  else 1%Q.

Section Match.
Context `{Vectorizer}.
Variable cv : cv_data.

Definition job_text_of (j : listing) : str :=
  let title := lower (Title j) in
  let desc := lower (slice_to 1500 (Description j)) in
  title ++ u " " ++ title ++ u " " ++ desc.

Definition tfidf_score (j : listing) : Q :=
  match cosine (cv_text cv) (job_text_of j) with
  | Ok c => (c * 100)%Q
  | Raise _ => 0%Q
  end.

Definition cv_skills : gset str := list_to_set (map lower (skills cv)).

Definition skill_matches (j : listing) : nat :=
  length (filter (fun s => contains s (job_text_of j)) (elements (expand_skills cv_skills))).

Definition skill_score (j : listing) : Q :=
  Qmin (inject_Z (Z.of_nat (skill_matches j))
          / inject_Z (Z.of_nat (Nat.max (size cv_skills) 1)) * 150)%Q 100%Q.

Definition adjacency_bonus (j : listing) : Z :=
  foldl (fun bonus '(role_type, adjacent_list) =>
           if contains role_type (cv_text cv) && any_in adjacent_list (job_text_of j)
           then (bonus + 15)%Z else bonus)
        0%Z adjacent_roles.

Definition title_bonus (j : listing) : Z :=
  foldl (fun bonus kw =>
           if contains kw (cv_text cv) && contains kw (lower (Title j))
           then (bonus + 8)%Z else bonus)
        0%Z important_keywords.

Definition multiplier_of (j : listing) : Q :=
  let title := lower (Title j) in
  exp_multiplier (any_in entry_keywords title) (any_in senior_keywords title)
                 (years_experience cv).

Definition base_score (j : listing) : Q :=
  (tfidf_score j * (35 # 100) + skill_score j * (40 # 100)
   + inject_Z (adjacency_bonus j) + inject_Z (title_bonus j))%Q.

Definition final_score (j : listing) : Q :=
  Num.round2 (Qmin (base_score j * multiplier_of j)%Q 100%Q).

Definition explanation (j : listing) : str :=
  u "Text:" ++ Num.format0 (tfidf_score j) ++ u "% | Skills:"
  ++ Num.format0 (skill_score j) ++ u "% | Fit:+"
  ++ Num.str_of_Z (adjacency_bonus j + title_bonus j).

(** [match_job]: the job with its three result keys set. *)
Definition match_job (j : listing) : row :=
  Row j (final_score j) (explanation j) (skill_matches j) None None None.

(** [score_jobs] *)
Definition score_jobs (jobs : list listing) : list row := map match_job jobs.

End Match.

End Matcher.

(* ===================================================================== *)
(** * [JobFilter] *)

Module Filter.
Import Py.

(** The [datetime] calls of [parse_date] and the clock read by
    [__init__].  A naive date-time is its number of microseconds on the
    time line; [fromisoformat] also tells whether the text carried a zone. *)
Class Calendar := {
  now : Z;
  fromisoformat : str -> result (Z * bool);
  strptime_ymd : str -> result Z
}.

(** [sort_values('Match Score', ascending=False)].  The call does not choose
    a [kind], and pandas documents the default, quicksort, as not stable:
    what the program can rely on is a permutation in descending order of
    score.  [nlargest(n, 'Match Score')] is documented as
    [sort_values(..., ascending=False).head(n)]. *)
Definition score_ge (a b : row) : Prop := (Match_Score b <= Match_Score a)%Q.

Class FrameSort := {
  sort_values_desc : list row -> list row;
  sort_values_perm : forall df, Permutation df (sort_values_desc df);
  sort_values_sorted : forall df, Sorted score_ge (sort_values_desc df)
}.

Definition nlargest `{FrameSort} (n : nat) (df : list row) : list row :=
  take n (sort_values_desc df).

(** [Series.clip(upper=100)] on the score column. *)
Definition clip_upper (df : list row) : list row :=
  map (fun r => set_score (Qmin (Match_Score r) 100%Q) r) df.

Definition us_state_pattern : str :=
  u ",\s*(al|ak|az|ar|ca|co|ct|de|fl|ga|hi|id|il|in|ia|ks|ky|la|me|md|ma|mi|mn|ms|mo|mt|ne|nv|nh|nj|nm|ny|nc|nd|oh|ok|or|pa|ri|sc|sd|tn|tx|ut|vt|va|wa|wv|wi|wy|dc)\b".
Definition us_country_pattern : str := u "\b(united states|usa|u\.s\.a|u\.s\b)".
Definition worldwide_keywords : list str :=
  strs ["anywhere"; "worldwide"; "global"; "international"; "emea"; "apac"; "latam";
        "europe"; "africa"; "asia"].
Definition usa_keywords : list str := strs ["usa"; "us"; "united states"; "america"].

Section Filter.
Context `{Calendar} `{FrameSort}.
Variable possessive : bool.

(** [Series.str.contains(pattern, regex=True)]: the pattern is compiled
    once, then searched in each value. *)
Definition str_contains (pattern : str) : result (str -> bool) :=
  let* (r, _) := Re.compile possessive pattern in
  Ok (fun text => bool_decide (is_Some (Re.search_from r None text false))).

(** [parse_date] *)
Definition parse_date (date_str : str) : Z :=
  if negb (truthy date_str) || bool_decide (date_str ∈ strs ["N/A"; "Recent"]) then now
  else
    let parsed :=
      if contains (u "T") date_str then
        let* (dt, tzinfo) :=
          fromisoformat (replace (u "Z") [] (replace (u "+00:00") [] date_str)) in
        Ok dt
      else strptime_ymd (slice_to 10 date_str) in
    match parsed with
    | Ok dt => dt
    | Raise _ => now
    end.

(** [timedelta.days]: whole days, rounded down. *)
Definition days (delta : Z) : Z := (delta / 86400000000)%Z.

(** ** The stages of [apply_all_filters] *)

(** The boost of jobs that match the search terms. *)
Definition keyword_boost (search_keywords : option (list str)) (jobs_df : list row)
  : result (list row) :=
  match search_keywords with
  | Some (k :: ks) =>
      let search_pattern :=
        join (u "|")
          (map (fun kw => lower (strip kw))
               (filter (fun kw => truthy (strip kw)) (k :: ks))) in
      if truthy search_pattern then
        let* in_title := str_contains search_pattern in
        let* in_desc := str_contains search_pattern in
        let title_match := fun r => in_title (lower (Title (job r))) in
        let desc_match := fun r => in_desc (lower (Description (job r))) in
        let boosted :=
          map (fun r =>
                 let r1 := Row (job r) (Match_Score r) (Match_Explanation r)
                               (Skills_Matched r)
                               (Some (title_match r || desc_match r))
                               (parsed_date r) (days_ago r) in
                 let r2 := if title_match r
                           then set_score (Match_Score r1 + 15)%Q r1 else r1 in
                 if desc_match r && negb (title_match r)
                 then set_score (Match_Score r2 + 10)%Q r2 else r2)
              jobs_df in
        Ok (clip_upper boosted)
      else Ok jobs_df
  | _ => Ok jobs_df
  end.

(** One turn of [for kw in exclude_keywords]. *)
Definition exclude_step (jobs_df : list row) (kw : str) : result (list row) :=
  let kw := lower (strip kw) in
  if truthy kw then
    let pattern := u "\b" ++ kw ++ u "\b" in
    let* in_title := str_contains pattern in
    Ok (filter (fun r => negb (in_title (lower (Title (job r))))) jobs_df)
  else Ok jobs_df.

Fixpoint exclude_loop (jobs_df : list row) (kws : list str) : result (list row) :=
  match kws with
  | [] => Ok jobs_df
  | kw :: kws' =>
      let* jobs_df1 := exclude_step jobs_df kw in
      exclude_loop jobs_df1 kws'
  end.

Definition exclude (exclude_keywords : option (list str)) (jobs_df : list row)
  : result (list row) :=
  match exclude_keywords with
  | Some kws => exclude_loop jobs_df kws
  | None => Ok jobs_df
  end.

(** [(self.now - jobs_df['parsed_date']).dt]: on a frame without rows the
    column that [apply] builds is not of a datetime type, and the accessor
    raises. *)
Definition dt_accessor (jobs_df : list row) : result unit :=
  match jobs_df with
  | [] => Raise (Exception "AttributeError: Can only use .dt accessor with datetimelike values")
  | _ :: _ => Ok tt
  end.

(** The columns [parsed_date] and [days_ago]. *)
Definition with_days (jobs_df : list row) : list row :=
  map (fun r =>
         let d := parse_date (Posted (job r)) in
         Row (job r) (Match_Score r) (Match_Explanation r) (Skills_Matched r)
             (keyword_match r) (Some d) (Some (days (now - d))))
      jobs_df.

Definition within (limit : Z) (r : row) : bool :=
  match days_ago r with
  | Some d => (d <=? limit)%Z
  | None => false
  end.

(** The recency filter and its single relaxation to 45 days. *)
Definition recency (max_days : Z) (jobs_df : list row) : list row :=
  let jobs_df := with_days jobs_df in
  let filtered := filter (fun r => within max_days r) jobs_df in
  if length filtered <? 20 then filter (fun r => within 45 r) jobs_df else filtered.

Definition score_at_least (threshold : Q) (r : row) : bool :=
  Qle_bool threshold (Match_Score r).

(** The score filter with its fallbacks. *)
Definition score_filter (min_score : Q) (filtered : list row) : list row :=
  let score_filtered := filter (fun r => score_at_least min_score r) filtered in
  let score_filtered :=
    if length score_filtered <? 5
    then filter (fun r => score_at_least (Qmax (min_score - 20) 20)%Q r) filtered
    else score_filtered in
  let score_filtered :=
    if length score_filtered <? 5
    then filter (fun r => score_at_least 10%Q r) filtered
    else score_filtered in
  let score_filtered :=
    if length score_filtered <? 5
    then nlargest (Nat.min 20 (length filtered)) filtered
    else score_filtered in
  score_filtered.

(** The two adjustments of a row under the worldwide preference. *)
Definition worldwide_adjust (is_us_city is_us_country is_worldwide : str -> bool)
    (r : row) : row :=
  let location_text := lower (Location (job r)) in
  let is_just_remote := bool_decide (strip location_text = u "remote") in
  let r1 :=
    if is_worldwide location_text || is_just_remote
    then set_score (Match_Score r + 30)%Q r else r in
  let is_us_specific :=
    (is_us_city location_text || is_us_country location_text)
    && negb (is_worldwide location_text) in
  if is_us_specific then set_score (Match_Score r1 - 40)%Q r1 else r1.

(** The location stage, by [remote_type]. *)
Definition location_filter (remote_type : str) (filtered : list row) : result (list row) :=
  if bool_decide (remote_type ∈ strs ["Worldwide Remote (Anywhere)"; "Worldwide (Anywhere)"])
  then
    let* is_us_city := str_contains us_state_pattern in
    let* is_us_country := str_contains us_country_pattern in
    let worldwide_pattern := join (u "|") worldwide_keywords in
    let* is_worldwide := str_contains worldwide_pattern in
    Ok (map (worldwide_adjust is_us_city is_us_country is_worldwide) filtered)
  else if bool_decide (remote_type ∈ strs ["USA Remote Only"; "USA Only"])
  then
    let usa_pattern := join (u "|") usa_keywords in
    let* is_usa := str_contains usa_pattern in
    let usa_jobs := filter (fun r => is_usa (lower (Location (job r)))) filtered in
    Ok (if 5 <=? length usa_jobs then usa_jobs else filtered)
  else Ok filtered.

(** [apply_all_filters]; [remote_type] is [self.preferences.get('remote_type',
    'Remote (All)')]. *)
Definition apply_all_filters (remote_type : str) (jobs_df : list row) (max_days : Z)
    (min_score : Q) (exclude_keywords search_keywords : option (list str))
  : result (list row) :=
  match jobs_df with
  | [] => Ok jobs_df
  | _ =>
      let* jobs_df := keyword_boost search_keywords jobs_df in
      let* jobs_df := exclude exclude_keywords jobs_df in
      let* _ := dt_accessor jobs_df in
      let filtered := recency max_days jobs_df in
      let filtered := score_filter min_score filtered in
      let* filtered := location_filter remote_type filtered in
      let filtered := clip_upper filtered in
      Ok (sort_values_desc filtered)
  end.

End Filter.

End Filter.

(* ===================================================================== *)
(** * [ApplicationHelper]: what a letter is built from *)

Module Helper.
Import Py.

(** [s.split(sep)] for a separator of one character. *)
Fixpoint split_on (sep : N) (s : str) : list str :=
  match s with
  | [] => [[]]
  | c :: s' =>
      if (c =? sep)%N then [] :: split_on sep s'
      else match split_on sep s' with
           | piece :: pieces => (c :: piece) :: pieces
           | [] => [[c]]
           end
  end.

Definition requirement_patterns : list str :=
  strs ["required"; "must have"; "should have"; "experience with"; "knowledge of";
        "proficiency in"; "expertise in"; "strong"; "excellent"].

(** The body of [for sentence in sentences[:10]]. *)
Definition requirement_step (requirements : list str) (sentence : str) : list str :=
  let sentence_lower := lower sentence in
  if existsb (fun pattern => contains pattern sentence_lower) requirement_patterns then
    let clean := strip sentence in
    if (20 <? length clean) && (length clean <? 150) then requirements ++ [clean]
    else requirements
  else requirements.

(** [extract_job_requirements] *)
Definition extract_job_requirements (job_description : str) : list str :=
  if negb (truthy job_description) then []
  else
    let sentences := split_on (ch ".") job_description in
    let requirements := foldl requirement_step [] (take 10 sentences) in
    take 5 requirements.

(** [match_skills_to_job] *)
Definition match_skills_to_job (cv_skills : list str) (job_description : str) : list str :=
  if negb (truthy job_description) then take 5 cv_skills
  else
    let desc_lower := lower job_description in
    let matched_skills := filter (fun skill => contains (lower skill) desc_lower) cv_skills in
    match matched_skills with
    | [] => take 5 cv_skills
    | _ => take 8 matched_skills
    end.

End Helper.

(* ===================================================================== *)
(** * The search: what the page does when the search button is pressed *)

Module Search.
Import Py.

(** [[t.strip().lower() for t in job_titles.split(',') if t.strip()]] *)
Definition titles_list (job_titles : str) : list str :=
  map (fun t => lower (strip t))
      (filter (fun t => truthy (strip t)) (Helper.split_on (ch ",") job_titles)).

(** [[kw.strip() for kw in exclude_keywords.split(',') if kw.strip()]
    if exclude_keywords else []] *)
Definition exclude_list (exclude_keywords : str) : list str :=
  if truthy exclude_keywords
  then map strip
         (filter (fun kw => truthy (strip kw)) (Helper.split_on (ch ",") exclude_keywords))
  else [].

(** The dict built from each job under [# Normalize jobs]. *)
Definition normalize (j : Scraper.job) : listing :=
  Listing (Scraper.title j) (Scraper.company j) (Scraper.location j)
          (Scraper.description j) (Scraper.url j) (Scraper.salary j)
          (Scraper.posted_date j) (Scraper.source j).

(** How the press of the button ends, when nothing is raised: one of the
    two error messages, the warning, or a frame stored in the session. *)
Inductive outcome :=
  | upload_cv_first
  | enter_a_title
  | no_jobs_found
  | search_complete (jobs_df : list row).

Section Search.
Context `{Matcher.Vectorizer} `{Filter.Calendar} `{Filter.FrameSort}.
Variable possessive : bool.
Variable web : Scraper.Web.

Definition find_my_jobs (cv_data : option Matcher.cv_data) (remote_type : str)
    (min_match max_days : Z) (exclude_keywords job_titles : str) : result outcome :=
  match cv_data with
  | None => Ok upload_cv_first
  | Some cv =>
      if negb (truthy (strip job_titles)) then Ok enter_a_title
      else
        let titles_list := titles_list job_titles in
        let jobs := Scraper.scrape_all web (Some titles_list) in
        match jobs with
        | [] => Ok no_jobs_found
        | _ =>
            let jobs := map normalize jobs in
            let scored_jobs := Matcher.score_jobs cv jobs in
            let exclude_list := exclude_list exclude_keywords in
            let* filtered_df :=
              Filter.apply_all_filters possessive remote_type scored_jobs max_days
                (inject_Z min_match) (Some exclude_list) (Some titles_list) in
            Ok (search_complete filtered_df)
        end
  end.

End Search.

End Search.

(* ===================================================================== *)
(** * Implementations of the library interfaces

    A sort that meets the contract of [sort_values], a calendar and a
    vectorizer; the properties below hold for every implementation, and
    these serve to run the pipeline on examples. *)

Module Sorts.
Import Filter.

(** Insertion of [x] into a list sorted by descending score: [x] passes
    the rows [skip] tells it to. *)
Fixpoint insert_by (skip : row -> row -> bool) (x : row) (l : list row) : list row :=
  match l with
  | [] => [x]
  | y :: l' => if skip y x then y :: insert_by skip x l' else x :: l
  end.

Definition isort_by (skip : row -> row -> bool) (l : list row) : list row :=
  foldr (insert_by skip) [] l.

(** A row passes only rows that score strictly more: ties keep the order
    of the input. *)
Definition skip_higher (y x : row) : bool :=
  negb (Qle_bool (Match_Score y) (Match_Score x)).

Section Contract.
Variable skip : row -> row -> bool.
Hypothesis skip_true : forall y x, skip y x = true -> score_ge y x.
Hypothesis skip_false : forall y x, skip y x = false -> score_ge x y.

Lemma insert_by_perm x l : Permutation (x :: l) (insert_by skip x l).
Proof.
  induction l as [|y l IH]; simpl; [done|].
  destruct (skip y x); [|done].
  rewrite <- IH. apply perm_swap.
Qed.

Lemma isort_by_perm l : Permutation l (isort_by skip l).
Proof.
  induction l as [|x l IH]; simpl; [done|].
  rewrite <- insert_by_perm. by constructor.
Qed.

Lemma insert_by_hd x a l :
  score_ge a x -> HdRel score_ge a l -> HdRel score_ge a (insert_by skip x l).
Proof.
  intros Hax Hl. destruct l as [|y l]; simpl; [by constructor|].
  destruct (skip y x); constructor; [by inversion Hl | done].
Qed.

Lemma insert_by_sorted x l : Sorted score_ge l -> Sorted score_ge (insert_by skip x l).
Proof.
  induction 1 as [|y l Hs IH Hd]; simpl; [by repeat constructor|].
  destruct (skip y x) eqn:E.
  - constructor; [done|]. apply insert_by_hd; [by apply skip_true | done].
  - constructor; [by constructor|]. constructor. by apply skip_false.
Qed.

Lemma isort_by_sorted l : Sorted score_ge (isort_by skip l).
Proof. induction l; simpl; [constructor | by apply insert_by_sorted]. Qed.
End Contract.

Lemma skip_higher_true y x : skip_higher y x = true -> score_ge y x.
Proof.
  unfold skip_higher, score_ge. intros E%negb_true_iff.
  destruct (Qlt_le_dec (Match_Score x) (Match_Score y)) as [?|Hle]; [by apply Qlt_le_weak|].
  apply Qle_bool_iff in Hle. congruence.
Qed.
Lemma skip_higher_false y x : skip_higher y x = false -> score_ge x y.
Proof. unfold skip_higher, score_ge. intros E%negb_false_iff. by apply Qle_bool_iff. Qed.

(** A stable sort, as [kind='stable'] would give. *)
#[export] Instance stable_sort : FrameSort := {|
  sort_values_desc := isort_by skip_higher;
  sort_values_perm := isort_by_perm skip_higher;
  sort_values_sorted := isort_by_sorted skip_higher skip_higher_true skip_higher_false
|}.

(** A clock stopped at 2026-11-04 and a parser that accepts no date: every
    posting date then counts as today. *)
Definition stopped_calendar : Calendar := {|
  now := 1793750400000000;
  fromisoformat := fun _ => Raise (Exception "ValueError");
  strptime_ymd := fun _ => Raise (Exception "ValueError")
|}.

(** A vectorizer for which no two documents share a term. *)
Lemma zero_cosine_nonneg (a b : Py.str) (c : Q) : Ok 0%Q = Ok c -> (0 <= c)%Q.
Proof. intros [= <-]. apply Qle_refl. Qed.

Definition disjoint_vectorizer : Matcher.Vectorizer := {|
  Matcher.cosine := fun _ _ => Ok 0%Q;
  Matcher.cosine_nonneg := zero_cosine_nonneg
|}.

End Sorts.

(* ===================================================================== *)
(** * Properties *)

(** Closed goals about concrete inputs are settled by evaluation. *)
Ltac by_decide := apply (bool_decide_unpack _); vm_compute; exact I.

Lemma bind_ok {A B} (m : result A) (k : A -> result B) a : m = Ok a -> bind m k = k a.
Proof. by intros ->. Qed.

(** ** Skill extraction *)

Section SkillFacts.
Import Py CVParser.

(** Every term the extractor looks for. *)
Definition taxonomy : list str := concat (map snd skill_database) ++ prog_langs.

Lemma add_found_spec text_lower xs found s :
  s ∈ add_found text_lower xs found <->
  s ∈ found \/ (s ∈ xs /\ contains s text_lower = true).
Proof.
  unfold add_found. revert found.
  induction xs as [|x xs IH]; intros found; cbn [foldl].
  - rewrite elem_of_nil. tauto.
  - rewrite IH, elem_of_cons. destruct (contains x text_lower) eqn:E.
    + rewrite elem_of_union, elem_of_singleton.
      split; [intros [[->|?]|[? ?]]; auto | intros [?|[[->|?] ?]]; auto].
    + split; [intros [?|[? ?]]; auto | intros [?|[[->|?] Hc]]; auto; congruence].
Qed.

Lemma skills_spec text s :
  s ∈ extract_comprehensive_skills text <->
  s ∈ taxonomy /\ contains s (lower text) = true.
Proof.
  unfold extract_comprehensive_skills, taxonomy.
  rewrite !add_found_spec, elem_of_app, elem_of_empty. tauto.
Qed.

(** C4, as stated, fails: on "my career in retail" the extractor reports
    the skill "r", so the three facts the claim asserts do not hold
    together. *)
Lemma C4_word_boundary_refuted :
  ~ ((u "r" ∉ extract_comprehensive_skills (u "my career in retail"))
     /\ (u "c" ∉ extract_comprehensive_skills (u "my career in retail"))
     /\ (u "python" ∈ extract_comprehensive_skills (u "I use Python daily"))).
Proof. intros (Hr & _ & _). apply Hr. by_decide. Qed.

(** C4, amended: skill extraction is case-insensitive raw substring
    matching: a term is reported exactly when it belongs to the taxonomy
    (or the programming-language list) and occurs as a substring of the
    lower-cased text.  So "my career in retail" reports "r" (inside
    "career") and not "c" (no such term is looked for), and
    "I use Python daily" reports "python". *)
Theorem C4_skills_by_substring :
  (forall text s,
     s ∈ extract_comprehensive_skills text <->
     s ∈ taxonomy /\ contains s (lower text) = true)
  /\ (u "r" ∈ extract_comprehensive_skills (u "my career in retail"))
  /\ (u "c" ∉ extract_comprehensive_skills (u "my career in retail"))
  /\ (u "c" ∉ taxonomy)
  /\ (u "python" ∈ extract_comprehensive_skills (u "I use Python daily")).
Proof.
  split; [exact skills_spec|].
  repeat split; by_decide.
Qed.

End SkillFacts.

(** ** Years of experience *)

Section YearsFacts.
Import Py CVParser.
Variable possessive : bool.
Variable int_max_str_digits : nat.

Lemma patterns_compile p :
  p ∈ date_pattern :: patterns -> exists r ng, Re.compile possessive p = Ok (r, ng).
Proof.
  unfold patterns. rewrite !elem_of_cons, elem_of_nil.
  intros [->|[->|[->|[->|[]]]]]; destruct possessive; vm_compute; eauto.
Qed.

Lemma findall1_ok p t : p ∈ patterns -> exists m, findall1 possessive p t = Ok m.
Proof.
  intros Hp. destruct (patterns_compile p) as (r & ng & E); [by right|].
  unfold findall1, Re.findall. rewrite E. simpl. eauto.
Qed.

Lemma findall2_ok t : exists m, findall2 possessive date_pattern t = Ok m.
Proof.
  destruct (patterns_compile date_pattern) as (r & ng & E); [by left|].
  unfold findall2, Re.findall. rewrite E. simpl. eauto.
Qed.

Lemma largest_nonneg ns : (0 <= largest ns)%Z.
Proof. induction ns; simpl; lia. Qed.

Lemma largest_app a b : largest (a ++ b) = Z.max (largest a) (largest b).
Proof. induction a as [|x a IH]; simpl; [pose proof (largest_nonneg b); lia | rewrite IH; lia]. Qed.

Lemma foldr_max_shift n x ns : foldr Z.max (Z.max n x) ns = Z.max x (foldr Z.max n ns).
Proof. induction ns as [|y ns IH]; simpl; [lia | rewrite IH; lia]. Qed.

Lemma foldl_max n ns : foldl Z.max n ns = foldr Z.max n ns.
Proof.
  revert n. induction ns as [|x ns IH]; intros n; simpl; [done|].
  by rewrite IH, foldr_max_shift.
Qed.

Lemma foldr_max_base a ns : Z.max 0 (foldr Z.max a ns) = Z.max a (largest ns).
Proof. unfold largest. induction ns as [|x ns IH]; simpl; lia. Qed.

Lemma foldr_max_ge a ns : (a <= foldr Z.max a ns)%Z.
Proof. induction ns; simpl; lia. Qed.

Lemma max_of_largest y ns : (0 <= y)%Z -> Z.max y (max_of ns) = Z.max y (largest ns).
Proof.
  intros Hy. destruct ns as [|n ns]; simpl; [lia|].
  rewrite foldl_max.
  pose proof (foldr_max_base n ns). pose proof (foldr_max_ge n ns). lia.
Qed.

Lemma mapM_app {A B} (f : A -> result B) l1 l2 :
  mapM f (l1 ++ l2) = let* a := mapM f l1 in let* b := mapM f l2 in Ok (a ++ b).
Proof.
  induction l1 as [|x l1 IH]; simpl.
  - by destruct (mapM f l2).
  - destruct (f x); simpl; [|done]. rewrite IH.
    destruct (mapM f l1); simpl; [|done]. by destruct (mapM f l2).
Qed.

(** One turn of the loop over the patterns, in the specification's terms. *)
Lemma years_step_spec t y p m :
  (0 <= y)%Z -> findall1 possessive p t = Ok m ->
  years_step possessive int_max_str_digits t y p
  = let* ns := mapM (int int_max_str_digits) m in Ok (Z.max y (largest ns)).
Proof.
  intros Hy E. unfold years_step. rewrite E. cbn [bind].
  destruct m as [|m0 m]; [simpl; f_equal; lia|].
  destruct (mapM (int int_max_str_digits) (m0 :: m)) as [ns|e]; cbn [bind]; [|done].
  by rewrite max_of_largest.
Qed.

Lemma years_loop_spec t ps : forall y,
  (0 <= y)%Z -> (forall p, p ∈ ps -> p ∈ patterns) ->
  years_loop possessive int_max_str_digits t y ps =
  let* per_pattern := mapM (fun p => findall1 possessive p t) ps in
  let* ns := mapM (int int_max_str_digits) (concat per_pattern) in
  Ok (Z.max y (largest ns)).
Proof.
  induction ps as [|p ps IH]; intros y Hy Hps; simpl.
  - f_equal. lia.
  - destruct (findall1_ok p t) as [m E]; [apply Hps; by left|].
    rewrite (years_step_spec _ _ _ _ Hy E), E. cbn [bind].
    assert (forall q, q ∈ ps -> q ∈ patterns) as Hps' by (intros; apply Hps; by right).
    destruct (mapM (int int_max_str_digits) m) as [ns|e] eqn:En; cbn [bind].
    + rewrite IH; [|pose proof (largest_nonneg ns); lia | done].
      destruct (mapM _ ps) as [per|e]; cbn [bind]; [|done].
      cbn [concat]. rewrite mapM_app, En. cbn [bind].
      destruct (mapM (int int_max_str_digits) (concat per)) as [ns'|e]; cbn [bind]; [|done].
      rewrite largest_app. f_equal. lia.
    + (* the first literal refused is in [m]: whatever follows, its error *)
      assert (exists per, mapM (fun p0 => findall1 possessive p0 t) ps = Ok per) as [per ->].
      { clear -Hps'. induction ps as [|q ps IHp]; simpl; [by exists []|].
        destruct (findall1_ok q t) as [mq ->]; [apply Hps'; by left|]. simpl.
        destruct IHp as [per ->]; [intros; apply Hps'; by right|]. simpl. eauto. }
      cbn [bind concat]. by rewrite mapM_app, En.
Qed.

Lemma range_step_spec total r :
  range_step int_max_str_digits total r
  = let* y := range_years int_max_str_digits r in Ok (total + y)%Z.
Proof.
  destruct r as [s e]. unfold range_step, range_years. cbn [fst snd].
  destruct (int int_max_str_digits s) as [sy|ex]; simpl; [|done].
  assert (bool_decide (e ∈ strs ["present"; "current"]) =
          bool_decide (e = u "present" \/ e = u "current")) as ->.
  { apply bool_decide_ext. unfold strs. cbn [map].
    rewrite !elem_of_cons, elem_of_nil. tauto. }
  by destruct (if bool_decide _ then _ else _).
Qed.

Lemma range_loop_spec ranges : forall total,
  range_loop int_max_str_digits total ranges =
  let* spans := mapM (range_years int_max_str_digits) ranges in
  Ok (total + foldr Z.add 0 spans)%Z.
Proof.
  induction ranges as [|r rs IH]; intros total; cbn [range_loop mapM].
  - simpl. f_equal. lia.
  - rewrite range_step_spec.
    destruct (range_years int_max_str_digits r) as [y|ex]; simpl; [|done].
    rewrite IH. destruct (mapM (range_years int_max_str_digits) rs); simpl; [|done].
    f_equal. lia.
Qed.

Lemma extract_years_refines text :
  _extract_years_experience possessive int_max_str_digits text
  = spec_years_experience possessive int_max_str_digits text.
Proof.
  unfold _extract_years_experience, spec_years_experience, explicit_years.
  rewrite years_loop_spec; [|lia|done].
  destruct (mapM _ patterns) as [per|e]; simpl; [|done].
  destruct (mapM (int int_max_str_digits) (concat per)) as [ns|e]; simpl; [|done].
  destruct (findall2_ok (lower text)) as [rs ->]. simpl.
  pose proof (largest_nonneg ns).
  destruct rs as [|r rs]; [simpl; f_equal; lia|].
  rewrite range_loop_spec.
  destruct (mapM (range_years int_max_str_digits) (r :: rs)); simpl; [|done].
  f_equal. lia.
Qed.

End YearsFacts.



(** The characters on which this embedding of [str.lower], [\s], [\d]
    and [int] is the interpreter's own: the ASCII characters, and the two
    dashes the date pattern names.  Other code points can be white space,
    digits or cased letters of Unicode, which the embedding does not
    know. *)
Definition plain_char (c : N) : bool :=
  ((c <? 128) || (c =? 8211) || (c =? 8212))%N.



(** ** De-duplication and failure isolation in the aggregator *)

Section ScraperFacts.
Import Py Scraper.

(** What the loop maintains: the two sets hold exactly the urls and keys
    of the jobs kept so far, which are pairwise distinct. *)
Record dedup_inv (st : dedup_state) : Prop := {
  inv_urls : forall x, x ∈ seen_urls st <-> x ∈ map url (unique_jobs st);
  inv_keys : forall x, x ∈ seen_jobs st <-> x ∈ map job_key (unique_jobs st);
  inv_nodup_url : NoDup (map url (unique_jobs st));
  inv_nodup_key : NoDup (map job_key (unique_jobs st));
  inv_truthy : Forall (fun j => url j <> []) (unique_jobs st)
}.

Lemma truthy_nonempty s : truthy s = true <-> s <> [].
Proof. destruct s; simpl; split; congruence. Qed.

Lemma dedup_step_kept st j :
  dedup_inv st ->
  unique_jobs (dedup_step st j) =
  if bool_decide (url j <> [] /\ (url j ∉ map url (unique_jobs st))
                  /\ (job_key j ∉ map job_key (unique_jobs st)))
  then unique_jobs st ++ [j] else unique_jobs st.
Proof.
  intros I. unfold dedup_step.
  destruct (truthy (url j)) eqn:Et; simpl.
  - apply truthy_nonempty in Et.
    destruct (bool_decide (url j ∉ seen_urls st)) eqn:Eu; simpl.
    + apply bool_decide_eq_true in Eu. rewrite (inv_urls _ I) in Eu.
      destruct (bool_decide (job_key j ∉ seen_jobs st)) eqn:Ek; simpl.
      * apply bool_decide_eq_true in Ek. rewrite (inv_keys _ I) in Ek.
        by rewrite bool_decide_eq_true_2.
      * apply bool_decide_eq_false in Ek. rewrite (inv_keys _ I) in Ek.
        rewrite bool_decide_eq_false_2; [done|]. tauto.
    + apply bool_decide_eq_false in Eu. rewrite (inv_urls _ I) in Eu.
      rewrite bool_decide_eq_false_2; [done|]. tauto.
  - rewrite bool_decide_eq_false_2; [done|].
    intros (Hne & _). apply truthy_nonempty in Hne. congruence.
Qed.

Lemma dedup_step_inv st j : dedup_inv st -> dedup_inv (dedup_step st j).
Proof.
  intros I. pose proof (dedup_step_kept st j I) as Hk.
  unfold dedup_step in *.
  destruct (truthy (url j) && bool_decide (url j ∉ seen_urls st)
            && bool_decide (job_key j ∉ seen_jobs st)) eqn:E; [|done].
  apply andb_true_iff in E as [E Ek]. apply andb_true_iff in E as [Et Eu].
  apply truthy_nonempty in Et.
  apply bool_decide_eq_true in Eu. rewrite (inv_urls _ I) in Eu.
  apply bool_decide_eq_true in Ek. rewrite (inv_keys _ I) in Ek.
  split; simpl.
  - intros x. rewrite elem_of_union, elem_of_singleton, map_app, elem_of_app.
    rewrite (inv_urls _ I). simpl. rewrite list_elem_of_singleton. tauto.
  - intros x. rewrite elem_of_union, elem_of_singleton, map_app, elem_of_app.
    rewrite (inv_keys _ I). simpl. rewrite list_elem_of_singleton. tauto.
  - rewrite map_app. apply NoDup_app. split; [apply I|]. simpl. split.
    + intros x Hx Hj. apply list_elem_of_singleton in Hj. by subst.
    + apply NoDup_singleton.
  - rewrite map_app. apply NoDup_app. split; [apply I|]. simpl. split.
    + intros x Hx Hj. apply list_elem_of_singleton in Hj. by subst.
    + apply NoDup_singleton.
  - apply Forall_app. split; [apply I|]. by constructor.
Qed.

Lemma dedup_init_inv : dedup_inv (Dedup ∅ ∅ []).
Proof.
  split; simpl; try (intros x; rewrite elem_of_empty, elem_of_nil; tauto);
    try apply NoDup_nil_2; constructor.
Qed.

Lemma dedup_fold_inv jobs : forall st, dedup_inv st -> dedup_inv (foldl dedup_step st jobs).
Proof.
  induction jobs as [|j jobs IH]; intros st I; simpl; [done|].
  by apply IH, dedup_step_inv.
Qed.

(** The kept jobs only grow, in the order of the input. *)
Lemma dedup_fold_sublist jobs : forall st,
  dedup_inv st ->
  exists kept, unique_jobs (foldl dedup_step st jobs) = unique_jobs st ++ kept
               /\ sublist kept jobs.
Proof.
  induction jobs as [|j jobs IH]; intros st I; simpl.
  - exists []. by rewrite app_nil_r.
  - destruct (IH _ (dedup_step_inv st j I)) as (kept & E & Hs).
    rewrite E, (dedup_step_kept st j I). case_bool_decide.
    + exists (j :: kept). rewrite <- app_assoc. split; [done|]. by constructor.
    + exists kept. split; [done|]. by constructor.
Qed.

Lemma remove_duplicates_inv all_jobs :
  dedup_inv (foldl dedup_step (Dedup ∅ ∅ []) all_jobs).
Proof. apply dedup_fold_inv, dedup_init_inv. Qed.

Lemma remove_duplicates_sublist all_jobs :
  sublist (remove_duplicates all_jobs) all_jobs.
Proof.
  destruct (dedup_fold_sublist all_jobs _ dedup_init_inv) as (kept & E & Hs).
  unfold remove_duplicates. by rewrite E.
Qed.

End ScraperFacts.

Section AggregatorExamples.
Import Py Scraper.

(** A posting that came without a url. *)
Definition analyst_a : job :=
  Job (u "Data Analyst") (u "Acme") (u "Remote") (u "SQL and dashboards") []
      [] (u "Not specified") (u "N/A") (u "Remotive").

(** One job kept, then two postings that share a url with each other and
    the title and company with the first. *)
Definition engineer_x : job :=
  Job (u "Engineer") (u "Initech") (u "Remote") [] [] (u "https://a.example/1")
      (u "Not specified") (u "N/A") (u "RemoteOK").
Definition engineer_y : job :=
  Job (u "Engineer") (u "Initech") (u "Remote") [] [] (u "https://b.example/7")
      (u "Not specified") (u "N/A") (u "Remotive").

Lemma guarded_successful os :
  concat (map guarded os) = concat (successful os).
Proof.
  induction os as [|[jobs|e] os IH]; simpl; [done| |done].
  unfold successful in *. simpl. by rewrite IH.
Qed.

Lemma collect_outcomes web keywords :
  collect web keywords = concat (map guarded (outcomes web keywords)).
Proof.
  unfold collect, outcomes, scrape_jobspy, scrape_remoteok, scrape_remotive,
    scrape_jobicy, scrape_arbeitnow, scrape_himalayas, scrape_weworkremotely.
  simpl. by rewrite <- !app_assoc, app_nil_r.
Qed.

(** A web where three sources fail, each in its own way: nothing is
    merged from them and nothing is raised. *)
Definition flaky_web : Web := {|
  fetch_jobspy := fun _ => Raise (Exception "ImportError: No module named jobspy");
  fetch_remoteok := fun _ => Ok [engineer_x];
  fetch_remotive := fun _ => Raise (Exception "ReadTimeout");
  fetch_jobicy := fun _ => Ok [engineer_y];
  fetch_arbeitnow := fun _ => Raise (Exception "JSONDecodeError");
  fetch_himalayas := fun _ => Ok [];
  fetch_weworkremotely := fun _ => Ok [analyst_a]
|}.

End AggregatorExamples.

(** ** De-duplication and failure isolation on the records as delivered *)

Section JobScraperFacts.
Import Py JobScraper.
Context `{Casing}.





























End JobScraperFacts.

(** ** The aggregator on records whose fields are all strings *)

Section StringRecords.
Import Py JobScraper.

#[local] Existing Instance ascii_casing.

Lemma guarded_lifted {A} (fetch : A -> result (list Scraper.job)) a :
  guarded (lifted fetch a) = map of_strings (Scraper.guarded (fetch a)).
Proof. unfold lifted. by destruct (fetch a). Qed.

Lemma collect_of_strings web keywords :
  collect (web_of_strings web) keywords = map of_strings (Scraper.collect web keywords).
Proof.
  unfold collect, Scraper.collect, scrape_jobspy, scrape_remoteok, scrape_remotive,
    scrape_jobicy, scrape_arbeitnow, scrape_himalayas, scrape_weworkremotely,
    Scraper.scrape_jobspy, Scraper.scrape_remoteok, Scraper.scrape_remotive,
    Scraper.scrape_jobicy, Scraper.scrape_arbeitnow, Scraper.scrape_himalayas,
    Scraper.scrape_weworkremotely.
  simpl. by rewrite !guarded_lifted, !map_app.
Qed.

Lemma keyword_relevant_of_strings expanded j :
  keyword_relevant expanded (of_strings j) = Ok (Scraper.keyword_relevant expanded j).
Proof. reflexivity. Qed.

Lemma job_key_of_strings j : job_key (of_strings j) = Ok (Scraper.job_key j).
Proof. reflexivity. Qed.

Lemma keyword_loop_of_strings expanded jobs : forall acc,
  keyword_loop expanded (map of_strings jobs) acc
  = Ok (acc ++ map of_strings
                 (filter (fun j => Scraper.keyword_relevant expanded j) jobs)).
Proof.
  induction jobs as [|j jobs IH]; intros acc; cbn [keyword_loop map].
  - by rewrite app_nil_r.
  - rewrite keyword_relevant_of_strings. cbn [bind]. rewrite IH, filter_cons.
    destruct (Scraper.keyword_relevant expanded j); cbn [Is_true decide_rel].
    + rewrite decide_True by done. cbn [map]. by rewrite <- app_assoc.
    + rewrite decide_False by (intros []). done.
Qed.

Lemma keyword_filter_of_strings keywords jobs :
  keyword_filter keywords (map of_strings jobs)
  = Ok (map of_strings (Scraper.keyword_filter keywords jobs)).
Proof.
  destruct keywords as [[|k ks]|]; try done.
  unfold keyword_filter, Scraper.keyword_filter.
  by rewrite keyword_loop_of_strings.
Qed.

(** The state of the loop on string records, as a state of the loop on
    values. *)
Definition state_of_strings (st : Scraper.dedup_state) : dedup_state :=
  Dedup (set_map HStr (Scraper.seen_urls st)) (Scraper.seen_jobs st)
        (map of_strings (Scraper.unique_jobs st)).

Lemma dedup_step_of_strings st j :
  dedup_step (state_of_strings st) (of_strings j)
  = Ok (state_of_strings (Scraper.dedup_step st j)).
Proof.
  unfold dedup_step, Scraper.dedup_step.
  rewrite job_key_of_strings.
  cbn [bind url of_strings truthy hashed state_of_strings seen_urls seen_jobs unique_jobs].
  assert (bool_decide (HStr (Scraper.url j)
                         ∉ (set_map HStr (Scraper.seen_urls st) : gset hashable))
          = bool_decide (Scraper.url j ∉ Scraper.seen_urls st)) as ->.
  { apply bool_decide_ext. rewrite elem_of_map. split.
    - intros Hn Hin. apply Hn. by exists (Scraper.url j).
    - intros Hn (x & [= Hx] & Hin). by subst. }
  destruct (Py.truthy (Scraper.url j)); [|done]. cbn [andb].
  destruct (bool_decide (Scraper.url j ∉ Scraper.seen_urls st)
            && bool_decide (Scraper.job_key j ∉ Scraper.seen_jobs st)); [|done].
  unfold state_of_strings. simpl.
  by rewrite set_map_union_L, set_map_singleton_L, map_app.
Qed.

Lemma dedup_loop_of_strings jobs : forall st,
  dedup_loop (state_of_strings st) (map of_strings jobs)
  = Ok (state_of_strings (foldl Scraper.dedup_step st jobs)).
Proof.
  induction jobs as [|j jobs IH]; intros st; cbn [dedup_loop map foldl]; [done|].
  rewrite dedup_step_of_strings. cbn [bind]. apply IH.
Qed.

Lemma remove_duplicates_of_strings jobs :
  remove_duplicates (map of_strings jobs)
  = Ok (map of_strings (Scraper.remove_duplicates jobs)).
Proof.
  unfold remove_duplicates, Scraper.remove_duplicates.
  change (Dedup ∅ ∅ []) with (state_of_strings (Scraper.Dedup ∅ ∅ [])).
  by rewrite dedup_loop_of_strings.
Qed.

(** On records whose fields are all strings, and with the lower-casing
    of ASCII, [scrape_all] does not raise and is [Scraper.scrape_all]. *)
Lemma scrape_all_of_strings web keywords :
  scrape_all (web_of_strings web) keywords
  = Ok (map of_strings (Scraper.scrape_all web keywords)).
Proof.
  unfold scrape_all, Scraper.scrape_all.
  rewrite collect_of_strings, keyword_filter_of_strings. cbn [bind].
  apply remove_duplicates_of_strings.
Qed.

End StringRecords.

Section AggregatorClaims.
Import Py JobScraper.

(** Two records of one job that came without a url, one with an empty
    string and one with a JSON null. *)
Definition analyst_blank : job :=
  Job (Str (u "Data Analyst")) (Str (u "Acme")) (Str (u "Remote"))
      (Str (u "SQL and dashboards")) (List [Str (u "Data")]) (Str [])
      (Str (u "Not specified")) (Str (u "N/A")) (Str (u "Remotive")).
Definition analyst_null : job :=
  Job (Str (u "Data Analyst")) (Str (u "Acme")) (Str (u "Remote"))
      (Str (u "Dashboards and SQL")) (List [Str (u "Data")]) NoneValue
      (Str (u "Not specified")) (Str (u "N/A")) (Str (u "Jobicy")).

(** One job kept, then two records that share a url with each other and
    the title and company with the first; then another job. *)
Definition engineer_first : job :=
  Job (Str (u "Engineer")) (Str (u "Initech")) (Str (u "Remote")) (Str []) (List [])
      (Str (u "https://a.example/1")) (Str (u "Not specified")) (Str (u "N/A"))
      (Str (u "RemoteOK")).
Definition engineer_second : job :=
  Job (Str (u "Engineer")) (Str (u "Initech")) (Str (u "Remote")) (Str []) (List [])
      (Str (u "https://b.example/7")) (Str (u "Not specified")) (Str (u "N/A"))
      (Str (u "Remotive")).


Lemma blank_records_dropped `{Casing} :
  remove_duplicates [analyst_blank; analyst_null] = Ok [].
Proof. reflexivity. Qed.






(** A record as Remotive's answer gives it when the title is null. *)
Definition untitled : job :=
  Job NoneValue (Str (u "Acme")) (Str (u "Worldwide")) (Str (u "We are hiring."))
      (List [Str (u "Software Development")]) (Str (u "https://remotive.com/remote-jobs/1"))
      (Str (u "Not specified")) (Str (u "2025-01-05T10:00:00")) (Str (u "Remotive")).

(** Every request is answered, and one answer holds that record. *)
Definition null_title_web : Web := {|
  fetch_jobspy := fun _ => Ok [];
  fetch_remoteok := fun _ => Ok [];
  fetch_remotive := fun _ => Ok [untitled];
  fetch_jobicy := fun _ => Ok [];
  fetch_arbeitnow := fun _ => Ok [];
  fetch_himalayas := fun _ => Ok [];
  fetch_weworkremotely := fun _ => Ok []
|}.



(** A web where three sources fail, each in its own way, and the others
    answer with string records. *)
Definition failing_web : Web := {|
  fetch_jobspy := fun _ => Raise (Exception "ImportError: No module named jobspy");
  fetch_remoteok := fun _ => Ok [engineer_first];
  fetch_remotive := fun _ => Raise (Exception "ReadTimeout");
  fetch_jobicy := fun _ => Ok [engineer_second];
  fetch_arbeitnow := fun _ => Raise (Exception "JSONDecodeError");
  fetch_himalayas := fun _ => Ok [];
  fetch_weworkremotely := fun _ => Ok [analyst_null]
|}.


Lemma C9_failure_isolation_example :
  scrape_all (H := ascii_casing) failing_web None = Ok [engineer_first]
  /\ scrape_all (H := ascii_casing) null_title_web None
     = Raise (Exception "AttributeError: 'NoneType' object has no attribute 'lower'").
Proof. split; vm_compute; reflexivity. Qed.

End AggregatorClaims.

(** ** Rounding and clamping *)

Section NumFacts.
Import Num.
Local Open Scope Q_scope.

Lemma Qmin_cases x y : (x <= y /\ Qmin x y = x) \/ (y <= x /\ Qmin x y = y).
Proof.
  unfold Qmin, GenericMinMax.gmin. destruct (x ?= y) eqn:E.
  - left. split; [|done]. apply Qeq_alt in E. rewrite E. apply Qle_refl.
  - left. split; [|done]. apply Qlt_alt in E. by apply Qlt_le_weak.
  - right. split; [|done]. apply Qgt_alt in E. by apply Qlt_le_weak.
Qed.

Lemma Qmax_cases x y : (y <= x /\ Qmax x y = x) \/ (x <= y /\ Qmax x y = y).
Proof.
  unfold Qmax, GenericMinMax.gmax. destruct (x ?= y) eqn:E.
  - left. split; [|done]. apply Qeq_alt in E. rewrite E. apply Qle_refl.
  - right. split; [|done]. apply Qlt_alt in E. by apply Qlt_le_weak.
  - left. split; [|done]. apply Qgt_alt in E. by apply Qlt_le_weak.
Qed.

Lemma round_half_even_near q :
  (Qfloor q <= round_half_even q <= Qfloor q + 1)%Z.
Proof.
  unfold round_half_even. destruct (_ ?= _); [destruct (Z.even _)|..]; lia.
Qed.

Lemma round_half_even_Z z : round_half_even (inject_Z z) = z.
Proof.
  unfold round_half_even. rewrite Qfloor_Z.
  destruct (Qcompare_spec (inject_Z z - inject_Z z) (1 # 2)) as [E|_|E]; [|done|]; lra.
Qed.

Lemma round_half_even_comp q q' : q == q' -> round_half_even q = round_half_even q'.
Proof.
  intros E. unfold round_half_even.
  rewrite (Qfloor_comp _ _ E).
  assert (q - inject_Z (Qfloor q') == q' - inject_Z (Qfloor q')) as E' by (rewrite E; reflexivity).
  by rewrite (Qcompare_comp _ _ E' (1#2) (1#2) (Qeq_refl _)).
Qed.

Lemma round2_comp q q' : q == q' -> round2 q = round2 q'.
Proof.
  intros E. unfold round2.
  assert (q * 100 == q' * 100) as E' by (rewrite E; reflexivity).
  by rewrite (round_half_even_comp _ _ E').
Qed.

Lemma round_half_even_bounds q (lo hi : Z) :
  inject_Z lo <= q -> q <= inject_Z hi -> (lo <= round_half_even q <= hi)%Z.
Proof.
  intros Hlo Hhi.
  pose proof (round_half_even_near q) as [Hn1 Hn2].
  pose proof (Qfloor_resp_le _ _ Hlo) as Hf1. rewrite Qfloor_Z in Hf1.
  pose proof (Qfloor_resp_le _ _ Hhi) as Hf2. rewrite Qfloor_Z in Hf2.
  split; [lia|].
  destruct (Z.eq_dec (Qfloor q) hi) as [E|NE]; [|lia].
  (* the floor is already [hi], so [q] is the integer [hi] *)
  assert (q == inject_Z hi) as Eq.
  { apply Qle_antisym; [done|]. rewrite <- E. apply Qfloor_le. }
  rewrite (round_half_even_comp _ _ Eq), round_half_even_Z. lia.
Qed.

Lemma round2_bounds q : 0 <= q -> q <= 100 -> 0 <= round2 q /\ round2 q <= 100.
Proof.
  intros H0 H100. unfold round2.
  destruct (round_half_even_bounds (q * 100) 0 10000) as [Hz1 Hz2].
  - change (inject_Z 0) with 0. nra.
  - change (inject_Z 10000) with 10000. nra.
  - set (z := round_half_even (q * 100)) in *.
    assert (0 <= inject_Z z) by (change 0 with (inject_Z 0); by rewrite <- Zle_Qle).
    assert (inject_Z z <= 10000) by (change 10000 with (inject_Z 10000); by rewrite <- Zle_Qle).
    split.
    + apply Qle_shift_div_l; [reflexivity|]. lra.
    + apply Qle_shift_div_r; [reflexivity|]. lra.
Qed.
End NumFacts.

(** ** The scorer *)

Section MatcherFacts.
Import Py Matcher Num.
Context `{Vectorizer}.
Variable cv : cv_data.
Local Open Scope Q_scope.

(** [clamp(x, lo, hi)] of the specification. *)
Definition clamp (x lo hi : Q) : Q := Qmax lo (Qmin x hi).

Lemma tfidf_nonneg j : 0 <= tfidf_score cv j.
Proof.
  unfold tfidf_score. destruct (cosine _ _) as [c|e] eqn:E; [|lra].
  apply cosine_nonneg in E. lra.
Qed.

Lemma skill_score_bounds j : 0 <= skill_score cv j /\ skill_score cv j <= 100.
Proof.
  unfold skill_score.
  set (m := inject_Z (Z.of_nat (skill_matches cv j))).
  set (n := inject_Z (Z.of_nat (Nat.max (size (cv_skills cv)) 1))).
  assert (0 <= m) as Hm.
  { unfold m. change 0 with (inject_Z 0). rewrite <- Zle_Qle. lia. }
  assert (0 < n) as Hn.
  { unfold n. change 0 with (inject_Z 0). rewrite <- Zlt_Qlt. lia. }
  assert (0 <= m / n) as Hq by (apply Qle_shift_div_l; [done|lra]).
  destruct (Qmin_cases (m / n * 150) 100) as [[? ->]|[? ->]]; split; lra.
Qed.

Lemma foldl_grows {A} (f : Z -> A -> Z) (xs : list A) :
  (forall b x, (b <= f b x)%Z) -> forall acc, (acc <= foldl f acc xs)%Z.
Proof.
  intros Hf. induction xs as [|x xs IH]; intros acc; simpl; [lia|].
  specialize (IH (f acc x)). specialize (Hf acc x). lia.
Qed.

Lemma adjacency_bonus_nonneg j : (0 <= adjacency_bonus cv j)%Z.
Proof.
  unfold adjacency_bonus. apply foldl_grows.
  intros b [role_type adjacent_list]. case_match; lia.
Qed.

Lemma title_bonus_nonneg j : (0 <= title_bonus cv j)%Z.
Proof. unfold title_bonus. apply foldl_grows. intros b kw. case_match; lia. Qed.

Lemma exp_multiplier_pos e s y : 0 < exp_multiplier e s y.
Proof. unfold exp_multiplier. repeat case_match; reflexivity. Qed.

Lemma base_score_nonneg j : 0 <= base_score cv j.
Proof.
  unfold base_score.
  pose proof (tfidf_nonneg j). pose proof (skill_score_bounds j) as [? _].
  pose proof (adjacency_bonus_nonneg j) as Ha. pose proof (title_bonus_nonneg j) as Ht.
  rewrite Zle_Qle in Ha, Ht. change (inject_Z 0) with 0 in *. lra.
Qed.

Lemma scaled_nonneg j : 0 <= base_score cv j * multiplier_of cv j.
Proof.
  pose proof (base_score_nonneg j). pose proof (exp_multiplier_pos
    (any_in entry_keywords (lower (Title j))) (any_in senior_keywords (lower (Title j)))
    (years_experience cv)).
  unfold multiplier_of. nra.
Qed.

Lemma final_score_bounds j : 0 <= final_score cv j /\ final_score cv j <= 100.
Proof.
  unfold final_score. pose proof (scaled_nonneg j).
  apply round2_bounds;
    destruct (Qmin_cases (base_score cv j * multiplier_of cv j) 100) as [[? ->]|[? ->]]; lra.
Qed.

Lemma final_score_clamp j :
  final_score cv j = round2 (clamp (base_score cv j * multiplier_of cv j) 0 100).
Proof.
  unfold final_score, clamp. apply round2_comp.
  pose proof (scaled_nonneg j).
  destruct (Qmin_cases (base_score cv j * multiplier_of cv j) 100) as [[? E]|[? E]];
    rewrite E; symmetry; apply Q.max_r; lra.
Qed.

End MatcherFacts.

Section ScorerClaims.
Import Py Matcher Num.
Local Open Scope Q_scope.

(** A profile with four years of experience and a junior opening. *)
Definition four_years : cv_data :=
  CV (strs ["python"; "sql"]) (u "Python developer, 2022-2026") 4.
Definition junior_opening : listing :=
  Listing (u "Junior Developer") (u "Acme") (u "Remote") (u "Python and SQL")
          (u "https://a.example/1") (u "Not specified") (u "N/A") (u "RemoteOK").



(** The formula on the junior opening: two of two skills found, one
    title keyword shared, and the factor 1.1. *)
Lemma C5_score_example :
  (@final_score Sorts.disjoint_vectorizer four_years junior_opening == 528 # 10)%Q.
Proof. vm_compute. reflexivity. Qed.

End ScorerClaims.

(** ** The stages of the filter *)

Section FilterFacts.
Import Py Filter.
Context `{Calendar} `{FrameSort}.
Variable possessive : bool.
Local Open Scope Q_scope.

(** Every score of the frame lies between [lo] and [hi]. *)
Definition scores_in (lo hi : Q) (df : list row) : Prop :=
  Forall (fun r => lo <= Match_Score r /\ Match_Score r <= hi) df.

Lemma scores_in_filter lo hi (P : row -> Prop) `{!forall r, Decision (P r)} df :
  scores_in lo hi df -> scores_in lo hi (filter P df).
Proof.
  unfold scores_in. rewrite !Forall_forall. intros Hdf r Hr.
  apply list_elem_of_filter in Hr as [_ Hr]. by apply Hdf.
Qed.

Lemma scores_in_perm lo hi df df' :
  Permutation df df' -> scores_in lo hi df -> scores_in lo hi df'.
Proof. intros Hp. unfold scores_in. by rewrite Hp. Qed.

Lemma scores_in_take lo hi n df : scores_in lo hi df -> scores_in lo hi (take n df).
Proof. apply Forall_take. Qed.

Lemma scores_in_weaken lo hi lo' hi' df :
  lo' <= lo -> hi <= hi' -> scores_in lo hi df -> scores_in lo' hi' df.
Proof.
  intros Hlo Hhi. unfold scores_in. rewrite !Forall_forall.
  intros Hdf r Hr. destruct (Hdf r Hr). split; lra.
Qed.

(** The scores after a row-wise update of the frame. *)
Lemma scores_in_map lo hi lo' hi' (f : row -> row) df :
  (forall r, lo <= Match_Score r /\ Match_Score r <= hi ->
             lo' <= Match_Score (f r) /\ Match_Score (f r) <= hi') ->
  scores_in lo hi df -> scores_in lo' hi' (map f df).
Proof.
  intros Hf. unfold scores_in. rewrite !Forall_forall.
  intros Hdf r' Hr'. apply list_elem_of_fmap in Hr' as (r & -> & Hr).
  apply Hf, Hdf, Hr.
Qed.

(** *** The fixed patterns of the location stage compile *)

Lemma fixed_patterns_compile p :
  p ∈ [us_state_pattern; us_country_pattern; join (u "|") worldwide_keywords;
       join (u "|") usa_keywords] ->
  exists f, str_contains possessive p = Ok f.
Proof.
  rewrite !elem_of_cons, elem_of_nil. unfold str_contains.
  intros [->|[->|[->|[->|[]]]]];
    (assert (exists r ng, Re.compile possessive _ = Ok (r, ng)) as (r & ng & ->)
       by (destruct possessive; vm_compute; eauto)); simpl; eauto.
Qed.

(** *** The boost *)

Lemma clip_upper_length df : length (clip_upper df) = length df.
Proof. unfold clip_upper. by rewrite length_map. Qed.

Lemma clip_upper_scores lo hi df :
  lo <= 100 -> scores_in lo hi df -> scores_in lo 100 (clip_upper df).
Proof.
  intros Hlo. unfold clip_upper. apply scores_in_map. intros r [? ?]. simpl.
  destruct (Qmin_cases (Match_Score r) 100) as [[? ->]|[? ->]]; split; lra.
Qed.

Lemma keyword_boost_spec search_keywords df df' :
  keyword_boost possessive search_keywords df = Ok df' ->
  length df' = length df
  /\ (scores_in 0 100 df -> scores_in 0 100 df').
Proof.
  unfold keyword_boost. destruct search_keywords as [[|k ks]|]; try (by intros [= <-]).
  destruct (truthy _); [|by intros [= <-]].
  destruct (str_contains possessive _) as [f|e]; simpl; [|done].
  intros [= <-]. split.
  - by rewrite clip_upper_length, length_map.
  - intros Hdf. apply (clip_upper_scores 0 125); [lra|].
    revert Hdf. apply scores_in_map. intros r [? ?].
    repeat case_match; simpl; split; lra.
Qed.

(** *** The exclusion *)

Lemma exclude_step_spec df kw df' :
  exclude_step possessive df kw = Ok df' ->
  exists (P : row -> Prop) (D : forall r, Decision (P r)), df' = filter P df.
Proof.
  unfold exclude_step. destruct (truthy _).
  - destruct (str_contains possessive _) as [f|e]; simpl; [|done].
    intros [= <-]. eauto.
  - intros [= <-]. exists (fun _ => True), _. symmetry.
    induction df as [|r df IH]; [done|]. rewrite filter_cons_True; [|done]. by rewrite IH.
Qed.

Lemma exclude_loop_scores lo hi kws : forall df df',
  exclude_loop possessive df kws = Ok df' -> scores_in lo hi df -> scores_in lo hi df'.
Proof.
  induction kws as [|kw kws IH]; intros df df'; simpl; [by intros [= <-]|].
  destruct (exclude_step possessive df kw) as [df1|e] eqn:E; simpl; [|done].
  intros Hloop Hdf. apply (IH _ _ Hloop).
  destruct (exclude_step_spec _ _ _ E) as (P & D & ->). by apply scores_in_filter.
Qed.

Lemma exclude_scores lo hi ek df df' :
  exclude possessive ek df = Ok df' -> scores_in lo hi df -> scores_in lo hi df'.
Proof.
  destruct ek as [kws|]; simpl; [apply exclude_loop_scores | by intros [= <-]].
Qed.

(** *** Recency *)

Lemma with_days_scores lo hi df : scores_in lo hi df -> scores_in lo hi (with_days df).
Proof. unfold with_days. apply scores_in_map. by intros r [? ?]. Qed.

Lemma recency_scores lo hi max_days df :
  scores_in lo hi df -> scores_in lo hi (recency max_days df).
Proof.
  intros Hdf. unfold recency. apply with_days_scores in Hdf.
  case_match; by apply scores_in_filter.
Qed.

(** *** The score filter *)

Lemma nlargest_length n df : length (nlargest n df) = Nat.min n (length df).
Proof.
  unfold nlargest. rewrite length_take.
  by rewrite <- (Permutation_length (sort_values_perm df)).
Qed.

Lemma nlargest_scores lo hi n df : scores_in lo hi df -> scores_in lo hi (nlargest n df).
Proof.
  intros Hdf. unfold nlargest. apply scores_in_take.
  by apply (scores_in_perm _ _ _ _ (sort_values_perm df)).
Qed.

Lemma score_filter_scores lo hi min_score df :
  scores_in lo hi df -> scores_in lo hi (score_filter min_score df).
Proof.
  intros Hdf. unfold score_filter.
  repeat case_match; (by apply scores_in_filter) || (by apply nlargest_scores).
Qed.

Lemma score_filter_length min_score df :
  (5 <= length df)%nat -> (5 <= length (score_filter min_score df))%nat.
Proof.
  intros Hlen. unfold score_filter.
  repeat match goal with
  | |- context [if ?n <? 5 then _ else _] => destruct (Nat.ltb_spec n 5)
  end; try lia; rewrite nlargest_length; lia.
Qed.

(** *** The location stage *)

Lemma worldwide_adjust_score f1 f2 f3 r :
  Match_Score r - 40 <= Match_Score (worldwide_adjust f1 f2 f3 r)
  /\ Match_Score (worldwide_adjust f1 f2 f3 r) <= Match_Score r + 30.
Proof. unfold worldwide_adjust. repeat case_match; simpl; split; lra. Qed.

Lemma us_state_compiles : exists f, str_contains possessive us_state_pattern = Ok f.
Proof. apply fixed_patterns_compile. apply list_elem_of_here. Qed.

Lemma us_country_compiles : exists f, str_contains possessive us_country_pattern = Ok f.
Proof.
  apply fixed_patterns_compile. apply list_elem_of_further, list_elem_of_here.
Qed.

Lemma worldwide_compiles :
  exists f, str_contains possessive (join (u "|") worldwide_keywords) = Ok f.
Proof.
  apply fixed_patterns_compile.
  apply list_elem_of_further, list_elem_of_further, list_elem_of_here.
Qed.

Lemma usa_compiles :
  exists f, str_contains possessive (join (u "|") usa_keywords) = Ok f.
Proof.
  apply fixed_patterns_compile.
  apply list_elem_of_further, list_elem_of_further, list_elem_of_further, list_elem_of_here.
Qed.

Lemma location_filter_spec remote_type df :
  exists out,
    location_filter possessive remote_type df = Ok out
    /\ ((5 <= length df)%nat -> (5 <= length out)%nat)
    /\ (forall lo hi, scores_in lo hi df -> scores_in (lo - 40) (hi + 30) out).
Proof.
  unfold location_filter.
  destruct (bool_decide (remote_type ∈ strs ["Worldwide Remote (Anywhere)";
                                             "Worldwide (Anywhere)"])).
  - destruct us_state_compiles as [f1 ->]. destruct us_country_compiles as [f2 ->].
    destruct worldwide_compiles as [f3 ->].
    cbn [bind]. eexists. split; [reflexivity|]. split.
    + by rewrite length_map.
    + intros lo hi. apply scores_in_map. intros r [? ?].
      pose proof (worldwide_adjust_score f1 f2 f3 r) as [? ?]. split; lra.
  - destruct (bool_decide (remote_type ∈ strs ["USA Remote Only"; "USA Only"])).
    + destruct usa_compiles as [f ->].
      cbn [bind]. eexists. split; [reflexivity|]. split.
      * intros Hlen. destruct (Nat.leb_spec 5 (length (filter
          (fun r => f (lower (Location (job r)))) df))); lia.
      * intros lo hi Hdf. apply (scores_in_weaken lo hi); [lra..|].
        destruct (5 <=? _)%nat; [by apply scores_in_filter | done].
    + eexists. split; [reflexivity|]. split; [done|].
      intros lo hi Hdf. apply (scores_in_weaken lo hi); [lra..|done].
Qed.

End FilterFacts.

(** ** The pipeline of the filter *)

Section FilterPipeline.
Import Py Filter.
Context `{Calendar} `{FrameSort}.
Variable possessive : bool.
Local Open Scope Q_scope.

Lemma exclude_loop_length kws : forall df df',
  exclude_loop possessive df kws = Ok df' -> (length df' <= length df)%nat.
Proof.
  induction kws as [|kw kws IH]; intros df df'; simpl; [by intros [= <-]|].
  destruct (exclude_step possessive df kw) as [df1|e] eqn:E; simpl; [|done].
  intros Hloop. apply IH in Hloop.
  destruct (exclude_step_spec _ _ _ _ E) as (P & D & ->).
  pose proof (length_filter P df). lia.
Qed.

Lemma exclude_length ek df df' :
  exclude possessive ek df = Ok df' -> (length df' <= length df)%nat.
Proof.
  destruct ek as [kws|]; simpl; [apply exclude_loop_length | by intros [= <-]].
Qed.

Lemma with_days_length df : length (with_days df) = length df.
Proof. unfold with_days. by rewrite length_map. Qed.

Lemma recency_length max_days df : (length (recency max_days df) <= length df)%nat.
Proof.
  unfold recency. rewrite <- (with_days_length df).
  case_match; apply length_filter.
Qed.

(** The frame handed to the sort, when the stages before it succeed and
    leave a row. *)
Lemma apply_all_filters_stages remote_type r rs max_days min_score ek sk boosted kept :
  keyword_boost possessive sk (r :: rs) = Ok boosted ->
  exclude possessive ek boosted = Ok kept ->
  kept <> [] ->
  exists located,
    location_filter possessive remote_type
      (score_filter min_score (recency max_days kept)) = Ok located
    /\ apply_all_filters possessive remote_type (r :: rs) max_days min_score ek sk
       = Ok (sort_values_desc (clip_upper located)).
Proof.
  intros Hb He Hne.
  destruct (location_filter_spec possessive remote_type
              (score_filter min_score (recency max_days kept))) as (located & Hl & _).
  exists located. split; [done|].
  unfold apply_all_filters. rewrite Hb. cbn [bind]. rewrite He. cbn [bind].
  destruct kept; [done|]. cbn [dt_accessor bind].
  rewrite Hl. reflexivity.
Qed.

(** When every row is excluded the frame that reaches the recency stage
    has no row, and the stage raises. *)
Lemma apply_all_filters_emptied remote_type r rs max_days min_score ek sk boosted :
  keyword_boost possessive sk (r :: rs) = Ok boosted ->
  exclude possessive ek boosted = Ok [] ->
  exists e, apply_all_filters possessive remote_type (r :: rs) max_days min_score ek sk
            = Raise e.
Proof.
  intros Hb He. unfold apply_all_filters. rewrite Hb. cbn [bind]. rewrite He.
  cbn [bind dt_accessor]. by eauto.
Qed.

Lemma apply_all_filters_cases remote_type df max_days min_score ek sk out :
  apply_all_filters possessive remote_type df max_days min_score ek sk = Ok out ->
  (df = [] /\ out = [])
  \/ exists r rs boosted kept located,
       df = r :: rs
       /\ keyword_boost possessive sk df = Ok boosted
       /\ exclude possessive ek boosted = Ok kept
       /\ location_filter possessive remote_type
            (score_filter min_score (recency max_days kept)) = Ok located
       /\ out = sort_values_desc (clip_upper located).
Proof.
  destruct df as [|r rs]; [intros [= <-]; by left|].
  intros Happ. right.
  destruct (keyword_boost possessive sk (r :: rs)) as [boosted|e] eqn:Hb.
  2: { unfold apply_all_filters in Happ. rewrite Hb in Happ. done. }
  destruct (exclude possessive ek boosted) as [kept|e] eqn:He.
  2: { unfold apply_all_filters in Happ. rewrite Hb in Happ. cbn [bind] in Happ.
       rewrite He in Happ. done. }
  destruct kept as [|k kept'].
  { destruct (apply_all_filters_emptied remote_type r rs max_days min_score ek sk _ Hb He)
      as [e E]. congruence. }
  destruct (apply_all_filters_stages remote_type r rs max_days min_score ek sk _ _ Hb He)
    as (located & Hl & E); [done|].
  rewrite E in Happ. injection Happ as <-.
  exists r, rs, boosted, (k :: kept'), located. done.
Qed.

Lemma score_ge_trans : Transitive score_ge.
Proof. intros a b c. unfold score_ge. intros ? ?. lra. Qed.

End FilterPipeline.

Section FilterTheorems.
Import Py Filter.
Local Open Scope Q_scope.

(** C3: whenever at least 5 jobs come out of the recency stage,
    [apply_all_filters] returns, and returns at least 5 jobs, whatever
    [min_score] and the location preference are: the score cascade ends in
    the top [min(20, n)] by score, and the location stage either keeps
    every row or restricts to the USA rows only when there are 5 of
    them. *)
Theorem C3_at_least_five :
  forall (C : Calendar) (S : FrameSort) (possessive : bool) (remote_type : str)
         (jobs_df : list row) (max_days : Z) (min_score : Q)
         (exclude_keywords search_keywords : option (list str))
         (boosted kept : list row),
    keyword_boost possessive search_keywords jobs_df = Ok boosted ->
    exclude possessive exclude_keywords boosted = Ok kept ->
    (5 <= length (recency max_days kept))%nat ->
    exists out,
      apply_all_filters possessive remote_type jobs_df max_days min_score
        exclude_keywords search_keywords = Ok out
      /\ (5 <= length out)%nat.
Proof.
  intros C S possessive remote_type jobs_df max_days min_score ek sk boosted kept
    Hb He Hlen.
  destruct jobs_df as [|r rs].
  { apply keyword_boost_spec in Hb as [Hb _]. apply exclude_length in He.
    pose proof (recency_length max_days kept). simpl in Hb. lia. }
  destruct (location_filter_spec possessive remote_type
              (score_filter min_score (recency max_days kept)))
    as (located & Hl & Hfive & _).
  destruct (apply_all_filters_stages possessive remote_type r rs max_days min_score
              ek sk _ _ Hb He) as (located' & Hl' & E).
  { intros ->. pose proof (recency_length max_days []). simpl in *. lia. }
  rewrite Hl in Hl'. injection Hl' as <-.
  eexists. split; [exact E|].
  rewrite <- (Permutation_length (sort_values_perm _)), clip_upper_length.
  apply Hfive. by apply score_filter_length.
Qed.

(** C6, amended: the last two steps of [apply_all_filters] cap every
    score at 100 and sort: the list returned is in descending order of
    [Match Score] (every row scores at least as much as every row after
    it) and holds no score above 100, whatever the scores of the input.
    Rows of equal score do not in general keep their order in the input:
    the top-rows fallback of the score stage orders rows by the score
    they have then, before the location stage changes it. *)
Theorem C6_sorted_descending :
  forall (C : Calendar) (S : FrameSort) (possessive : bool) (remote_type : str)
         (jobs_df : list row) (max_days : Z) (min_score : Q)
         (exclude_keywords search_keywords : option (list str)) (out : list row),
    apply_all_filters possessive remote_type jobs_df max_days min_score
      exclude_keywords search_keywords = Ok out ->
    StronglySorted score_ge out
    /\ Forall (fun r => Match_Score r <= 100) out.
Proof.
  intros C S possessive remote_type jobs_df max_days min_score ek sk out Happ.
  apply apply_all_filters_cases in Happ
    as [[_ ->]|(r & rs & boosted & kept & located & _ & _ & _ & _ & ->)];
    [split; constructor|].
  split.
  - apply Sorted_StronglySorted; [apply score_ge_trans | apply sort_values_sorted].
  - rewrite <- (sort_values_perm _). unfold clip_upper.
    rewrite Forall_forall. intros r' Hr'.
    apply list_elem_of_fmap in Hr' as (r0 & -> & _). cbn [Match_Score set_score].
    apply Q.le_min_r.
Qed.

(** C2, amended: the scorer's result lies in [0, 100]; the keyword boost
    keeps scores in [0, 100]; and the rows [apply_all_filters] returns,
    given scores in [0, 100], have scores in [-40, 100]: the final clip
    bounds them above only, so the penalty of 40 can leave a score
    negative. *)
Theorem C2_score_bounds :
  (forall (V : Matcher.Vectorizer) (cv : Matcher.cv_data) (j : listing),
     0 <= Matcher.final_score cv j /\ Matcher.final_score cv j <= 100)
  /\ (forall (possessive : bool) (search_keywords : option (list str))
             (jobs_df boosted : list row),
        scores_in 0 100 jobs_df ->
        keyword_boost possessive search_keywords jobs_df = Ok boosted ->
        scores_in 0 100 boosted)
  /\ (forall (C : Calendar) (S : FrameSort) (possessive : bool) (remote_type : str)
             (jobs_df : list row) (max_days : Z) (min_score : Q)
             (exclude_keywords search_keywords : option (list str)) (out : list row),
        scores_in 0 100 jobs_df ->
        apply_all_filters possessive remote_type jobs_df max_days min_score
          exclude_keywords search_keywords = Ok out ->
        scores_in (-40) 100 out).
Proof.
  split; [intros; apply final_score_bounds|]. split.
  - intros possessive sk df boosted Hdf Hb. by apply (keyword_boost_spec _ _ _ _ Hb).
  - intros C S possessive remote_type df max_days min_score ek sk out Hdf Happ.
    apply apply_all_filters_cases in Happ
      as [[_ ->]|(r & rs & boosted & kept & located & _ & Hb & He & Hl & ->)].
    { constructor. }
    apply (scores_in_perm _ _ _ _ (sort_values_perm _)).
    apply (clip_upper_scores (-40) 130); [lra|].
    destruct (location_filter_spec possessive remote_type
                (score_filter min_score (recency max_days kept)))
      as (located' & Hl' & _ & Hsc).
    rewrite Hl in Hl'. injection Hl' as <-.
    apply (scores_in_weaken (0 - 40) (100 + 30)); [lra..|].
    apply Hsc, score_filter_scores, recency_scores.
    apply (exclude_scores _ _ _ _ _ _ He).
    by apply (keyword_boost_spec _ _ _ _ Hb).
Qed.

End FilterTheorems.

(** ** Small frames and the location stage *)

Section LocationFacts.
Import Py Filter.
Context `{Calendar} `{FrameSort}.
Variable possessive : bool.
Local Open Scope Q_scope.

Lemma str_contains_apply pattern f text :
  str_contains possessive pattern = Ok f ->
  Re.contains possessive pattern text = Ok (f text).
Proof.
  unfold str_contains, Re.contains.
  destruct (Re.compile possessive pattern) as [[r ng]|e]; simpl; [|done].
  by intros [= <-].
Qed.

Lemma str_contains_value pattern f text b :
  str_contains possessive pattern = Ok f ->
  Re.contains possessive pattern text = Ok b ->
  f text = b.
Proof.
  intros Hf Hb. rewrite (str_contains_apply _ _ _ Hf) in Hb. by injection Hb.
Qed.

Lemma filter_all {A} (P : A -> Prop) `{!forall x, Decision (P x)} (l : list A) :
  Forall P l -> filter P l = l.
Proof.
  induction 1 as [|x l Hx _ IH]; [done|].
  rewrite filter_cons_True; [|done]. by rewrite IH.
Qed.

(** A frame of fewer than 20 rows posted within 45 days passes the
    recency stage whole. *)
Lemma recency_all_recent max_days df :
  (length df < 20)%nat ->
  Forall (fun r => (days (now - parse_date (Posted (job r))) <= 45)%Z) df ->
  recency max_days df = with_days df.
Proof.
  intros Hlen Hall. unfold recency.
  pose proof (length_filter (fun r => within max_days r) (with_days df)) as Hle.
  rewrite with_days_length in Hle.
  destruct (Nat.ltb_spec (length (filter (fun r => within max_days r) (with_days df))) 20);
    [|lia].
  apply filter_all. unfold with_days. apply List.Forall_map.
  rewrite Forall_forall in Hall |- *. intros r Hr. specialize (Hall r Hr).
  unfold within. simpl. apply Is_true_true. by apply Z.leb_le.
Qed.

(** On fewer than 5 rows the score filter is the sort. *)
Lemma score_filter_small min_score df :
  (length df < 5)%nat -> score_filter min_score df = sort_values_desc df.
Proof.
  intros Hlen. unfold score_filter.
  repeat match goal with
  | |- context [if length (filter ?P df) <? 5 then _ else _] =>
      let Hf := fresh in
      pose proof (length_filter P df) as Hf;
      destruct (Nat.ltb_spec (length (filter P df)) 5); [clear Hf|lia]
  end.
  unfold nlargest. apply take_ge.
  rewrite <- (Permutation_length (sort_values_perm df)). lia.
Qed.

Lemma sort_pair x y :
  Match_Score y < Match_Score x ->
  sort_values_desc [x; y] = [x; y] /\ sort_values_desc [y; x] = [x; y].
Proof.
  intros Hlt. split.
  - pose proof (sort_values_perm [x; y]) as Hp. pose proof (sort_values_sorted [x; y]) as Hs.
    apply Permutation_length_2_inv in Hp as [E|E]; [done|].
    rewrite E in Hs. inversion Hs as [|? ? _ Hd]; subst.
    inversion Hd as [|? ? Hge]; subst. unfold score_ge in Hge. lra.
  - pose proof (sort_values_perm [y; x]) as Hp. pose proof (sort_values_sorted [y; x]) as Hs.
    apply Permutation_length_2_inv in Hp as [E|E]; [|done].
    rewrite E in Hs. inversion Hs as [|? ? _ Hd]; subst.
    inversion Hd as [|? ? Hge]; subst. unfold score_ge in Hge. lra.
Qed.

End LocationFacts.

(** ** The location preference *)

Section LocationClaim.
Import Py Filter.
Local Open Scope Q_scope.

(** The row [r] with its location replaced. *)
Definition relocate (location : str) (r : row) : row :=
  Row (Listing (Title (job r)) (Company (job r)) location (Description (job r))
               (URL (job r)) (Salary (job r)) (Posted (job r)) (Source (job r)))
      (Match_Score r) (Match_Explanation r) (Skills_Matched r)
      (keyword_match r) (parsed_date r) (days_ago r).

Definition worldwide_only : str := u "Worldwide Remote (Anywhere)".
Definition new_york : str := u "New York, NY".
Definition remote_worldwide : str := u "Remote - Worldwide".

Lemma new_york_tests possessive :
  Re.contains possessive us_state_pattern (lower new_york) = Ok true
  /\ Re.contains possessive (join (u "|") worldwide_keywords) (lower new_york) = Ok false
  /\ bool_decide (strip (lower new_york) = u "remote") = false.
Proof. destruct possessive; repeat split; vm_compute; reflexivity. Qed.

Lemma remote_worldwide_tests possessive :
  Re.contains possessive (join (u "|") worldwide_keywords) (lower remote_worldwide)
  = Ok true.
Proof. destruct possessive; vm_compute; reflexivity. Qed.

Lemma worldwide_only_listed :
  bool_decide (worldwide_only ∈ strs ["Worldwide Remote (Anywhere)"; "Worldwide (Anywhere)"])
  = true.
Proof. apply bool_decide_eq_true_2. unfold strs. cbn [map]. apply list_elem_of_here. Qed.

Lemma worldwide_adjust_new_york f1 f2 f3 (r : row) :
  Location (job r) = new_york ->
  f1 (lower new_york) = true -> f3 (lower new_york) = false ->
  worldwide_adjust f1 f2 f3 r = set_score (Match_Score r - 40) r.
Proof.
  intros El E1 E3. unfold worldwide_adjust. rewrite El, E1, E3.
  destruct new_york_tests with (possessive := true) as (_ & _ & ->).
  reflexivity.
Qed.

Lemma worldwide_adjust_remote_worldwide f1 f2 f3 (r : row) :
  Location (job r) = remote_worldwide ->
  f3 (lower remote_worldwide) = true ->
  worldwide_adjust f1 f2 f3 r = set_score (Match_Score r + 30) r.
Proof.
  intros El E3. unfold worldwide_adjust. rewrite El, E3.
  by rewrite andb_false_r.
Qed.

(** A row as the recency stage dates it. *)
Definition dated `{Calendar} (r : row) : row :=
  Row (job r) (Match_Score r) (Match_Explanation r) (Skills_Matched r)
      (keyword_match r) (Some (parse_date (Posted (job r))))
      (Some (days (now - parse_date (Posted (job r))))).

(** A row after the penalty, and after the boost, and the final clip. *)
Definition penalized (r : row) : row :=
  set_score (Qmin (Match_Score r - 40) 100) (set_score (Match_Score r - 40) r).
Definition boosted_row (r : row) : row :=
  set_score (Qmin (Match_Score r + 30) 100) (set_score (Match_Score r + 30) r).

Lemma with_days_pair `{Calendar} (a b : row) : with_days [a; b] = [dated a; dated b].
Proof. reflexivity. Qed.

Lemma penalized_below_boosted (a b : row) :
  Match_Score a == Match_Score b -> Match_Score a <= 100 ->
  Match_Score (penalized a) < Match_Score (boosted_row b).
Proof.
  intros E Hs. unfold penalized, boosted_row, set_score. cbn [Match_Score].
  destruct (Qmin_cases (Match_Score a - 40) 100) as [[? ->]|[? ->]];
    destruct (Qmin_cases (Match_Score b + 30) 100) as [[? ->]|[? ->]]; lra.
Qed.

(** The stage, the clip and the sort on the two rows, in either order. *)
Lemma worldwide_pair_sorted `{FrameSort} f1 f2 f3 (a b : row) (l : list row) :
  Location (job a) = new_york -> Location (job b) = remote_worldwide ->
  f1 (lower new_york) = true -> f3 (lower new_york) = false ->
  f3 (lower remote_worldwide) = true ->
  Match_Score a == Match_Score b -> Match_Score a <= 100 ->
  Permutation [a; b] l ->
  sort_values_desc (clip_upper (map (worldwide_adjust f1 f2 f3) l))
  = [boosted_row b; penalized a].
Proof.
  intros La Lb F1 F3 G3 E Hs Hp.
  pose proof (penalized_below_boosted a b E Hs) as Hlt.
  apply Permutation_length_2_inv in Hp as [-> | ->]; cbn [map clip_upper];
    rewrite (worldwide_adjust_new_york f1 f2 f3 a La F1 F3),
            (worldwide_adjust_remote_worldwide f1 f2 f3 b Lb G3);
    by apply sort_pair.
Qed.

Lemma worldwide_stage `{Calendar} `{FrameSort} possessive (a b : row) (l : list row) :
  Location (job a) = new_york -> Location (job b) = remote_worldwide ->
  Match_Score a == Match_Score b -> Match_Score a <= 100 ->
  Permutation [a; b] l ->
  exists located,
    location_filter possessive worldwide_only l = Ok located
    /\ sort_values_desc (clip_upper located) = [boosted_row b; penalized a].
Proof.
  intros La Lb E Hs Hp.
  unfold location_filter. rewrite worldwide_only_listed.
  destruct (us_state_compiles possessive) as [f1 E1].
  destruct (us_country_compiles possessive) as [f2 E2].
  destruct (worldwide_compiles possessive) as [f3 E3].
  rewrite E1, E2, E3. cbn [bind]. eexists. split; [reflexivity|].
  destruct (new_york_tests possessive) as (T1 & T3 & _).
  apply worldwide_pair_sorted; try done.
  - exact (str_contains_value _ _ _ _ _ E1 T1).
  - exact (str_contains_value _ _ _ _ _ E3 T3).
  - exact (str_contains_value _ _ _ _ _ E3 (remote_worldwide_tests possessive)).
Qed.

(** C7, amended: under the worldwide preference, of two jobs that differ
    only in location and score [s <= 100] before the stage, the one in
    "New York, NY" ends at [s - 40] and the one in "Remote - Worldwide" at
    [min(s + 30, 100)], because the final clip caps the boosted score:
    the gap is [min(70, 140 - s)], which is 70 exactly when [s <= 70] and
    less above (never below 40). *)
Theorem C7_location_gap :
  forall (C : Calendar) (S : FrameSort) (possessive : bool) (r : row)
         (max_days : Z) (min_score : Q),
    Match_Score r <= 100 ->
    (days (now - parse_date (Posted (job r))) <= 45)%Z ->
    exists ww ny,
      apply_all_filters possessive worldwide_only
        [relocate new_york r; relocate remote_worldwide r] max_days min_score None None
      = Ok [ww; ny]
      /\ job ny = job (relocate new_york r)
      /\ job ww = job (relocate remote_worldwide r)
      /\ Match_Score ny == Match_Score r - 40
      /\ Match_Score ww == Qmin (Match_Score r + 30) 100
      /\ Match_Score ww - Match_Score ny == Qmin 70 (140 - Match_Score r).
Proof.
  intros C S possessive r max_days min_score Hs Hdays.
  set (a := relocate new_york r). set (b := relocate remote_worldwide r).
  destruct (apply_all_filters_stages possessive worldwide_only a [b] max_days min_score
              None None [a; b] [a; b] eq_refl eq_refl ltac:(discriminate))
    as (located & Hl & ->).
  rewrite recency_all_recent in Hl;
    [|simpl; lia | constructor; [exact Hdays | constructor; [exact Hdays | constructor]]].
  rewrite score_filter_small in Hl by (rewrite with_days_length; simpl; lia).
  rewrite with_days_pair in Hl.
  destruct (worldwide_stage possessive (dated a) (dated b)
              (sort_values_desc [dated a; dated b]))
    as (located' & Hl' & Hsort);
    [reflexivity | reflexivity | reflexivity | exact Hs | apply sort_values_perm |].
  rewrite Hl in Hl'. injection Hl' as <-.
  exists (boosted_row (dated b)), (penalized (dated a)).
  split; [by rewrite Hsort|].
  split; [reflexivity|]. split; [reflexivity|].
  assert (Match_Score (penalized (dated a)) == Match_Score r - 40) as Eny.
  { unfold penalized, set_score. cbn [Match_Score dated a relocate]. apply Q.min_l. lra. }
  assert (Match_Score (boosted_row (dated b)) == Qmin (Match_Score r + 30) 100) as Eww
    by reflexivity.
  split; [exact Eny|]. split; [exact Eww|].
  rewrite Eny, Eww.
  destruct (Qmin_cases (Match_Score r + 30) 100) as [[? ->]|[? ->]];
    [rewrite Q.min_l by lra | rewrite Q.min_r by lra]; lra.
Qed.

End LocationClaim.

(** ** The filter on concrete frames *)

Section FilterExamples.
Import Py Filter Sorts.
Local Open Scope Q_scope.

(** A scored posting of today. *)
Definition posting (title location : string) (score : Q) : row :=
  Row (Listing (u title) (u "Acme") (u location) (u "Python and SQL")
               (u "https://a.example/1") (u "Not specified") (u "N/A") (u "RemoteOK"))
      score [] 0 None None None.

Definition any_remote : str := u "Remote (All)".

(** The posting once the recency stage has dated it, under
    [stopped_calendar]. *)
Definition posting_dated (title location : string) (score : Q) : row :=
  Row (job (posting title location score)) score [] 0 None
      (Some (now (Calendar := stopped_calendar))) (Some 0%Z).

(** Five postings, all scored 60. *)
Definition five_ties : list row :=
  [posting "Analyst" "Lagos" 60; posting "Builder" "Berlin" 60;
   posting "Curator" "Lima" 60; posting "Designer" "Oslo" 60;
   posting "Editor" "Pune" 60].

(** One posting in New York with a low score. *)
Definition low_new_york : list row := [posting "Data Analyst" "New York, NY" 10].

(** C3 at work: five postings in, five out. *)
Lemma C3_at_least_five_witness :
  exists out,
    apply_all_filters (H := stopped_calendar) (H0 := stable_sort) true any_remote
      five_ties 14 50 None None = Ok out
    /\ (5 <= length out)%nat.
Proof.
  apply (C3_at_least_five stopped_calendar stable_sort true any_remote five_ties 14 50
           None None five_ties five_ties).
  - reflexivity.
  - reflexivity.
  - vm_compute. lia.
Defined.

Definition five_ties_out : list row :=
  Eval vm_compute in
    match apply_all_filters (H := stopped_calendar) (H0 := stable_sort) true any_remote
            five_ties 14 50 None None with
    | Ok out => out
    | Raise _ => []
    end.

(** C6 at work on the five postings. *)
Lemma C6_sorted_descending_witness :
  StronglySorted score_ge five_ties_out
  /\ Forall (fun r => Match_Score r <= 100) five_ties_out.
Proof.
  apply (C6_sorted_descending stopped_calendar stable_sort true any_remote five_ties 14 50
           None None five_ties_out).
  vm_compute. reflexivity.
Defined.

Definition low_new_york_out : list row :=
  Eval vm_compute in
    match apply_all_filters (H := stopped_calendar) (H0 := stable_sort) true worldwide_only
            low_new_york 14 50 None None with
    | Ok out => out
    | Raise _ => []
    end.

Lemma low_new_york_run :
  apply_all_filters (H := stopped_calendar) (H0 := stable_sort) true worldwide_only
    low_new_york 14 50 None None = Ok low_new_york_out.
Proof. vm_compute. reflexivity. Qed.

Lemma low_new_york_scores : scores_in 0 100 low_new_york.
Proof. repeat constructor; vm_compute; discriminate. Qed.

(** C2 at work: the posting scored 10 in New York comes out within
    [-40, 100]. *)
Lemma C2_score_bounds_witness : scores_in (-40) 100 low_new_york_out.
Proof.
  apply (proj2 (proj2 C2_score_bounds) stopped_calendar stable_sort true worldwide_only
           low_new_york 14%Z 50 None None low_new_york_out).
  - repeat constructor; vm_compute; discriminate.
  - vm_compute. reflexivity.
Defined.

(** C2, as stated, fails: a job scored 10 by the scorer and located in
    "New York, NY" leaves the filter, under the worldwide preference, with
    the score -30. *)
Lemma C2_negative_score_refuted :
  ~ (forall (C : Calendar) (S : FrameSort) (possessive : bool) (remote_type : str)
            (jobs_df : list row) (max_days : Z) (min_score : Q)
            (exclude_keywords search_keywords : option (list str)) (out : list row),
       scores_in 0 100 jobs_df ->
       apply_all_filters possessive remote_type jobs_df max_days min_score
         exclude_keywords search_keywords = Ok out ->
       scores_in 0 100 out).
Proof.
  intros Hclaim.
  specialize (Hclaim stopped_calendar stable_sort true worldwide_only low_new_york 14%Z 50
                None None low_new_york_out low_new_york_scores low_new_york_run).
  apply Forall_cons_1 in Hclaim as [[Hneg _] _].
  vm_compute in Hneg. by apply Hneg.
Qed.

(** Two postings without a date: an analyst's, scored 40 and located
    "Remote", and a builder's, scored 70 in Berlin. *)
Definition remote_analyst : row := posting "Analyst" "Remote" 40.
Definition berlin_builder : row := posting "Builder" "Berlin" 70.

(** The two rows as they reach the final sort under the worldwide
    preference: dated, the analyst's raised by 30, both clipped. *)
Definition analyst_raised `{Calendar} : row :=
  set_score (Qmin (Match_Score remote_analyst + 30) 100)
            (set_score (Match_Score remote_analyst + 30) (dated remote_analyst)).
Definition builder_kept `{Calendar} : row :=
  set_score (Qmin (Match_Score berlin_builder) 100) (dated berlin_builder).

Lemma remote_tests possessive :
  Re.contains possessive us_state_pattern (lower (u "Remote")) = Ok false
  /\ Re.contains possessive us_country_pattern (lower (u "Remote")) = Ok false
  /\ Re.contains possessive (join (u "|") worldwide_keywords) (lower (u "Remote")) = Ok false
  /\ bool_decide (strip (lower (u "Remote")) = u "remote") = true.
Proof. destruct possessive; repeat split; vm_compute; reflexivity. Qed.

Lemma berlin_tests possessive :
  Re.contains possessive us_state_pattern (lower (u "Berlin")) = Ok false
  /\ Re.contains possessive us_country_pattern (lower (u "Berlin")) = Ok false
  /\ Re.contains possessive (join (u "|") worldwide_keywords) (lower (u "Berlin")) = Ok false
  /\ bool_decide (strip (lower (u "Berlin")) = u "remote") = false.
Proof. destruct possessive; repeat split; vm_compute; reflexivity. Qed.

Lemma posting_today `{Calendar} title location score :
  (days (now - parse_date (Posted (job (posting title location score)))) <= 45)%Z.
Proof.
  unfold parse_date. change (Posted (job (posting title location score))) with (u "N/A").
  rewrite (bool_decide_eq_true_2 (u "N/A" ∈ strs ["N/A"; "Recent"]))
    by apply list_elem_of_here.
  rewrite orb_true_r, Z.sub_diag. vm_compute. discriminate.
Qed.

Lemma tied_pair_recency `{Calendar} `{FrameSort} (a b : row) max_days :
  (days (now - parse_date (Posted (job a))) <= 45)%Z ->
  (days (now - parse_date (Posted (job b))) <= 45)%Z ->
  score_filter 50 (recency max_days [a; b]) = sort_values_desc [dated a; dated b].
Proof.
  intros Ha Hb.
  rewrite recency_all_recent; [|simpl; lia | by repeat constructor].
  rewrite score_filter_small by (rewrite with_days_length; simpl; lia).
  by rewrite with_days_pair.
Qed.

Lemma tied_pair_located `{Calendar} possessive :
  location_filter possessive worldwide_only [dated berlin_builder; dated remote_analyst]
  = Ok [dated berlin_builder;
        set_score (Match_Score remote_analyst + 30) (dated remote_analyst)].
Proof.
  unfold location_filter. rewrite worldwide_only_listed.
  destruct (us_state_compiles possessive) as [f1 E1].
  destruct (us_country_compiles possessive) as [f2 E2].
  destruct (worldwide_compiles possessive) as [f3 E3].
  rewrite E1, E2, E3. cbn [bind]. f_equal.
  destruct (remote_tests possessive) as (R1 & R2 & R3 & R4).
  destruct (berlin_tests possessive) as (B1 & B2 & B3 & B4).
  pose proof (str_contains_value _ _ _ _ _ E1 R1) as R1'.
  pose proof (str_contains_value _ _ _ _ _ E2 R2) as R2'.
  pose proof (str_contains_value _ _ _ _ _ E3 R3) as R3'.
  pose proof (str_contains_value _ _ _ _ _ E1 B1) as B1'.
  pose proof (str_contains_value _ _ _ _ _ E2 B2) as B2'.
  pose proof (str_contains_value _ _ _ _ _ E3 B3) as B3'.
  cbn [map]. f_equal; [|f_equal].
  - unfold worldwide_adjust.
    change (Location (job (dated berlin_builder))) with (u "Berlin").
    by rewrite B1', B2', B3', B4.
  - unfold worldwide_adjust.
    change (Location (job (dated remote_analyst))) with (u "Remote").
    by rewrite R1', R2', R3', R4.
Qed.

(** Whichever of the two comes first in the input, the frame handed to
    the final sort is the builder's row, then the analyst's: with fewer
    than 5 rows the score stage falls back to the top rows by score,
    which puts the builder (70) before the analyst (40), and the location
    stage then raises the analyst to 70. *)
Lemma tied_pair_run `{Calendar} `{FrameSort} possessive (a b : row) :
  (a = remote_analyst /\ b = berlin_builder) \/ (a = berlin_builder /\ b = remote_analyst) ->
  apply_all_filters possessive worldwide_only [a; b] 14 50 None None
  = Ok (sort_values_desc [builder_kept; analyst_raised]).
Proof.
  intros Hab.
  destruct (apply_all_filters_stages possessive worldwide_only a [b] 14 50
              None None [a; b] [a; b] eq_refl eq_refl ltac:(discriminate))
    as (located & Hloc & ->).
  f_equal. f_equal.
  assert (score_filter 50 (recency 14 [a; b])
          = [dated berlin_builder; dated remote_analyst]) as E.
  { destruct Hab as [[-> ->]|[-> ->]];
      (rewrite tied_pair_recency; [|apply posting_today..]);
      apply sort_pair; vm_compute; reflexivity. }
  rewrite E, tied_pair_located in Hloc. injection Hloc as <-. reflexivity.
Qed.

Lemma tied_pair_scores `{Calendar} :
  Match_Score builder_kept == Match_Score analyst_raised.
Proof. vm_compute. reflexivity. Qed.

Lemma tied_pair_jobs `{Calendar} :
  job builder_kept = job berlin_builder /\ job analyst_raised = job remote_analyst
  /\ job berlin_builder <> job remote_analyst.
Proof. repeat split. intros E. vm_compute in E. discriminate E. Qed.

(** C6, as stated, fails, whatever the library's sort does with ties.
    Take the analyst's posting (40, "Remote") and the builder's (70,
    "Berlin") under the worldwide preference.  With fewer than 5 rows
    the score stage falls back to the top rows by score, which puts the
    builder before the analyst in either input order; the location stage
    then raises the analyst to 70, and the two reach the final sort tied,
    builder first.  If the sort leaves them so (as a stable sort does),
    the input analyst-then-builder comes out builder-then-analyst; if it
    swaps them, the input builder-then-analyst comes out
    analyst-then-builder.  Either way two jobs of equal score leave in
    the reverse of their input order. *)
Lemma C6_stability_refuted :
  ~ (exists (C : Calendar) (S : FrameSort) (possessive : bool),
       forall (remote_type : str) (jobs_df : list row) (max_days : Z) (min_score : Q)
              (exclude_keywords search_keywords : option (list str)) (out : list row),
         apply_all_filters possessive remote_type jobs_df max_days min_score
           exclude_keywords search_keywords = Ok out ->
         forall (i k : nat) (x y : row),
           (i < k)%nat -> out !! i = Some x -> out !! k = Some y ->
           Match_Score x == Match_Score y ->
           exists i' k', (i' < k')%nat
                         /\ map job jobs_df !! i' = Some (job x)
                         /\ map job jobs_df !! k' = Some (job y)).
Proof.
  intros (C & S & possessive & Hclaim).
  destruct tied_pair_jobs as (Jb & Ja & Hne).
  pose proof (sort_values_perm [builder_kept; analyst_raised]) as Hp.
  apply Permutation_length_2_inv in Hp as [E|E].
  - (* the sort keeps the tie: analyst-then-builder comes out reversed *)
    pose proof (tied_pair_run possessive remote_analyst berlin_builder
                  (or_introl (conj eq_refl eq_refl))) as Hrun.
    rewrite E in Hrun.
    destruct (Hclaim _ _ _ _ _ _ _ Hrun 0%nat 1%nat builder_kept analyst_raised)
      as (i' & k' & Hlt & Hi & Hk); [lia | done | done | apply tied_pair_scores |].
    rewrite Jb in Hi. rewrite Ja in Hk.
    destruct k' as [|k']; [lia|]. destruct i' as [|i']; [|].
    + cbn in Hi. injection Hi as Hi. by apply Hne.
    + destruct i' as [|i']; [|done]. destruct k' as [|k']; [lia|done].
  - (* the sort swaps the tie: builder-then-analyst comes out reversed *)
    pose proof (tied_pair_run possessive berlin_builder remote_analyst
                  (or_intror (conj eq_refl eq_refl))) as Hrun.
    rewrite E in Hrun.
    destruct (Hclaim _ _ _ _ _ _ _ Hrun 0%nat 1%nat analyst_raised builder_kept)
      as (i' & k' & Hlt & Hi & Hk);
      [lia | done | done | symmetry; apply tied_pair_scores |].
    rewrite Ja in Hi. rewrite Jb in Hk.
    destruct k' as [|k']; [lia|]. destruct i' as [|i']; [|].
    + cbn in Hi. injection Hi as Hi. by apply Hne.
    + destruct i' as [|i']; [|done]. destruct k' as [|k']; [lia|done].
Qed.

(** A posting scored 90. *)
Definition high_posting : row := posting "Data Engineer" "Anywhere" 90.

(** C7 at work on a posting scored 90: the worldwide copy ends at 100,
    the New York copy at 50. *)
Lemma C7_location_gap_witness :
  exists ww ny,
    apply_all_filters (H := stopped_calendar) (H0 := stable_sort) true worldwide_only
      [relocate new_york high_posting; relocate remote_worldwide high_posting]
      14 50 None None = Ok [ww; ny]
    /\ job ny = job (relocate new_york high_posting)
    /\ job ww = job (relocate remote_worldwide high_posting)
    /\ Match_Score ny == Match_Score high_posting - 40
    /\ Match_Score ww == Qmin (Match_Score high_posting + 30) 100
    /\ Match_Score ww - Match_Score ny == Qmin 70 (140 - Match_Score high_posting).
Proof.
  apply (C7_location_gap stopped_calendar stable_sort true high_posting 14 50).
  - vm_compute. discriminate.
  - vm_compute. discriminate.
Defined.

(** C7, as stated, fails above 70: for a score of 90 the worldwide copy is
    capped at 100 and the New York copy ends at 50, a gap of 50. *)
Lemma C7_gap_of_70_refuted :
  ~ (forall (C : Calendar) (S : FrameSort) (possessive : bool) (r : row)
            (max_days : Z) (min_score : Q) (ww ny : row),
       0 <= Match_Score r -> Match_Score r <= 100 ->
       apply_all_filters possessive worldwide_only
         [relocate new_york r; relocate remote_worldwide r] max_days min_score None None
       = Ok [ww; ny] ->
       70 <= Match_Score ww - Match_Score ny).
Proof.
  intros Hclaim.
  destruct C7_location_gap_witness as (ww & ny & Hrun & _ & _ & _ & _ & Hgap).
  assert (70 <= Match_Score ww - Match_Score ny) as Hge.
  { apply (Hclaim stopped_calendar stable_sort true high_posting 14%Z 50 ww ny);
      [vm_compute; discriminate.. | exact Hrun]. }
  rewrite Hgap in Hge. vm_compute in Hge. by apply Hge.
Qed.

(** The pattern the exclusion stage builds from a keyword: the keyword as
    typed, between two [\b]. *)
Definition exclude_pattern (kw : str) : str := u "\b" ++ lower (strip kw) ++ u "\b".

Lemma exclude_step_raises possessive df kw e :
  truthy (lower (strip kw)) = true ->
  Re.compile possessive (exclude_pattern kw) = Raise e ->
  exclude_step possessive df kw = Raise e.
Proof.
  intros Ht Hc. unfold exclude_step, str_contains. rewrite Ht.
  unfold exclude_pattern in Hc. by rewrite Hc.
Qed.

Lemma apply_all_filters_exclude_raises `{Calendar} `{FrameSort} possessive remote_type
    r rs max_days min_score kw kws e :
  truthy (lower (strip kw)) = true ->
  Re.compile possessive (exclude_pattern kw) = Raise e ->
  apply_all_filters possessive remote_type (r :: rs) max_days min_score
    (Some (kw :: kws)) None = Raise e.
Proof.
  intros Ht Hc. unfold apply_all_filters. cbn [keyword_boost bind exclude exclude_loop].
  by rewrite (exclude_step_raises _ _ _ _ Ht Hc).
Qed.

(** C10: the exclusion stage compiles the keyword as typed between two
    [\b], so a keyword whose text is not a valid pattern makes
    [apply_all_filters] raise the compilation error on any non-empty
    frame.  "c++" is such a keyword on interpreters before Python 3.11
    ("multiple repeat"); a stray parenthesis, as in "intern)", is one on
    every interpreter. *)
Theorem C10_unescaped_keyword_raises :
  forall (C : Calendar) (S : FrameSort) (remote_type : str) (r : row) (rs : list row)
         (max_days : Z) (min_score : Q),
    (forall possessive kw kws e,
       truthy (lower (strip kw)) = true ->
       Re.compile possessive (exclude_pattern kw) = Raise e ->
       apply_all_filters possessive remote_type (r :: rs) max_days min_score
         (Some (kw :: kws)) None = Raise e)
    /\ apply_all_filters false remote_type (r :: rs) max_days min_score
         (Some [u "c++"]) None = Raise (re_error "multiple repeat")
    /\ (forall possessive,
          apply_all_filters possessive remote_type (r :: rs) max_days min_score
            (Some [u "intern)"]) None = Raise (re_error "unbalanced parenthesis")).
Proof.
  intros C S remote_type r rs max_days min_score. split; [|split].
  - intros possessive kw kws e. apply apply_all_filters_exclude_raises.
  - apply apply_all_filters_exclude_raises; vm_compute; reflexivity.
  - intros []; apply apply_all_filters_exclude_raises; vm_compute; reflexivity.
Qed.

(** From Python 3.11 on, "c++" compiles (the second [+] makes the first
    possessive) and the stage filters with it. *)
Lemma cpp_compiles_when_possessive :
  exists r, Re.compile true (exclude_pattern (u "c++")) = Ok (r, 0%nat).
Proof. vm_compute. eauto. Qed.

End FilterExamples.

(* ===================================================================== *)
(** * Further properties of the code *)

(** ** The aggregator: substrings, idempotence, the relevance filter *)

Section AggregatorExtras.
Import Py Scraper.

(** *** Substrings *)

Lemma startswith_app p s t : startswith p s = true -> startswith p (s ++ t) = true.
Proof.
  revert s. induction p as [|a p IH]; intros [|b s]; simpl; try done.
  intros [-> Hp]%andb_true_iff. by rewrite (IH _ Hp).
Qed.

Lemma contains_app_l needle hay t :
  contains needle hay = true -> contains needle (hay ++ t) = true.
Proof.
  induction hay as [|c hay IH]; simpl.
  - rewrite orb_false_r. destruct needle; [|done]. intros _. by destruct t.
  - intros [Hs|Hc]%orb_true_iff.
    + pose proof (startswith_app _ (c :: hay) t Hs) as Hs'. simpl in Hs'.
      by rewrite Hs'.
    + rewrite (IH Hc). apply orb_true_r.
Qed.

Lemma contains_app_r needle hay t :
  contains needle hay = true -> contains needle (t ++ hay) = true.
Proof.
  intros Hc. induction t as [|c t IH]; simpl; [done|].
  rewrite IH. apply orb_true_r.
Qed.

(** *** De-duplication *)

(** From a state whose kept jobs share no url and no key with [jobs],
    the loop keeps all of [jobs] when they are pairwise distinct. *)
Lemma dedup_fold_fresh jobs : forall st,
  dedup_inv st ->
  NoDup (map url (unique_jobs st ++ jobs)) ->
  NoDup (map job_key (unique_jobs st ++ jobs)) ->
  Forall (fun j => url j <> []) jobs ->
  unique_jobs (foldl dedup_step st jobs) = unique_jobs st ++ jobs.
Proof.
  induction jobs as [|j jobs IH]; intros st I Hu Hk Ht; simpl.
  - by rewrite app_nil_r.
  - apply Forall_cons_1 in Ht as [Hj Ht].
    assert (unique_jobs (dedup_step st j) = unique_jobs st ++ [j]) as E.
    { rewrite (dedup_step_kept st j I), bool_decide_eq_true_2; [done|].
      rewrite map_app in Hu, Hk. simpl in Hu, Hk.
      apply NoDup_app in Hu as (_ & Hu & _). apply NoDup_app in Hk as (_ & Hk & _).
      split; [done|]. split.
      - intros Hin. apply (Hu _ Hin). by left.
      - intros Hin. apply (Hk _ Hin). by left. }
    rewrite IH; [| by apply dedup_step_inv | rewrite E, <- app_assoc; exact Hu
                 | rewrite E, <- app_assoc; exact Hk | done].
    by rewrite E, <- app_assoc.
Qed.

(** X1: De-duplicating twice is de-duplicating once. *)
Theorem X1_dedup_idempotent (all_jobs : list job) :
  remove_duplicates (remove_duplicates all_jobs) = remove_duplicates all_jobs.
Proof.
  pose proof (remove_duplicates_inv all_jobs) as I.
  unfold remove_duplicates at 1.
  rewrite dedup_fold_fresh; [done | apply dedup_init_inv | apply I..].
Qed.

(** *** The relevance filter *)

Lemma expand_keyword_grows E kw x : x ∈ E -> x ∈ expand_keyword E kw.
Proof.
  intros Hx. unfold expand_keyword.
  repeat case_match; rewrite ?elem_of_union; auto.
Qed.

Lemma expand_fold_grows kws : forall E x, x ∈ E -> x ∈ foldl expand_keyword E kws.
Proof.
  induction kws as [|kw kws IH]; intros E x Hx; simpl; [done|].
  by apply IH, expand_keyword_grows.
Qed.


Lemma keyword_relevant_intro E kw j :
  kw ∈ E ->
  contains kw (lower (title j) ++ u " " ++ slice_to 500 (lower (description j))) = true ->
  keyword_relevant E j = true.
Proof.
  intros HE Hc. unfold keyword_relevant. apply existsb_exists.
  exists kw. split; [|done]. apply list_elem_of_In. by apply elem_of_elements.
Qed.

Lemma keyword_filter_intro keywords j all_jobs :
  keywords <> [] -> j ∈ all_jobs ->
  keyword_relevant (expand_keywords keywords) j = true ->
  j ∈ keyword_filter (Some keywords) all_jobs.
Proof.
  intros Hne Hj Hr. unfold keyword_filter. destruct keywords as [|k ks]; [done|].
  apply list_elem_of_filter. split; [|done]. by apply Is_true_true.
Qed.




(** The related terms a keyword brings in: what a job title may contain
    instead of the keyword. *)
Definition related_terms (kw : str) : list str :=
  (if contains (u "social media") kw
   then strs ["social"; "media"; "content"; "marketing"; "community"; "digital"] else [])
  ++ (if contains (u "data") kw
      then strs ["data"; "analyst"; "analytics"; "scientist"; "engineer"] else [])
  ++ (if contains (u "developer") kw || contains (u "engineer") kw
      then strs ["developer"; "engineer"; "software"; "frontend"; "backend"; "fullstack"]
      else []).

Lemma expand_keyword_related E kw term :
  term ∈ related_terms kw -> term ∈ expand_keyword E kw.
Proof.
  unfold related_terms, expand_keyword. rewrite !elem_of_app.
  destruct (contains (u "social media") kw), (contains (u "data") kw),
    (contains (u "developer") kw || contains (u "engineer") kw);
    rewrite ?elem_of_union, ?elem_of_list_to_set, ?elem_of_nil; tauto.
Qed.

Lemma expand_fold_related kws : forall E kw term,
  kw ∈ kws -> term ∈ related_terms kw -> term ∈ foldl expand_keyword E kws.
Proof.
  induction kws as [|k kws IH]; intros E kw term Hkw Ht; [by apply elem_of_nil in Hkw|].
  simpl. apply elem_of_cons in Hkw as [->|Hkw].
  - by apply expand_fold_grows, expand_keyword_related.
  - by apply (IH _ kw).
Qed.

(** X4: A keyword that mentions "social media", "data", or "developer" or
    "engineer" also admits the jobs whose title contains one of its
    related terms ("data" admits "analyst", for instance). *)
Theorem X4_keyword_expansion (keywords : list str) (kw term : str) (j : job)
    (all_jobs : list job) :
  kw ∈ keywords -> term ∈ related_terms (lower kw) -> j ∈ all_jobs ->
  contains term (lower (title j)) = true ->
  j ∈ keyword_filter (Some keywords) all_jobs.
Proof.
  intros Hkw Ht Hj Hc.
  apply keyword_filter_intro; [intros ->; by apply elem_of_nil in Hkw | done |].
  apply (keyword_relevant_intro _ term); [|by apply contains_app_l].
  unfold expand_keywords. apply (expand_fold_related _ _ (lower kw)); [|done].
  by apply list_elem_of_fmap_2.
Qed.

End AggregatorExtras.

(** ** The extractor and the scorer *)

Section ParserExtras.
Import Py CVParser.

Lemma lower_app s t : lower (s ++ t) = lower s ++ lower t.
Proof. unfold lower. apply map_app. Qed.

(** X5: Skills found in a text are found in every text that contains it. *)
Theorem X5_skills_monotone (before text after : str) :
  extract_comprehensive_skills text
  ⊆ extract_comprehensive_skills (before ++ text ++ after).
Proof.
  intros s. rewrite !skills_spec. intros [Ht Hc]. split; [done|].
  rewrite !lower_app. by apply contains_app_r, contains_app_l.
Qed.

Lemma lower_char_idem c : lower_char (lower_char c) = lower_char c.
Proof.
  unfold lower_char.
  destruct ((65 <=? c)%N && (c <=? 90)%N) eqn:E; [|by rewrite E].
  apply andb_true_iff in E as [H1 H2]. apply N.leb_le in H1, H2.
  assert ((65 <=? c + 32)%N && (c + 32 <=? 90)%N = false) as ->; [|done].
  apply andb_false_iff. right. apply N.leb_gt. lia.
Qed.

Lemma lower_idem s : lower (lower s) = lower s.
Proof. unfold lower. rewrite map_map. apply map_ext. intros c. apply lower_char_idem. Qed.

(** X6: Skill extraction does not see the case of the text. *)
Theorem X6_skills_case_blind (text text' : str) :
  lower text = lower text' ->
  extract_comprehensive_skills text = extract_comprehensive_skills text'.
Proof.
  intros E. apply set_eq. intros s. by rewrite !skills_spec, E.
Qed.

End ParserExtras.

Section SynonymExtras.
Import Py Matcher.

Lemma expand_fold_spec (d : list (str * list str)) (l : list str) :
  forall (acc : gset str) (s : str),
  s ∈ foldl (fun expanded skill =>
               match dict_get d skill with
               | Some syn => expanded ∪ list_to_set syn
               | None => expanded
               end) acc l
  <-> s ∈ acc \/ exists k syn, k ∈ l /\ dict_get d k = Some syn /\ s ∈ syn.
Proof.
  induction l as [|k l IH]; intros acc s; simpl.
  - split; [auto|]. intros [?|(k & syn & Hk & _)]; [done|]. by apply elem_of_nil in Hk.
  - rewrite IH. split.
    + intros [Hacc|(k' & syn & Hk' & Hd & Hs)].
      * destruct (dict_get d k) as [syn|] eqn:E; [|auto].
        apply elem_of_union in Hacc as [?|Hsyn]; [auto|].
        right. exists k, syn. rewrite elem_of_cons, elem_of_list_to_set in *. auto.
      * right. exists k', syn. rewrite elem_of_cons. auto.
    + intros [Hacc|(k' & syn & Hk' & Hd & Hs)].
      * left. destruct (dict_get d k); [apply elem_of_union|]; auto.
      * apply elem_of_cons in Hk' as [->|Hk'].
        -- left. rewrite Hd. apply elem_of_union. right. by apply elem_of_list_to_set.
        -- right. exists k', syn. auto.
Qed.

(** X7: The expansion holds the skills given and, for each of them that is a
    key of the synonym table, its synonyms; nothing else. *)
Theorem X7_expand_skills_exact (skills : gset str) (s : str) :
  s ∈ expand_skills skills
  <-> s ∈ skills
      \/ exists k syn, k ∈ skills /\ dict_get skill_synonyms k = Some syn /\ s ∈ syn.
Proof.
  unfold expand_skills. rewrite expand_fold_spec.
  by setoid_rewrite elem_of_elements.
Qed.

End SynonymExtras.

Section MatcherExtras.
Import Py Matcher Num.
Context `{Vectorizer}.
Variable cv : cv_data.
Local Open Scope Q_scope.

Lemma nat_ratio_ge (m n : nat) :
  (0 < n)%nat ->
  (100 <= inject_Z (Z.of_nat m) / inject_Z (Z.of_nat n) * 150
   <-> (2 * n <= 3 * m)%nat).
Proof.
  intros Hn.
  set (M := inject_Z (Z.of_nat m)). set (N := inject_Z (Z.of_nat n)).
  assert (0 < N) as Hq.
  { unfold N. change 0 with (inject_Z 0). rewrite <- Zlt_Qlt. lia. }
  assert (M / N * 150 * N == 150 * M) as Hmul by (field; lra).
  assert (100 * N <= 150 * M <-> (2 * n <= 3 * m)%nat) as Hz.
  { unfold M, N. change 100 with (inject_Z 100). change 150 with (inject_Z 150).
    rewrite <- !inject_Z_mult, <- Zle_Qle. lia. }
  rewrite <- Hz, <- Hmul. symmetry. apply Qmult_le_r. exact Hq.
Qed.

(** X8: The skill score is full as soon as two thirds of the profile's skills
    occur in the job text (a skill or one of its synonyms counting as one
    match each), and is 150 times the ratio below that. *)
Theorem X8_skill_score_saturates (j : listing) :
  let m := skill_matches cv j in
  let n := Nat.max (size (cv_skills cv)) 1 in
  (skill_score cv j == 100 <-> (2 * n <= 3 * m)%nat)
  /\ ((3 * m < 2 * n)%nat ->
      skill_score cv j == inject_Z (Z.of_nat m) / inject_Z (Z.of_nat n) * 150).
Proof.
  intros m n. unfold skill_score. fold m. fold n.
  pose proof (nat_ratio_ge m n ltac:(lia)) as Hiff.
  destruct (Qmin_cases (inject_Z (Z.of_nat m) / inject_Z (Z.of_nat n) * 150) 100)
    as [[Hle ->]|[Hge ->]].
  - split.
    + split.
      * intros E. apply Hiff. rewrite E. apply Qle_refl.
      * intros Hmn. apply Hiff in Hmn. by apply Qle_antisym.
    + reflexivity.
  - split.
    + split; [intros _; by apply Hiff | reflexivity].
    + intros Hlt. apply Hiff in Hge. lia.
Qed.

(** X9: The score, the explanation and the number of skills matched depend on
    a job only through its lower-cased title and the lower-cased first
    1500 characters of its description. *)
Theorem X9_match_job_reads (j j' : listing) :
  lower (Title j) = lower (Title j') ->
  lower (take 1500 (Description j)) = lower (take 1500 (Description j')) ->
  Match_Score (match_job cv j) = Match_Score (match_job cv j')
  /\ Match_Explanation (match_job cv j) = Match_Explanation (match_job cv j')
  /\ Skills_Matched (match_job cv j) = Skills_Matched (match_job cv j').
Proof.
  intros Ht Hd.
  assert (job_text_of j = job_text_of j') as Etext.
  { unfold job_text_of, slice_to. by rewrite Ht, Hd. }
  assert (tfidf_score cv j = tfidf_score cv j') as E1
    by (unfold tfidf_score; by rewrite Etext).
  assert (skill_matches cv j = skill_matches cv j') as E2
    by (unfold skill_matches; by rewrite Etext).
  assert (skill_score cv j = skill_score cv j') as E3
    by (unfold skill_score; by rewrite E2).
  assert (adjacency_bonus cv j = adjacency_bonus cv j') as E4
    by (unfold adjacency_bonus; by rewrite Etext).
  assert (title_bonus cv j = title_bonus cv j') as E5
    by (unfold title_bonus; by rewrite Ht).
  assert (multiplier_of cv j = multiplier_of cv j') as E6
    by (unfold multiplier_of; by rewrite Ht).
  unfold match_job. cbn [Match_Score Match_Explanation Skills_Matched].
  unfold final_score, base_score, explanation.
  by rewrite E1, E2, E3, E4, E5, E6.
Qed.

Lemma foldl_steps {A} (f : Z -> A -> Z) (d : Z) (xs : list A) :
  (forall b x, f b x = b \/ f b x = (b + d)%Z) ->
  forall acc, exists k : nat,
    (k <= length xs)%nat /\ foldl f acc xs = (acc + Z.of_nat k * d)%Z.
Proof.
  intros Hf. induction xs as [|x xs IH]; intros acc; simpl.
  - exists 0%nat. split; lia.
  - destruct (IH (f acc x)) as (k & Hk & ->).
    destruct (Hf acc x) as [-> | ->].
    + exists k. split; lia.
    + exists (S k). split; lia.
Qed.

(** X10: The two bonuses are whole numbers of steps: at most one step of 15
    for each of the 16 role families and one of 8 for each of the 18 title
    keywords, so at most 240 and 144. *)
Theorem X10_bonus_steps (j : listing) :
  (exists k : nat, (k <= 16)%nat /\ adjacency_bonus cv j = (Z.of_nat k * 15)%Z)
  /\ (exists k : nat, (k <= 18)%nat /\ title_bonus cv j = (Z.of_nat k * 8)%Z).
Proof.
  split.
  - unfold adjacency_bonus.
    edestruct (foldl_steps
                 (fun bonus '(role_type, adjacent_list) =>
                    if contains role_type (cv_text cv)
                       && any_in adjacent_list (job_text_of j)
                    then (bonus + 15)%Z else bonus) 15 adjacent_roles) as (k & Hk & E).
    { intros b [a l]. case_match; auto. }
    exists k. split; [exact Hk|]. rewrite E. lia.
  - unfold title_bonus.
    edestruct (foldl_steps
                 (fun bonus kw =>
                    if contains kw (cv_text cv) && contains kw (lower (Title j))
                    then (bonus + 8)%Z else bonus) 8 important_keywords) as (k & Hk & E).
    { intros b kw. case_match; auto. }
    exists k. split; [exact Hk|]. rewrite E. lia.
Qed.

End MatcherExtras.

(** ** Invariants of the filter *)

Section FilterExtras.
Import Py Filter.
Context `{Calendar} `{FrameSort}.
Variable possessive : bool.
Local Open Scope Q_scope.

(** A property of rows that no stage after the recency stage can break:
    one that does not look at the score. *)
Definition score_blind (P : row -> Prop) : Prop :=
  forall s r, P r -> P (set_score s r).

Lemma Forall_filter_keep {A} (P : A -> Prop) (Q : A -> Prop) `{!forall x, Decision (Q x)}
    (l : list A) : Forall P l -> Forall P (filter Q l).
Proof.
  rewrite !Forall_forall. intros Hl x Hx.
  apply list_elem_of_filter in Hx as [_ Hx]. by apply Hl.
Qed.

Lemma Forall_map_keep {A B} (P : A -> Prop) (Q : B -> Prop) (f : A -> B) (l : list A) :
  (forall x, P x -> Q (f x)) -> Forall P l -> Forall Q (map f l).
Proof.
  intros Hf. rewrite !Forall_forall. intros Hl y Hy.
  apply list_elem_of_fmap in Hy as (x & -> & Hx). by apply Hf, Hl.
Qed.

Lemma score_filter_keeps (P : row -> Prop) min_score df :
  Forall P df -> Forall P (score_filter min_score df).
Proof.
  intros Hdf. unfold score_filter.
  repeat case_match;
    first [ by apply Forall_filter_keep
          | unfold nlargest; apply Forall_take; by rewrite <- (sort_values_perm df) ].
Qed.

Lemma worldwide_adjust_keeps (P : row -> Prop) f1 f2 f3 r :
  score_blind P -> P r -> P (worldwide_adjust f1 f2 f3 r).
Proof.
  intros HP Hr. unfold worldwide_adjust.
  repeat case_match; repeat apply HP; exact Hr.
Qed.

Lemma location_filter_keeps (P : row -> Prop) remote_type df out :
  score_blind P ->
  location_filter possessive remote_type df = Ok out ->
  Forall P df -> Forall P out.
Proof.
  intros HP. unfold location_filter.
  destruct (bool_decide (remote_type ∈ strs ["Worldwide Remote (Anywhere)";
                                             "Worldwide (Anywhere)"])).
  - destruct (us_state_compiles possessive) as [f1 ->].
    destruct (us_country_compiles possessive) as [f2 ->].
    destruct (worldwide_compiles possessive) as [f3 ->].
    cbn [bind]. intros [= <-]. apply Forall_map_keep.
    intros r. by apply worldwide_adjust_keeps.
  - destruct (bool_decide (remote_type ∈ strs ["USA Remote Only"; "USA Only"])).
    + destruct (usa_compiles possessive) as [f ->]. cbn [bind]. intros [= <-] Hdf.
      case_match; [by apply Forall_filter_keep | done].
    + by intros [= <-].
Qed.

Lemma clip_upper_keeps (P : row -> Prop) df :
  score_blind P -> Forall P df -> Forall P (clip_upper df).
Proof. intros HP. unfold clip_upper. apply Forall_map_keep. intros r. apply HP. Qed.

(** What holds of every row after the recency stage, and does not look at
    the score, holds of every row returned. *)
Lemma after_recency_keeps (P : row -> Prop) remote_type df max_days min_score ek sk
    boosted kept out :
  score_blind P ->
  df <> [] ->
  keyword_boost possessive sk df = Ok boosted ->
  exclude possessive ek boosted = Ok kept ->
  apply_all_filters possessive remote_type df max_days min_score ek sk = Ok out ->
  Forall P (recency max_days kept) -> Forall P out.
Proof.
  intros HP Hne Hb He Happ Hrec.
  apply apply_all_filters_cases in Happ
    as [[-> _]|(r & rs & boosted' & kept' & located & -> & Hb' & He' & Hl & ->)]; [done|].
  rewrite Hb in Hb'. injection Hb' as <-. rewrite He in He'. injection He' as <-.
  rewrite <- (sort_values_perm _). apply clip_upper_keeps; [done|].
  apply (location_filter_keeps P _ _ _ HP Hl). by apply score_filter_keeps.
Qed.

End FilterExtras.

(** ** The jobs the filter returns *)

Section FilterJobs.
Import Py Filter.
Context `{Calendar} `{FrameSort}.
Variable possessive : bool.
Local Open Scope Q_scope.

(** The jobs of [df'] are jobs of [df], none more often than there. *)
Definition jobs_within (df' df : list row) : Prop := job <$> df' ⊆+ job <$> df.

Lemma jobs_within_refl df : jobs_within df df.
Proof. unfold jobs_within. done. Qed.

Lemma jobs_within_trans df1 df2 df3 :
  jobs_within df1 df2 -> jobs_within df2 df3 -> jobs_within df1 df3.
Proof. unfold jobs_within. intros H1 H2. by etrans. Qed.

Lemma jobs_within_filter (P : row -> Prop) `{!forall r, Decision (P r)} df :
  jobs_within (filter P df) df.
Proof.
  unfold jobs_within. apply fmap_submseteq, sublist_submseteq, sublist_filter.
Qed.

Lemma jobs_within_map (f : row -> row) df :
  (forall r, job (f r) = job r) -> jobs_within (map f df) df.
Proof.
  intros Hf. unfold jobs_within.
  assert (job <$> map f df = job <$> df) as ->; [|done].
  induction df as [|r df IH]; [done|]. cbn. by rewrite Hf, <- IH.
Qed.

Lemma jobs_within_perm df df' : Permutation df df' -> jobs_within df' df.
Proof.
  intros Hp. unfold jobs_within. apply Permutation_submseteq. by rewrite Hp.
Qed.

Lemma jobs_within_take n df : jobs_within (take n df) df.
Proof. unfold jobs_within. apply fmap_submseteq, submseteq_take. Qed.

Lemma keyword_boost_jobs sk df boosted :
  keyword_boost possessive sk df = Ok boosted -> map job boosted = map job df.
Proof.
  unfold keyword_boost. destruct sk as [[|k ks]|]; try (by intros [= <-]).
  destruct (truthy _); [|by intros [= <-]].
  destruct (str_contains possessive _) as [f|e]; simpl; [|done].
  intros [= <-]. unfold clip_upper. rewrite !map_map. apply map_ext.
  intros r. by repeat case_match.
Qed.

Lemma exclude_loop_jobs kws : forall df df',
  exclude_loop possessive df kws = Ok df' -> jobs_within df' df.
Proof.
  induction kws as [|kw kws IH]; intros df df'; simpl.
  - intros [= <-]. apply jobs_within_refl.
  - destruct (exclude_step possessive df kw) as [df1|e] eqn:E; simpl; [|done].
    intros Hloop. apply (jobs_within_trans _ df1); [by apply IH|].
    destruct (exclude_step_spec _ _ _ _ E) as (P & D & ->). apply jobs_within_filter.
Qed.

Lemma exclude_jobs ek df df' :
  exclude possessive ek df = Ok df' -> jobs_within df' df.
Proof.
  destruct ek as [kws|]; simpl; [apply exclude_loop_jobs|].
  intros [= <-]. apply jobs_within_refl.
Qed.

Lemma recency_jobs max_days df : jobs_within (recency max_days df) df.
Proof.
  unfold recency.
  apply (jobs_within_trans _ (with_days df)); [|by apply jobs_within_map].
  case_match; apply jobs_within_filter.
Qed.

Lemma score_filter_jobs min_score df : jobs_within (score_filter min_score df) df.
Proof.
  unfold score_filter.
  repeat case_match;
    first [ apply jobs_within_filter
          | unfold nlargest;
            apply (jobs_within_trans _ (sort_values_desc df));
            [apply jobs_within_take | apply jobs_within_perm, sort_values_perm] ].
Qed.

Lemma worldwide_adjust_job f1 f2 f3 r : job (worldwide_adjust f1 f2 f3 r) = job r.
Proof. unfold worldwide_adjust. by repeat case_match. Qed.

Lemma location_filter_jobs remote_type df out :
  location_filter possessive remote_type df = Ok out -> jobs_within out df.
Proof.
  unfold location_filter.
  destruct (bool_decide (remote_type ∈ strs ["Worldwide Remote (Anywhere)";
                                             "Worldwide (Anywhere)"])).
  - destruct (us_state_compiles possessive) as [f1 ->].
    destruct (us_country_compiles possessive) as [f2 ->].
    destruct (worldwide_compiles possessive) as [f3 ->].
    cbn [bind]. intros [= <-]. apply jobs_within_map. apply worldwide_adjust_job.
  - destruct (bool_decide (remote_type ∈ strs ["USA Remote Only"; "USA Only"])).
    + destruct (usa_compiles possessive) as [f ->]. cbn [bind]. intros [= <-].
      case_match; [apply jobs_within_filter | apply jobs_within_refl].
    + intros [= <-]. apply jobs_within_refl.
Qed.

Lemma apply_all_filters_jobs remote_type df max_days min_score ek sk out :
  apply_all_filters possessive remote_type df max_days min_score ek sk = Ok out ->
  jobs_within out df.
Proof.
  intros Happ. apply apply_all_filters_cases in Happ
    as [[-> ->]|(r & rs & boosted & kept & located & -> & Hb & He & Hl & ->)];
    [apply jobs_within_refl|].
  apply (jobs_within_trans _ (clip_upper located));
    [apply jobs_within_perm, sort_values_perm|].
  apply (jobs_within_trans _ located); [by apply jobs_within_map|].
  apply (jobs_within_trans _ _ _ (location_filter_jobs _ _ _ Hl)).
  apply (jobs_within_trans _ _ _ (score_filter_jobs _ _)).
  apply (jobs_within_trans _ _ _ (recency_jobs _ _)).
  apply (jobs_within_trans _ _ _ (exclude_jobs _ _ _ He)).
  unfold jobs_within.
  change (map job boosted ⊆+ map job (r :: rs)).
  by rewrite (keyword_boost_jobs _ _ _ Hb).
Qed.

(** X11: The filter returns jobs it was given, none more often than it was
    given it: it neither invents nor repeats a job. *)
Theorem X11_filter_returns_input_jobs remote_type df max_days min_score ek sk out :
  apply_all_filters possessive remote_type df max_days min_score ek sk = Ok out ->
  job <$> out ⊆+ job <$> df.
Proof. apply apply_all_filters_jobs. Qed.

End FilterJobs.

(** ** Recency and exclusion, end to end *)

Section FilterEndToEnd.
Import Py Filter.
Context `{Calendar} `{FrameSort}.
Variable possessive : bool.
Local Open Scope Q_scope.

(** *** Recency *)

(** The row carries its age in days, and the age is at most [limit]. *)
Definition aged_at_most (limit : Z) (r : row) : Prop :=
  days_ago r = Some (days (now - parse_date (Posted (job r))))
  /\ (days (now - parse_date (Posted (job r))) <= limit)%Z.

Lemma recency_aged max_days df :
  Forall (aged_at_most (Z.max max_days 45)) (recency max_days df).
Proof.
  unfold recency.
  assert (forall limit, (limit <= Z.max max_days 45)%Z ->
            Forall (aged_at_most (Z.max max_days 45))
                   (filter (fun r => within limit r) (with_days df))) as Hlim.
  { intros limit Hle. rewrite Forall_forall. intros r Hr.
    apply list_elem_of_filter in Hr as [Hw Hr].
    unfold with_days in Hr. apply list_elem_of_fmap in Hr as (r0 & -> & _).
    unfold within in Hw. cbn in Hw. apply Is_true_true, Z.leb_le in Hw.
    split; [reflexivity|]. cbn. lia. }
  case_match; apply Hlim; lia.
Qed.

(** X12: Every job returned is at most [max(max_days, 45)] days old, by the
    clock of the filter, and carries that age in its [days_ago] column. *)
Theorem X12_returned_jobs_recent remote_type df max_days min_score ek sk out :
  apply_all_filters possessive remote_type df max_days min_score ek sk = Ok out ->
  Forall (aged_at_most (Z.max max_days 45)) out.
Proof.
  intros Happ.
  destruct (apply_all_filters_cases _ _ _ _ _ _ _ _ Happ)
    as [[-> ->]|(r & rs & boosted & kept & located & -> & Hb & He & Hl & ->)];
    [constructor|].
  apply (after_recency_keeps possessive _ remote_type (r :: rs) max_days min_score ek sk
           boosted kept); try done.
  - intros s r0 [Hd Ha]. split; [exact Hd | exact Ha].
  - apply recency_aged.
Qed.

(** *** Exclusion *)

(** The title of the row does not match the pattern made from [kw]. *)
Definition title_clear (kw : str) (r : row) : Prop :=
  Re.contains possessive (exclude_pattern kw) (lower (Title (job r))) = Ok false.

Lemma exclude_step_clears df kw df' :
  truthy (lower (strip kw)) = true ->
  exclude_step possessive df kw = Ok df' -> Forall (title_clear kw) df'.
Proof.
  intros Ht. unfold exclude_step. rewrite Ht.
  destruct (str_contains possessive _) as [f|e] eqn:E; simpl; [|done].
  intros [= <-]. rewrite Forall_forall. intros r Hr.
  apply list_elem_of_filter in Hr as [Hf _].
  apply Is_true_true, negb_true_iff in Hf.
  unfold title_clear, exclude_pattern.
  by rewrite (str_contains_apply _ _ _ _ E), Hf.
Qed.

Lemma exclude_step_keeps (P : row -> Prop) df kw df' :
  exclude_step possessive df kw = Ok df' -> Forall P df -> Forall P df'.
Proof.
  intros E. destruct (exclude_step_spec _ _ _ _ E) as (Q & D & ->).
  apply Forall_filter_keep.
Qed.

Lemma exclude_loop_clears kws : forall df df' kw,
  kw ∈ kws -> truthy (lower (strip kw)) = true ->
  exclude_loop possessive df kws = Ok df' -> Forall (title_clear kw) df'.
Proof.
  induction kws as [|k kws IH]; intros df df' kw Hkw Ht; [by apply elem_of_nil in Hkw|].
  simpl. destruct (exclude_step possessive df k) as [df1|e] eqn:E; simpl; [|done].
  intros Hloop. apply elem_of_cons in Hkw as [->|Hkw].
  - pose proof (exclude_step_clears _ _ _ Ht E) as Hclear.
    clear -Hloop Hclear. revert df1 df' Hloop Hclear.
    induction kws as [|k' kws IH]; intros df1 df' Hloop Hclear; simpl in Hloop.
    + by injection Hloop as <-.
    + destruct (exclude_step possessive df1 k') as [df2|e] eqn:E2; simpl in Hloop; [|done].
      apply (IH _ _ Hloop). by apply (exclude_step_keeps _ _ _ _ E2).
  - by apply (IH df1).
Qed.

Lemma with_days_keeps (P : listing -> Prop) df :
  Forall (fun r => P (job r)) df -> Forall (fun r => P (job r)) (with_days df).
Proof. unfold with_days. apply Forall_map_keep. intros r Hr. exact Hr. Qed.

Lemma recency_keeps (P : listing -> Prop) max_days df :
  Forall (fun r => P (job r)) df -> Forall (fun r => P (job r)) (recency max_days df).
Proof.
  intros Hdf. apply (with_days_keeps P) in Hdf. unfold recency.
  case_match; by apply Forall_filter_keep.
Qed.

(** X13: No job returned has a title the pattern of an exclusion keyword
    matches. *)
Theorem X13_excluded_titles_absent remote_type df max_days min_score kws sk out kw :
  apply_all_filters possessive remote_type df max_days min_score (Some kws) sk = Ok out ->
  kw ∈ kws -> truthy (lower (strip kw)) = true ->
  Forall (title_clear kw) out.
Proof.
  intros Happ Hkw Ht.
  destruct (apply_all_filters_cases _ _ _ _ _ _ _ _ Happ)
    as [[-> ->]|(r & rs & boosted & kept & located & -> & Hb & He & Hl & ->)];
    [constructor|].
  apply (after_recency_keeps possessive _ remote_type (r :: rs) max_days min_score
           (Some kws) sk boosted kept); try done.
  - intros s r0 Hr0. exact Hr0.
  - apply (recency_keeps (fun j => Re.contains possessive (exclude_pattern kw)
                                     (lower (Title j)) = Ok false)).
    by apply (exclude_loop_clears kws boosted).
Qed.

End FilterEndToEnd.

(** ** The floor of the result, the boost, jobs without a date *)

Section FilterFloor.
Import Py Filter.
Context `{Calendar} `{FrameSort}.
Variable possessive : bool.
Local Open Scope Q_scope.

Lemma score_filter_floor min_score df :
  (Nat.min 5 (length df) <= length (score_filter min_score df))%nat.
Proof.
  destruct (Nat.lt_ge_cases (length df) 5) as [Hlt|Hge].
  - rewrite score_filter_small by done.
    rewrite <- (Permutation_length (sort_values_perm df)). lia.
  - pose proof (score_filter_length min_score df Hge). lia.
Qed.

Lemma location_filter_floor remote_type df out :
  location_filter possessive remote_type df = Ok out ->
  (Nat.min 5 (length df) <= length out)%nat.
Proof.
  unfold location_filter.
  destruct (bool_decide (remote_type ∈ strs ["Worldwide Remote (Anywhere)";
                                             "Worldwide (Anywhere)"])).
  - destruct (us_state_compiles possessive) as [f1 ->].
    destruct (us_country_compiles possessive) as [f2 ->].
    destruct (worldwide_compiles possessive) as [f3 ->].
    cbn [bind]. intros [= <-]. rewrite length_map. lia.
  - destruct (bool_decide (remote_type ∈ strs ["USA Remote Only"; "USA Only"])).
    + destruct (usa_compiles possessive) as [f ->]. cbn [bind].
      destruct (Nat.leb_spec 5 (length (filter
        (fun r => f (lower (Location (job r)))) df))); intros [= <-]; lia.
    + intros [= <-]. lia.
Qed.

(** X14: The stages after the recency stage never leave fewer than 5 jobs, or
    fewer than came out of the recency stage if those were fewer: in
    particular the result is empty only if nothing passed the recency
    stage. *)
Theorem X14_result_floor remote_type df max_days min_score ek sk boosted kept out :
  keyword_boost possessive sk df = Ok boosted ->
  exclude possessive ek boosted = Ok kept ->
  apply_all_filters possessive remote_type df max_days min_score ek sk = Ok out ->
  (Nat.min 5 (length (recency max_days kept)) <= length out)%nat.
Proof.
  intros Hb He Happ.
  destruct (apply_all_filters_cases _ _ _ _ _ _ _ _ Happ)
    as [[-> ->]|(r & rs & boosted' & kept' & located & -> & Hb' & He' & Hl & ->)].
  - apply keyword_boost_spec in Hb as [Hb _]. apply exclude_length in He.
    pose proof (recency_length max_days kept) as Hr.
    assert (length (recency max_days kept) = 0)%nat as -> by (simpl in Hb; lia).
    simpl. lia.
  - rewrite Hb in Hb'. injection Hb' as <-. rewrite He in He'. injection He' as <-.
    rewrite <- (Permutation_length (sort_values_perm _)), clip_upper_length.
    pose proof (location_filter_floor _ _ _ Hl).
    pose proof (score_filter_floor min_score (recency max_days kept)). lia.
Qed.

(** *** The boost *)

(** What the boost and its clip make of one row, given the test of the
    search pattern. *)
Definition boost_row (f : str -> bool) (r : row) : row :=
  let delta :=
    if f (lower (Title (job r))) then 15
    else if f (lower (Description (job r))) then 10 else 0 in
  Row (job r) (Qmin (Match_Score r + delta) 100) (Match_Explanation r) (Skills_Matched r)
      (Some (f (lower (Title (job r))) || f (lower (Description (job r)))))
      (parsed_date r) (days_ago r).

Lemma boost_row_score f r :
  job (boost_row f r) = job r
  /\ (Match_Score (boost_row f r) == Qmin (Match_Score r) 100
      \/ Match_Score (boost_row f r) == Qmin (Match_Score r + 10) 100
      \/ Match_Score (boost_row f r) == Qmin (Match_Score r + 15) 100).
Proof.
  split; [reflexivity|]. unfold boost_row. cbn [Match_Score].
  destruct (f (lower (Title (job r)))); [right; right; reflexivity|].
  destruct (f (lower (Description (job r)))); [right; left; reflexivity|].
  left. apply Q.min_compat; [ring | reflexivity].
Qed.

Lemma keyword_boost_rows sk df boosted :
  keyword_boost possessive sk df = Ok boosted ->
  boosted = df
  \/ exists f,
       Forall2 (fun r r' => Match_Score r' == Match_Score (boost_row f r) /\ job r' = job r)
               df boosted.
Proof.
  unfold keyword_boost. destruct sk as [[|k ks]|]; try (intros [= <-]; by left).
  destruct (truthy _); [|intros [= <-]; by left].
  destruct (str_contains possessive _) as [f|e]; simpl; [|done].
  intros [= <-]. right. exists f. unfold clip_upper. rewrite map_map.
  induction df as [|r df IH]; [constructor|].
  cbn [map]. constructor; [|exact IH].
  unfold boost_row. cbn beta.
  destruct (f (lower (Title (job r)))), (f (lower (Description (job r))));
    cbn; split; try reflexivity.
  apply Q.min_compat; [ring | reflexivity].
Qed.

(** X15: The boost removes and reorders nothing; each score is left as it is,
    or raised by 0, 10 or 15 and capped at 100. *)
Theorem X15_boost_keeps_jobs sk df boosted :
  keyword_boost possessive sk df = Ok boosted ->
  Forall2 (fun r r' =>
             job r' = job r
             /\ (Match_Score r' == Match_Score r
                 \/ Match_Score r' == Qmin (Match_Score r) 100
                 \/ Match_Score r' == Qmin (Match_Score r + 10) 100
                 \/ Match_Score r' == Qmin (Match_Score r + 15) 100))
          df boosted.
Proof.
  intros Hb. destruct (keyword_boost_rows _ _ _ Hb) as [->|[f Hf]].
  - apply Forall_Forall2_diag. rewrite Forall_forall. intros r _.
    split; [done|]. left. reflexivity.
  - eapply Forall2_impl; [exact Hf|]. intros r r' [Hs Hj]. split; [exact Hj|].
    right. rewrite Hs. apply boost_row_score.
Qed.

(** *** Jobs without a usable date *)

(** The posting date is missing, a placeholder, or text the parser chosen
    for it rejects. *)
Definition undated (date_str : str) : Prop :=
  date_str = [] \/ date_str ∈ strs ["N/A"; "Recent"]
  \/ (contains (u "T") date_str = true
      /\ exists e, fromisoformat (replace (u "Z") [] (replace (u "+00:00") [] date_str))
                   = Raise e)
  \/ (contains (u "T") date_str = false
      /\ exists e, strptime_ymd (slice_to 10 date_str) = Raise e).

Lemma parse_date_undated date_str : undated date_str -> parse_date date_str = now.
Proof.
  unfold parse_date. intros [->|[Hin|[[Ht [e He]]|[Ht [e He]]]]].
  - reflexivity.
  - rewrite (bool_decide_eq_true_2 _ Hin). by rewrite orb_true_r.
  - rewrite Ht, He. by destruct (_ || _).
  - rewrite Ht, He. by destruct (_ || _).
Qed.

(** X16: A job without a usable date counts as posted today: it passes the
    recency stage for every non-negative [max_days], with age 0. *)
Theorem X16_undated_jobs_pass max_days df r :
  (0 <= max_days)%Z -> r ∈ df -> undated (Posted (job r)) ->
  exists r', r' ∈ recency max_days df /\ job r' = job r /\ days_ago r' = Some 0%Z.
Proof.
  intros Hmd Hr Hund. exists (dated r).
  pose proof (parse_date_undated _ Hund) as Enow.
  assert (days_ago (dated r) = Some 0%Z) as Hd.
  { unfold dated. cbn. rewrite Enow, Z.sub_diag. reflexivity. }
  split; [|split; [reflexivity | exact Hd]].
  assert (dated r ∈ with_days df) as Hin.
  { unfold with_days. apply list_elem_of_fmap. by exists r. }
  unfold recency. case_match; apply list_elem_of_filter; (split; [|exact Hin]);
    unfold within; rewrite Hd; apply Is_true_true, Z.leb_le; lia.
Qed.

End FilterFloor.

(** ** The application helper *)

Section HelperFacts.
Import Py Helper.

Lemma split_on_nonempty sep s : split_on sep s <> [].
Proof. destruct s as [|c s]; simpl; [done|]. repeat case_match; done. Qed.

Lemma split_on_free sep s : Forall (fun piece => sep ∉ piece) (split_on sep s).
Proof.
  induction s as [|c s IH]; simpl.
  - constructor; [|constructor]. apply not_elem_of_nil.
  - destruct (N.eqb_spec c sep) as [->|Hne].
    + constructor; [apply not_elem_of_nil | exact IH].
    + destruct (split_on sep s) as [|piece pieces] eqn:Es;
        [by apply split_on_nonempty in Es|].
      apply Forall_cons_1 in IH as [Hp Hps]. constructor; [|exact Hps].
      rewrite not_elem_of_cons. split; [congruence | exact Hp].
Qed.

Lemma lstrip_elem c s : c ∈ lstrip s -> c ∈ s.
Proof.
  induction s as [|d s IH]; simpl; [done|].
  destruct (is_space d); [|done]. intros Hc. right. by apply IH.
Qed.

Lemma strip_elem c s : c ∈ strip s -> c ∈ s.
Proof.
  unfold strip, rstrip. rewrite !list_elem_of_In, <- in_rev, <- !list_elem_of_In.
  intros Hc%lstrip_elem. rewrite list_elem_of_In, <- in_rev, <- list_elem_of_In in Hc.
  by apply lstrip_elem.
Qed.

(** What every requirement collected satisfies. *)
Definition requirement_shaped (job_description clean : str) : Prop :=
  (20 < length clean < 150)
  /\ (ch "." ∉ clean)
  /\ exists sentence pattern,
       sentence ∈ take 10 (split_on (ch ".") job_description)
       /\ clean = strip sentence
       /\ pattern ∈ requirement_patterns
       /\ contains pattern (lower sentence) = true.

Lemma requirement_fold_shaped job_description (sentences : list str) :
  forall acc,
    (forall s, s ∈ sentences -> s ∈ take 10 (split_on (ch ".") job_description)) ->
    Forall (requirement_shaped job_description) acc ->
    Forall (requirement_shaped job_description) (foldl requirement_step acc sentences).
Proof.
  induction sentences as [|sentence sentences IH]; intros acc Hin Hacc; simpl; [done|].
  apply IH; [intros s Hs; apply Hin; by right|].
  unfold requirement_step.
  destruct (existsb _ requirement_patterns) eqn:Ep; [|done].
  destruct ((20 <? length (strip sentence)) && (length (strip sentence) <? 150)) eqn:El;
    [|done].
  apply Forall_app. split; [done|]. constructor; [|constructor].
  apply andb_true_iff in El as [H20 H150].
  apply Nat.ltb_lt in H20, H150.
  apply existsb_exists in Ep as (pattern & Hp & Hc).
  split; [lia|]. split.
  - assert (sentence ∈ take 10 (split_on (ch ".") job_description)) as Hs
      by (apply Hin; by left).
    apply elem_of_take in Hs as (i & Hs & _).
    pose proof (split_on_free (ch ".") job_description) as Hfree.
    rewrite Forall_lookup in Hfree. specialize (Hfree _ _ Hs).
    intros Hdot. apply Hfree. by apply strip_elem.
  - exists sentence, pattern. split; [apply Hin; by left|]. split; [done|].
    split; [by apply list_elem_of_In | done].
Qed.

(** X17: [extract_job_requirements] returns at most 5 requirements; each is
    between 21 and 149 characters long, holds no full stop, and is the
    trimmed text of one of the first ten sentences, one that mentions a
    requirement phrase. *)
Theorem X17_requirements_shape (job_description : str) :
  length (extract_job_requirements job_description) <= 5
  /\ Forall (requirement_shaped job_description)
            (extract_job_requirements job_description).
Proof.
  unfold extract_job_requirements.
  destruct (negb (truthy job_description)); [split; [simpl; lia | constructor]|].
  split; [rewrite length_take; lia|].
  apply Forall_take. by apply requirement_fold_shaped.
Qed.

(** X18: The skills put forward for a job are skills of the profile, in the
    order of the profile and at most 8 of them; and some are put forward
    whenever the profile has any. *)
Theorem X18_skills_for_job (cv_skills : list str) (job_description : str) :
  sublist (match_skills_to_job cv_skills job_description) cv_skills
  /\ length (match_skills_to_job cv_skills job_description) <= 8
  /\ (match_skills_to_job cv_skills job_description = [] <-> cv_skills = []).
Proof.
  unfold match_skills_to_job.
  destruct (negb (truthy job_description)).
  { split; [apply sublist_take|]. split; [rewrite length_take; lia|].
    destruct cv_skills; simpl; split; congruence. }
  destruct (filter _ cv_skills) as [|m ms] eqn:Ef.
  { split; [apply sublist_take|]. split; [rewrite length_take; lia|].
    destruct cv_skills; simpl; split; congruence. }
  split; [|split].
  - trans (m :: ms); [apply sublist_take|]. rewrite <- Ef. apply sublist_filter.
  - rewrite length_take. lia.
  - split; [simpl; congruence|]. intros ->. by rewrite filter_nil in Ef.
Qed.

End HelperFacts.

(** ** The further properties at work *)

Section AggregatorAtWork.
Import Py Scraper.



(** "Data" as the keyword admits the job titled "Engineer". *)
Lemma X4_keyword_expansion_witness :
  engineer_x ∈ keyword_filter (Some [u "Data"]) [analyst_a; engineer_x].
Proof.
  apply (X4_keyword_expansion [u "Data"] (u "Data") (u "engineer") engineer_x
           [analyst_a; engineer_x]).
  - apply list_elem_of_here.
  - by_decide.
  - apply list_elem_of_further, list_elem_of_here.
  - vm_compute. reflexivity.
Defined.

End AggregatorAtWork.

Section ExtrasAtWork.
Import Py Matcher Filter Sorts.
Local Open Scope Q_scope.

(** Upper case or lower case, the same skills. *)
Lemma X6_skills_case_blind_witness :
  CVParser.extract_comprehensive_skills (u "PYTHON and SQL")
  = CVParser.extract_comprehensive_skills (u "python and sql").
Proof.
  apply (X6_skills_case_blind (u "PYTHON and SQL") (u "python and sql")).
  vm_compute. reflexivity.
Defined.

(** The junior opening with its title in capitals, at another company. *)
Definition junior_opening_loud : listing :=
  Listing (u "JUNIOR DEVELOPER") (u "Initech") (u "Berlin") (u "PYTHON AND SQL")
          (u "https://b.example/7") (u "$1") (u "2026-01-01") (u "Remotive").

Lemma X9_match_job_reads_witness :
  Match_Score (match_job (H := disjoint_vectorizer) four_years junior_opening)
  = Match_Score (match_job (H := disjoint_vectorizer) four_years junior_opening_loud)
  /\ Match_Explanation (match_job (H := disjoint_vectorizer) four_years junior_opening)
     = Match_Explanation (match_job (H := disjoint_vectorizer) four_years junior_opening_loud)
  /\ Skills_Matched (match_job (H := disjoint_vectorizer) four_years junior_opening)
     = Skills_Matched (match_job (H := disjoint_vectorizer) four_years junior_opening_loud).
Proof.
  apply (@X9_match_job_reads disjoint_vectorizer four_years junior_opening
           junior_opening_loud).
  - vm_compute. reflexivity.
  - vm_compute. reflexivity.
Defined.

(** The five postings come out as the five postings. *)
Lemma X11_filter_returns_input_jobs_witness : job <$> five_ties_out ⊆+ job <$> five_ties.
Proof.
  apply (@X11_filter_returns_input_jobs stopped_calendar stable_sort true any_remote
           five_ties 14%Z 50 None None five_ties_out).
  vm_compute. reflexivity.
Defined.

Lemma X12_returned_jobs_recent_witness :
  Forall (aged_at_most (H := stopped_calendar) (Z.max 14 45)) five_ties_out.
Proof.
  apply (@X12_returned_jobs_recent stopped_calendar stable_sort true any_remote
           five_ties 14%Z 50 None None five_ties_out).
  vm_compute. reflexivity.
Defined.

(** The five postings with "editor" excluded. *)
Definition five_ties_unedited : list row :=
  Eval vm_compute in
    match apply_all_filters (H := stopped_calendar) (H0 := stable_sort) true any_remote
            five_ties 14 50 (Some [u "Editor"]) None with
    | Ok out => out
    | Raise _ => []
    end.

Lemma X13_excluded_titles_absent_witness :
  Forall (title_clear true (u "Editor")) five_ties_unedited.
Proof.
  apply (@X13_excluded_titles_absent stopped_calendar stable_sort true any_remote
           five_ties 14%Z 50 [u "Editor"] None five_ties_unedited (u "Editor")).
  - vm_compute. reflexivity.
  - apply list_elem_of_here.
  - vm_compute. reflexivity.
Defined.

Lemma X14_result_floor_witness :
  (Nat.min 5 (length (recency (H := stopped_calendar) 14 five_ties))
   <= length five_ties_out)%nat.
Proof.
  apply (@X14_result_floor stopped_calendar stable_sort true any_remote five_ties 14%Z 50
           None None five_ties five_ties five_ties_out).
  - reflexivity.
  - reflexivity.
  - vm_compute. reflexivity.
Defined.

(** The five postings after a search for "analyst". *)
Definition five_ties_boosted : list row :=
  Eval vm_compute in
    match keyword_boost true (Some [u "analyst"]) five_ties with
    | Ok out => out
    | Raise _ => []
    end.

Lemma X15_boost_keeps_jobs_witness :
  Forall2 (fun r r' =>
             job r' = job r
             /\ (Match_Score r' == Match_Score r
                 \/ Match_Score r' == Qmin (Match_Score r) 100
                 \/ Match_Score r' == Qmin (Match_Score r + 10) 100
                 \/ Match_Score r' == Qmin (Match_Score r + 15) 100))
          five_ties five_ties_boosted.
Proof.
  apply (X15_boost_keeps_jobs true (Some [u "analyst"]) five_ties five_ties_boosted).
  vm_compute. reflexivity.
Defined.

(** A posting dated "N/A" passes the recency stage of 14 days. *)
Lemma X16_undated_jobs_pass_witness :
  exists r', r' ∈ recency (H := stopped_calendar) 14 five_ties
             /\ job r' = job (posting "Analyst" "Lagos" 60)
             /\ days_ago r' = Some 0%Z.
Proof.
  apply (@X16_undated_jobs_pass stopped_calendar 14%Z five_ties (posting "Analyst" "Lagos" 60)).
  - lia.
  - apply list_elem_of_here.
  - right. left. apply list_elem_of_here.
Defined.

End ExtrasAtWork.

(** ** Years, sources, and the score filter *)

Section YearsExtras.
Import Py CVParser.

(** X19: The years extracted are never negative, also when the date ranges of
    the text run backwards and sum to less than 0. *)
Theorem X19_years_never_negative (possessive : bool) (int_max_str_digits : nat)
    (text : str) (y : Z) :
  _extract_years_experience possessive int_max_str_digits text = Ok y -> (0 <= y)%Z.
Proof.
  rewrite extract_years_refines. unfold spec_years_experience.
  destruct (explicit_years possessive int_max_str_digits (lower text)) as [ns|e];
    simpl; [|done].
  destruct (findall2 possessive date_pattern (lower text)) as [rs|e]; simpl; [|done].
  destruct (mapM (range_years int_max_str_digits) rs) as [spans|e]; simpl; [|done].
  intros [= <-]. pose proof (largest_nonneg ns). lia.
Qed.

(** A range that runs backwards, ten years of it: the years are 0. *)
Lemma X19_years_never_negative_witness :
  _extract_years_experience true 4300 (u "Lead, 2020 - 2010") = Ok 0%Z /\ (0 <= 0)%Z.
Proof.
  split; [vm_compute; reflexivity|].
  apply (X19_years_never_negative true 4300%nat (u "Lead, 2020 - 2010") 0%Z).
  vm_compute. reflexivity.
Defined.

End YearsExtras.

Section SourcesExtras.
Import Py Scraper.

Lemma successful_elem (os : list (result (list job))) (j : job) :
  j ∈ concat (successful os) -> exists jobs, Ok jobs ∈ os /\ j ∈ jobs.
Proof.
  unfold successful. induction os as [|[jobs|e] os IH]; simpl.
  - intros Hj. by apply elem_of_nil in Hj.
  - intros [Hj|Hj]%elem_of_app.
    + exists jobs. split; [apply list_elem_of_here | done].
    + destruct (IH Hj) as (jobs' & Hin & Hj'). exists jobs'.
      split; [by apply list_elem_of_further | done].
  - intros Hj. destruct (IH Hj) as (jobs' & Hin & Hj'). exists jobs'.
    split; [by apply list_elem_of_further | done].
Qed.

(** X20: Every job [scrape_all] returns was among the records of a source
    that answered, has a url, and, when keywords were given, passes the
    relevance test on its title and description. *)
Theorem X20_scrape_all_sound (web : Web) (keywords : option (list str)) (j : job) :
  j ∈ scrape_all web keywords ->
  (exists jobs, Ok jobs ∈ outcomes web keywords /\ j ∈ jobs)
  /\ url j <> []
  /\ (forall k ks, keywords = Some (k :: ks) ->
                   keyword_relevant (expand_keywords (k :: ks)) j = true).
Proof.
  unfold scrape_all. intros Hj.
  pose proof (inv_truthy _ (remove_duplicates_inv
                              (keyword_filter keywords (collect web keywords)))) as Hurl.
  rewrite Forall_forall in Hurl.
  assert (j ∈ keyword_filter keywords (collect web keywords)) as Hk.
  { eapply elem_of_sublist; [exact Hj | apply remove_duplicates_sublist]. }
  split; [|split].
  - apply successful_elem. rewrite <- guarded_successful, <- collect_outcomes.
    unfold keyword_filter in Hk. destruct keywords as [[|k ks]|]; try done.
    by apply list_elem_of_filter in Hk as [_ Hk].
  - by apply Hurl.
  - intros k ks ->. unfold keyword_filter in Hk.
    apply list_elem_of_filter in Hk as [Hr _]. by apply Is_true_true.
Qed.

Lemma X20_scrape_all_sound_witness :
  (exists jobs, Ok jobs ∈ outcomes flaky_web None /\ engineer_x ∈ jobs)
  /\ url engineer_x <> []
  /\ (forall k ks, None = Some (k :: ks) ->
                   keyword_relevant (expand_keywords (k :: ks)) engineer_x = true).
Proof.
  apply (X20_scrape_all_sound flaky_web None engineer_x).
  vm_compute. apply list_elem_of_here.
Defined.

End SourcesExtras.

Section ScoreFilterExtras.
Import Py Filter.
Context `{FrameSort}.
Local Open Scope Q_scope.

Lemma score_at_least_le t r : score_at_least t r = true <-> t <= Match_Score r.
Proof. unfold score_at_least. apply Qle_bool_iff. Qed.

(** A lower threshold lets at least as many rows through. *)
Lemma threshold_length a b df :
  a <= b ->
  (length (filter (fun r => score_at_least b r) df)
   <= length (filter (fun r => score_at_least a r) df))%nat.
Proof.
  intros Hab. induction df as [|r df IH]; [done|].
  rewrite !filter_cons.
  destruct (decide (score_at_least b r)) as [Hb|Hb].
  - rewrite decide_True; [simpl; lia|].
    apply Is_true_true, score_at_least_le in Hb. apply Is_true_true, score_at_least_le. lra.
  - destruct (decide (score_at_least a r)); simpl; lia.
Qed.

(** If fewer than 5 rows reach [a] and at least 5 reach [b], then [b] is
    below [a], and a row that reaches [a] reaches [b]. *)
Lemma threshold_fallback a b df r :
  (length (filter (fun r => score_at_least a r) df) < 5)%nat ->
  (5 <= length (filter (fun r => score_at_least b r) df))%nat ->
  score_at_least a r = true -> score_at_least b r = true.
Proof.
  intros Ha Hb Hr. apply score_at_least_le in Hr. apply score_at_least_le.
  destruct (Qlt_le_dec b a) as [Hlt|Hle]; [lra|].
  pose proof (threshold_length a b df Hle). lia.
Qed.

Lemma filter_all_length {A} (P : A -> Prop) `{!forall x, Decision (P x)} (l : list A) :
  Forall P l -> length (filter P l) = length l.
Proof.
  induction 1 as [|x l Hx _ IH]; [done|].
  rewrite filter_cons, decide_True by done. simpl. by rewrite IH.
Qed.

(** In a frame sorted by descending score, the rows that reach a
    threshold come first: a row at position [i] that reaches it has [i]
    rows before it that do. *)
Lemma sorted_prefix_qualifies t (sorted : list row) (i : nat) (r : row) :
  StronglySorted score_ge sorted ->
  sorted !! i = Some r -> score_at_least t r = true ->
  (i <= length (filter (fun r => score_at_least t r) sorted))%nat.
Proof.
  intros Hs Hi Hr.
  rewrite <- (take_drop i sorted), filter_app, length_app.
  assert (length (filter (fun r0 => score_at_least t r0) (take i sorted)) = i) as ->; [|lia].
  rewrite filter_all_length.
  - rewrite length_take. apply lookup_lt_Some in Hi. lia.
  - apply score_at_least_le in Hr.
    revert i Hi. induction Hs as [|x l Hs IH Hx]; intros i Hi; [by destruct i|].
    destruct i as [|i]; [constructor|]. simpl in Hi. simpl. constructor.
    + apply Is_true_true, score_at_least_le.
      rewrite Forall_forall in Hx. specialize (Hx r (list_elem_of_lookup_2 _ _ _ Hi)).
      unfold score_ge in Hx. lra.
    + by apply IH.
Qed.

(** X21: The fallbacks of the score filter only add rows: a row that reaches
    [min_score] is never dropped by this stage. *)
Theorem X21_score_filter_keeps_qualifying (min_score : Q) (df : list row) (r : row) :
  r ∈ df -> score_at_least min_score r = true -> r ∈ score_filter min_score df.
Proof.
  intros Hr Hq. unfold score_filter.
  set (F := fun t => filter (fun r => score_at_least t r) df).
  assert (forall t, score_at_least t r = true -> r ∈ F t) as HF.
  { intros t Ht. apply list_elem_of_filter. split; [by apply Is_true_true | done]. }
  change (filter (fun r0 => score_at_least min_score r0) df) with (F min_score).
  change (filter (fun r0 => score_at_least (Qmax (min_score - 20) 20) r0) df)
    with (F (Qmax (min_score - 20) 20)).
  change (filter (fun r0 => score_at_least 10 r0) df) with (F 10).
  destruct (Nat.ltb_spec (length (F min_score)) 5) as [H1|H1].
  2: { rewrite !(proj2 (Nat.ltb_ge _ _) H1). by apply HF. }
  destruct (Nat.ltb_spec (length (F (Qmax (min_score - 20) 20))) 5) as [H2|H2].
  2: { rewrite !(proj2 (Nat.ltb_ge _ _) H2).
       apply HF. by apply (threshold_fallback min_score _ df). }
  destruct (Nat.ltb_spec (length (F 10)) 5) as [H3|H3].
  2: { apply HF. by apply (threshold_fallback min_score _ df). }
  unfold nlargest.
  pose proof (sort_values_perm df) as Hp.
  assert (r ∈ sort_values_desc df) as Hin by (by rewrite <- Hp).
  apply list_elem_of_lookup in Hin as [i Hi].
  apply list_elem_of_lookup. exists i. rewrite lookup_take_lt; [done|].
  pose proof (lookup_lt_Some _ _ _ Hi) as Hlen.
  rewrite <- (Permutation_length Hp) in Hlen.
  assert (i <= length (filter (fun r => score_at_least min_score r) (sort_values_desc df)))%nat
    as Hpre.
  { apply (sorted_prefix_qualifies _ _ _ r); [|done..].
    apply Sorted_StronglySorted; [apply score_ge_trans | apply sort_values_sorted]. }
  assert (length (filter (fun r => score_at_least min_score r) (sort_values_desc df))
          = length (F min_score)) as E.
  { unfold F. apply Permutation_length. by rewrite <- Hp. }
  lia.
Qed.

End ScoreFilterExtras.

Section PlainPreference.
Import Py Matcher Filter.
Context `{Vectorizer} `{Calendar} `{FrameSort}.
Variable possessive : bool.
Local Open Scope Q_scope.

Lemma score_jobs_scores cv jobs : scores_in 0 100 (score_jobs cv jobs).
Proof.
  unfold score_jobs, scores_in. rewrite Forall_forall. intros r Hr.
  apply list_elem_of_fmap in Hr as (j & -> & _). apply final_score_bounds.
Qed.

Lemma location_filter_plain lo hi remote_type df out :
  remote_type ∉ strs ["Worldwide Remote (Anywhere)"; "Worldwide (Anywhere)"] ->
  location_filter possessive remote_type df = Ok out ->
  scores_in lo hi df -> scores_in lo hi out.
Proof.
  intros Hne. unfold location_filter.
  destruct (bool_decide (remote_type ∈ strs ["Worldwide Remote (Anywhere)";
                                             "Worldwide (Anywhere)"])) eqn:E.
  { by apply bool_decide_eq_true in E. }
  destruct (bool_decide (remote_type ∈ strs ["USA Remote Only"; "USA Only"])).
  - destruct (usa_compiles possessive) as [f ->]. cbn [bind]. intros [= <-] Hdf.
    case_match; [by apply scores_in_filter | done].
  - by intros [= <-].
Qed.

(** X22: Under every preference but the worldwide one, the jobs the scorer
    scored leave the filter with scores between 0 and 100: only the
    worldwide penalty takes a score below 0. *)
Theorem X22_plain_preference_scores cv jobs remote_type max_days min_score ek sk out :
  remote_type ∉ strs ["Worldwide Remote (Anywhere)"; "Worldwide (Anywhere)"] ->
  apply_all_filters possessive remote_type (score_jobs cv jobs) max_days min_score ek sk
  = Ok out ->
  scores_in 0 100 out.
Proof.
  intros Hne Happ.
  apply apply_all_filters_cases in Happ
    as [[_ ->]|(r & rs & boosted & kept & located & _ & Hb & He & Hl & ->)];
    [constructor|].
  apply (scores_in_perm _ _ _ _ (sort_values_perm _)).
  apply (clip_upper_scores 0 100); [lra|].
  apply (location_filter_plain _ _ _ _ _ Hne Hl).
  apply score_filter_scores, recency_scores.
  apply (exclude_scores _ _ _ _ _ _ He).
  apply (keyword_boost_spec _ _ _ _ Hb). apply score_jobs_scores.
Qed.

End PlainPreference.

Section ScoresAtWork.
Import Py Matcher Filter Sorts.
Local Open Scope Q_scope.

Lemma X21_score_filter_keeps_qualifying_witness :
  posting "Analyst" "Lagos" 60 ∈ score_filter (H0 := stable_sort) 50 five_ties.
Proof.
  apply (@X21_score_filter_keeps_qualifying stable_sort 50 five_ties
           (posting "Analyst" "Lagos" 60)).
  - apply list_elem_of_here.
  - vm_compute. reflexivity.
Defined.

(** The junior opening, scored and filtered. *)
Definition junior_opening_out : list row :=
  Eval vm_compute in
    match apply_all_filters (H := stopped_calendar) (H0 := stable_sort) true any_remote
            (score_jobs (H := disjoint_vectorizer) four_years [junior_opening])
            14 50 None None with
    | Ok out => out
    | Raise _ => []
    end.

Lemma X22_plain_preference_scores_witness : scores_in 0 100 junior_opening_out.
Proof.
  apply (@X22_plain_preference_scores disjoint_vectorizer stopped_calendar stable_sort true
           four_years [junior_opening] any_remote 14%Z 50 None None junior_opening_out).
  - by_decide.
  - vm_compute. reflexivity.
Defined.

End ScoresAtWork.

(** ** The search, end to end *)

Section SearchFacts.
Import Py Search.

Lemma lower_char_comma c : lower_char c = ch "," -> c = ch ",".
Proof.
  unfold lower_char. change (ch ",") with 44%N.
  destruct ((65 <=? c)%N && (c <=? 90)%N) eqn:E; [|done].
  apply andb_true_iff in E as [H1 H2]. apply N.leb_le in H1, H2. lia.
Qed.

(** X23: The titles searched for are never empty, hold no comma, and are in
    lower case: in particular no empty keyword, which every text
    contains, reaches the relevance filter. *)
Theorem X23_titles_list_clean (job_titles : str) :
  Forall (fun t => t <> [] /\ (ch "," ∉ t) /\ lower t = t) (titles_list job_titles).
Proof.
  unfold titles_list. rewrite Forall_forall. intros t Ht.
  apply list_elem_of_fmap in Ht as (piece & -> & Hp).
  apply list_elem_of_filter in Hp as [Htr Hp].
  split; [|split].
  - apply Is_true_true, truthy_nonempty in Htr.
    intros E. apply Htr. unfold lower in E. by apply map_eq_nil in E.
  - intros Hc. unfold lower in Hc.
    apply list_elem_of_fmap in Hc as (c & Hc & Hin). symmetry in Hc.
    apply lower_char_comma in Hc. subst c. apply strip_elem in Hin.
    pose proof (split_on_free (ch ",") job_titles) as Hfree.
    rewrite Forall_forall in Hfree. by apply (Hfree piece).
  - apply lower_idem.
Qed.

End SearchFacts.

Section SearchResults.
Import Py Search Matcher Filter.
Context `{Vectorizer} `{Calendar} `{FrameSort}.
Variable possessive : bool.
Variable web : Scraper.Web.

Lemma submseteq_NoDup {A} (l k : list A) : l ⊆+ k -> NoDup k -> NoDup l.
Proof.
  intros (l2 & Hs & Hp)%submseteq_sublist_l Hk.
  rewrite <- Hp in Hk. clear Hp. induction Hs as [|x l1 l2 Hs IH|x l1 l2 Hs IH].
  - constructor.
  - apply NoDup_cons in Hk as [Hx Hk]. apply NoDup_cons. split; [|by apply IH].
    intros Hin. apply Hx. by eapply elem_of_sublist.
  - apply NoDup_cons in Hk as [_ Hk]. by apply IH.
Qed.

Lemma score_jobs_jobs cv jobs : map job (score_jobs cv jobs) = jobs.
Proof. unfold score_jobs. rewrite map_map. simpl. apply map_id. Qed.

(** The key the de-duplication gives a job, read off a row. *)
Definition row_key (r : row) : str :=
  lower (Title (job r)) ++ u "_" ++ lower (Company (job r)).

(** X24: What a completed search returns: every row has a url, no two rows
    share a url, and no two share the lower-cased title and company; the
    scoring and the filter that follow the aggregator bring no duplicate
    back. *)
Theorem X24_search_results_distinct cv remote_type min_match max_days exclude_keywords
    job_titles jobs_df :
  find_my_jobs possessive web (Some cv) remote_type min_match max_days exclude_keywords
    job_titles = Ok (search_complete jobs_df) ->
  Forall (fun r => URL (job r) <> []) jobs_df
  /\ NoDup (map (fun r => URL (job r)) jobs_df)
  /\ NoDup (map row_key jobs_df).
Proof.
  unfold find_my_jobs.
  destruct (negb (truthy (strip job_titles))); [done|].
  set (titles := titles_list job_titles).
  destruct (Scraper.scrape_all web (Some titles)) as [|j js] eqn:Ej; [done|].
  destruct (apply_all_filters _ _ _ _ _ _ _) as [out|e] eqn:Ef; simpl; [|done].
  intros [= <-].
  apply apply_all_filters_jobs in Ef. unfold jobs_within in Ef.
  change (job <$> score_jobs cv (map normalize (j :: js)))
    with (map job (score_jobs cv (map normalize (j :: js)))) in Ef.
  rewrite score_jobs_jobs, <- Ej in Ef.
  pose proof (remove_duplicates_inv
                (Scraper.keyword_filter (Some titles) (Scraper.collect web (Some titles))))
    as [_ _ Hurl Hkey Htruthy].
  change (Scraper.unique_jobs _) with (Scraper.scrape_all web (Some titles))
    in Hurl, Hkey, Htruthy.
  split; [|split].
  - rewrite Forall_forall in Htruthy. rewrite Forall_forall. intros r Hr.
    assert (job r ∈ map normalize (Scraper.scrape_all web (Some titles))) as Hin.
    { eapply elem_of_submseteq; [|exact Ef]. by apply list_elem_of_fmap_2. }
    apply list_elem_of_fmap in Hin as (j0 & -> & Hj0). simpl. by apply Htruthy.
  - apply (fmap_submseteq URL) in Ef.
    apply submseteq_NoDup in Ef.
    + by rewrite <- list_fmap_compose in Ef.
    + rewrite <- list_fmap_compose. exact Hurl.
  - apply (fmap_submseteq (fun l => lower (Title l) ++ u "_" ++ lower (Company l))) in Ef.
    apply submseteq_NoDup in Ef.
    + by rewrite <- list_fmap_compose in Ef.
    + rewrite <- list_fmap_compose. exact Hkey.
Qed.

End SearchResults.

Section SearchKeywords.
Import Py Filter.
Context `{Calendar} `{FrameSort}.

(** The pattern the boost makes of the search keywords. *)
Definition search_pattern (search_keywords : list str) : str :=
  join (u "|")
    (map (fun kw => lower (strip kw)) (filter (fun kw => truthy (strip kw)) search_keywords)).

(** X25: The boost joins the search keywords, as typed, into one pattern: when
    that pattern does not compile, [apply_all_filters] raises the
    compilation error on every non-empty frame. *)
Theorem X25_unescaped_search_keyword_raises possessive remote_type r rs max_days min_score
    ek k ks e :
  truthy (search_pattern (k :: ks)) = true ->
  Re.compile possessive (search_pattern (k :: ks)) = Raise e ->
  apply_all_filters possessive remote_type (r :: rs) max_days min_score ek (Some (k :: ks))
  = Raise e.
Proof.
  unfold search_pattern. intros Ht Hc.
  unfold apply_all_filters, keyword_boost. rewrite Ht.
  unfold str_contains. by rewrite Hc.
Qed.

End SearchKeywords.

Section SearchAtWork.
Import Py Search Matcher Filter Sorts.
Local Open Scope Q_scope.

(** A search for "engineer" on the web where three sources fail. *)
Definition engineer_search : list row :=
  Eval vm_compute in
    match find_my_jobs (H := disjoint_vectorizer) (H0 := stopped_calendar)
            (H1 := stable_sort) true flaky_web (Some four_years) (u "All Remote") 20 14
            (u "senior, lead") (u "engineer") with
    | Ok (search_complete jobs_df) => jobs_df
    | _ => []
    end.

Lemma X24_search_results_distinct_witness :
  Forall (fun r => URL (job r) <> []) engineer_search
  /\ NoDup (map (fun r => URL (job r)) engineer_search)
  /\ NoDup (map row_key engineer_search).
Proof.
  apply (@X24_search_results_distinct disjoint_vectorizer stopped_calendar stable_sort true
           flaky_web four_years (u "All Remote") 20%Z 14%Z (u "senior, lead") (u "engineer")
           engineer_search).
  vm_compute. reflexivity.
Defined.

(** A search for "data analyst)" on Python 3.11 and later. *)
Lemma X25_unescaped_search_keyword_raises_witness :
  apply_all_filters (H := stopped_calendar) (H0 := stable_sort) true any_remote five_ties
    14 50 None (Some [u "Data Analyst)"])
  = Raise (re_error "unbalanced parenthesis").
Proof.
  apply (@X25_unescaped_search_keyword_raises stopped_calendar stable_sort true any_remote
           (posting "Analyst" "Lagos" 60)
           [posting "Builder" "Berlin" 60; posting "Curator" "Lima" 60;
            posting "Designer" "Oslo" 60; posting "Editor" "Pune" 60]
           14%Z 50 None (u "Data Analyst)") [] (re_error "unbalanced parenthesis")).
  - vm_compute. reflexivity.
  - vm_compute. reflexivity.
Defined.

End SearchAtWork.

(** ** What a match of the matcher is made of *)

Section MatcherSemantics.
Import Py Re.

(** [reach r st st1]: [st1] is a position the matcher can reach from [st]
    by matching [r].  The relation leaves out the order in which the
    matcher tries the ways to match, the upper bound of a repetition and
    its rule against empty turns: it holds of every match the matcher
    finds, which is what the shape of the captured text needs. *)
Inductive reach : regex -> mstate -> mstate -> Prop :=
| reach_eps st : reach Eps st st
| reach_lit c s' st :
    rest st = c :: s' -> reach (Lit c) st (MState (Some c) s' (caps st))
| reach_any c s' st :
    rest st = c :: s' -> reach Any st (MState (Some c) s' (caps st))
| reach_in neg items c s' st :
    rest st = c :: s' -> xorb neg (existsb (in_item c) items) = true ->
    reach (In neg items) st (MState (Some c) s' (caps st))
| reach_at a st : at_anchor a st = true -> reach (At a) st st
| reach_seq r1 r2 st st1 st2 :
    reach r1 st st1 -> reach r2 st1 st2 -> reach (Seq r1 r2) st st2
| reach_alt_l r1 r2 st st1 : reach r1 st st1 -> reach (Alt r1 r2) st st1
| reach_alt_r r1 r2 st st1 : reach r2 st st1 -> reach (Alt r1 r2) st st1
| reach_group_none r st st1 : reach r st st1 -> reach (Group None r) st st1
| reach_group i r st st1 :
    reach r st st1 ->
    reach (Group (Some i) r) st
          (MState (prev st1) (rest st1) ((i, consumed st st1) :: caps st1))
| reach_rep_stop hi m r st : reach (Repeat 0 hi m r) st st
| reach_rep_more lo hi m r st st1 st2 :
    reach r st st1 -> reach (Repeat (Nat.pred lo) hi m r) st1 st2 ->
    reach (Repeat lo hi m r) st st2.

(** The loop of a repetition, over the matcher [m] of its body. *)
Definition rep_loop (m : mstate -> (mstate -> option mstate) -> option mstate)
    (lo : nat) (hi : option nat) (mode : rep_mode) :=
  fix loop (fuel count : nat) (st0 : mstate) (kk : mstate -> option mstate)
      {struct fuel} : option mstate :=
    let stop := fun _ : unit => if lo <=? count then kk st0 else None in
    match fuel with
    | O => stop tt
    | S fuel' =>
        let more := fun _ : unit =>
          if below count hi then
            m st0 (fun st1 =>
              if (count <? lo) || progressed st0 st1
              then loop fuel' (S count) st1 kk
              else None)
          else None in
        match mode with
        | Lazy =>
            match stop tt with
            | Some x => Some x
            | None => more tt
            end
        | Greedy | Possessive =>
            match more tt with
            | Some x => Some x
            | None => stop tt
            end
        end
    end.

Lemma rmatch_repeat lo hi mode r1 st k :
  rmatch (Repeat lo hi mode r1) st k =
  match mode with
  | Possessive =>
      match rep_loop (rmatch r1) lo hi mode (S (length (rest st) + lo)) 0 st Some with
      | Some st1 => k st1
      | None => None
      end
  | Greedy | Lazy => rep_loop (rmatch r1) lo hi mode (S (length (rest st) + lo)) 0 st k
  end.
Proof. reflexivity. Qed.

Definition sound (r : regex) (m : mstate -> (mstate -> option mstate) -> option mstate)
  : Prop :=
  forall st k res, m st k = Some res -> exists st1, reach r st st1 /\ k st1 = Some res.

Lemma rep_loop_sound m r1 lo hi mode :
  sound r1 m ->
  forall fuel count st0 kk res,
    rep_loop m lo hi mode fuel count st0 kk = Some res ->
    exists st1, reach (Repeat (lo - count) hi mode r1) st0 st1 /\ kk st1 = Some res.
Proof.
  intros Hm.
  assert (forall count st0 (kk : mstate -> option mstate) res,
            (if lo <=? count then kk st0 else None) = Some res ->
            exists st1, reach (Repeat (lo - count) hi mode r1) st0 st1 /\ kk st1 = Some res)
    as Hstop.
  { intros count st0 kk res. destruct (Nat.leb_spec lo count) as [Hle|]; [|done].
    intros Hk. exists st0. split; [|done].
    replace (lo - count) with 0 by lia. constructor. }
  induction fuel as [|fuel IH]; intros count st0 kk res; simpl; [apply Hstop|].
  assert ((if below count hi
           then m st0 (fun st1 =>
                  if (count <? lo) || progressed st0 st1
                  then rep_loop m lo hi mode fuel (S count) st1 kk else None)
           else None) = Some res ->
          exists st1, reach (Repeat (lo - count) hi mode r1) st0 st1 /\ kk st1 = Some res)
    as Hmore.
  { destruct (below count hi); [|done]. intros Hr.
    apply Hm in Hr as (st1 & Hr1 & Hk).
    destruct ((count <? lo) || progressed st0 st1); [|done].
    apply IH in Hk as (st2 & Hr2 & Hk). exists st2. split; [|done].
    apply (reach_rep_more _ _ _ _ _ st1); [done|].
    by replace (Nat.pred (lo - count)) with (lo - S count) by lia. }
  destruct mode.
  - destruct (if below count hi then _ else _) as [x|] eqn:E.
    + intros [= <-]. by apply Hmore.
    + apply Hstop.
  - destruct (if lo <=? count then _ else _) as [x|] eqn:E.
    + intros [= <-]. by apply Hstop.
    + apply Hmore.
  - destruct (if below count hi then _ else _) as [x|] eqn:E.
    + intros [= <-]. by apply Hmore.
    + apply Hstop.
Qed.

Lemma step_char_sound ok st k res :
  step_char ok st k = Some res ->
  exists c s', rest st = c :: s' /\ ok c = true /\ k (MState (Some c) s' (caps st)) = Some res.
Proof.
  unfold step_char. destruct (rest st) as [|c s']; [done|].
  destruct (ok c) eqn:E; [|done]. eauto.
Qed.

(** Every match the matcher finds is one of [reach]. *)
Lemma rmatch_sound r : sound r (rmatch r).
Proof.
  unfold sound. induction r as [| c | | neg items | a | r1 IH1 r2 IH2 | r1 IH1 r2 IH2
                               | idx r1 IH1 | lo hi mode r1 IH1]; intros st k res.
  - simpl. intros Hk. exists st. split; [constructor | done].
  - simpl. intros (x & s' & Hr & Hx & Hk)%step_char_sound.
    apply N.eqb_eq in Hx. subst x. eexists. split; [by constructor | done].
  - simpl. intros (x & s' & Hr & Hx & Hk)%step_char_sound.
    eexists. split; [by apply (reach_any x s') | done].
  - simpl. intros (x & s' & Hr & Hx & Hk)%step_char_sound.
    eexists. split; [by apply (reach_in _ _ x s') | done].
  - simpl. destruct (at_anchor a st) eqn:E; [|done].
    intros Hk. exists st. split; [by constructor | done].
  - simpl. intros (st1 & Hr1 & Hk)%IH1. apply IH2 in Hk as (st2 & Hr2 & Hk).
    exists st2. split; [by apply (reach_seq _ _ _ st1) | done].
  - simpl. destruct (rmatch r1 st k) as [x|] eqn:E.
    + intros [= <-]. apply IH1 in E as (st1 & Hr1 & Hk).
      exists st1. split; [by apply reach_alt_l | done].
    + intros (st1 & Hr1 & Hk)%IH2. exists st1. split; [by apply reach_alt_r | done].
  - destruct idx as [i|]; simpl.
    + intros (st1 & Hr1 & Hk)%IH1. eexists. split; [by apply reach_group | done].
    + intros (st1 & Hr1 & Hk)%IH1. exists st1. split; [by apply reach_group_none | done].
  - rewrite rmatch_repeat. destruct mode.
    + intros (st1 & Hr & Hk)%(rep_loop_sound _ r1); [|exact IH1].
      rewrite Nat.sub_0_r in Hr. eauto.
    + intros (st1 & Hr & Hk)%(rep_loop_sound _ r1); [|exact IH1].
      rewrite Nat.sub_0_r in Hr. eauto.
    + destruct (rep_loop _ _ _ _ _ _ _ _) as [st1|] eqn:E; [|done].
      apply (rep_loop_sound _ r1) in E as (st1' & Hr & [= ->]); [|exact IH1].
      rewrite Nat.sub_0_r in Hr. eauto.
Qed.

End MatcherSemantics.

(** ** The text a group can capture *)

Section CapturedText.
Import Py Re.

Definition digit_item (i : set_item) : bool :=
  match i with
  | SChar c => is_digit c
  | SRange lo hi => is_digit lo && is_digit hi
  | SCat Digit => true
  | SCat _ => false
  end.

(** [r] matches decimal digits only. *)
Fixpoint digits_only (r : regex) : bool :=
  match r with
  | Eps | At _ => true
  | Lit c => is_digit c
  | Any => false
  | In neg items => negb neg && forallb digit_item items
  | Seq a b | Alt a b => digits_only a && digits_only b
  | Group _ a | Repeat _ _ _ a => digits_only a
  end.

(** [r] matches no empty text. *)
Fixpoint consumes (r : regex) : bool :=
  match r with
  | Lit _ | Any | In _ _ => true
  | Eps | At _ => false
  | Seq a b => consumes a || consumes b
  | Alt a b => consumes a && consumes b
  | Group _ a => consumes a
  | Repeat lo _ _ a => (0 <? lo) && consumes a
  end.

(** The one text [r] matches, when [r] is a word. *)
Fixpoint literal (r : regex) : option str :=
  match r with
  | Eps => Some []
  | Lit c => Some [c]
  | Seq a b =>
      match literal a, literal b with
      | Some v, Some w => Some (v ++ w)
      | _, _ => None
      end
  | Group None a => literal a
  | _ => None
  end.

Fixpoint no_groups (r : regex) : bool :=
  match r with
  | Seq a b | Alt a b => no_groups a && no_groups b
  | Group (Some _) _ => false
  | Group None a | Repeat _ _ _ a => no_groups a
  | _ => true
  end.

Lemma digit_item_in c i : digit_item i = true -> in_item c i = true -> is_digit c = true.
Proof.
  destruct i as [a|lo hi|[]]; simpl; try done.
  - intros Ha ->%N.eqb_eq. done.
  - unfold is_digit. intros [Hlo Hhi]%andb_true_iff [H1 H2]%andb_true_iff.
    apply andb_true_iff in Hlo as [Hlo _]. apply andb_true_iff in Hhi as [_ Hhi].
    apply N.leb_le in Hlo, Hhi, H1, H2. apply andb_true_iff. split; apply N.leb_le; lia.
Qed.

(** The text between two positions of a match, and what the pattern says
    of it. *)
Lemma reach_span r st st1 :
  reach r st st1 ->
  exists w, rest st = w ++ rest st1
            /\ (digits_only r = true -> forallb is_digit w = true)
            /\ (consumes r = true -> w <> [])
            /\ (forall v, literal r = Some v -> w = v).
Proof.
  induction 1 as [st | c s' st Hr | c s' st Hr | neg items c s' st Hr Hin | a st Ha
                 | r1 r2 st st1 st2 _ IH1 _ IH2 | r1 r2 st st1 _ IH | r1 r2 st st1 _ IH
                 | r st st1 _ IH | i r st st1 _ IH | hi m r st
                 | lo hi m r st st1 st2 _ IH1 _ IH2];
    cbn [digits_only consumes literal rest].
  - exists []. repeat split; try done. by intros v [= <-].
  - exists [c]. rewrite Hr. repeat split; try done.
    + intros Hd. change (is_digit c && true = true). by rewrite Hd.
    + by intros v [= <-].
  - exists [c]. rewrite Hr. repeat split; done.
  - exists [c]. rewrite Hr. repeat split; try done.
    intros [Hneg Hall]%andb_true_iff. apply negb_true_iff in Hneg. subst neg.
    simpl in Hin. apply existsb_exists in Hin as (i & Hi & Hc).
    rewrite forallb_forall in Hall.
    change (is_digit c && true = true). by rewrite (digit_item_in c i (Hall i Hi) Hc).
  - exists []. repeat split; done.
  - destruct IH1 as (w1 & E1 & D1 & C1 & L1), IH2 as (w2 & E2 & D2 & C2 & L2).
    exists (w1 ++ w2). split; [by rewrite E1, E2, app_assoc|]. split; [|split].
    + intros [Ha Hb]%andb_true_iff. by rewrite forallb_app, (D1 Ha), (D2 Hb).
    + intros Hc Hnil. apply app_eq_nil in Hnil as [? ?].
      apply orb_true_iff in Hc as [Ha|Hb]; [by apply (C1 Ha) | by apply (C2 Hb)].
    + intros v. destruct (literal r1) as [v1|]; [|done].
      destruct (literal r2) as [v2|]; [|done]. intros [= <-].
      by rewrite (L1 v1), (L2 v2).
  - destruct IH as (w & E & D & C & L). exists w. repeat split; try done.
    + by intros [Ha _]%andb_true_iff; apply D.
    + by intros [Ha _]%andb_true_iff; apply C.
  - destruct IH as (w & E & D & C & L). exists w. repeat split; try done.
    + by intros [_ Hb]%andb_true_iff; apply D.
    + by intros [_ Hb]%andb_true_iff; apply C.
  - exact IH.
  - destruct IH as (w & E & D & C & L). exists w. repeat split; done.
  - exists []. repeat split; done.
  - destruct IH1 as (w1 & E1 & D1 & C1 & L1), IH2 as (w2 & E2 & D2 & C2 & L2).
    exists (w1 ++ w2). split; [by rewrite E1, E2, app_assoc|]. split; [|split].
    + intros Hd. by rewrite forallb_app, (D1 Hd), (D2 Hd).
    + intros [_ Hc]%andb_true_iff Hnil. apply app_eq_nil in Hnil as [? ?].
      by apply (C1 Hc).
    + done.
Qed.

Lemma consumed_span st st1 w : rest st = w ++ rest st1 -> consumed st st1 = w.
Proof.
  intros E. unfold consumed. rewrite E, length_app.
  replace (length w + length (rest st1) - length (rest st1)) with (length w) by lia.
  by rewrite take_app_length.
Qed.

Lemma reach_suffix r st st1 : reach r st st1 -> rest st1 `suffix_of` rest st.
Proof. intros (w & E & _)%reach_span. by exists w. Qed.

Lemma reach_caps_same r st st1 :
  reach r st st1 -> no_groups r = true -> caps st1 = caps st.
Proof.
  induction 1 as [st | c s' st Hr | c s' st Hr | neg items c s' st Hr Hin | a st Ha
                 | r1 r2 st st1 st2 _ IH1 _ IH2 | r1 r2 st st1 _ IH | r1 r2 st st1 _ IH
                 | r st st1 _ IH | i r st st1 _ IH | hi m r st
                 | lo hi m r st st1 st2 _ IH1 _ IH2]; simpl; try done.
  - intros [Ha Hb]%andb_true_iff. by rewrite IH2, IH1.
  - intros [Ha Hb]%andb_true_iff. by apply IH.
  - intros [Ha Hb]%andb_true_iff. by apply IH.
  - intros Hn. by rewrite IH2, IH1.
Qed.

(** The capturing groups of a pattern whose groups lie along its
    sequence, each with its body, in the order they are captured. *)
Fixpoint spine (r : regex) : option (list (nat * regex)) :=
  match r with
  | Seq a b =>
      match spine a, spine b with
      | Some x, Some y => Some (x ++ y)
      | _, _ => None
      end
  | Group (Some i) a => if no_groups a then Some [(i, a)] else None
  | _ => if no_groups r then Some [] else None
  end.

(** The capture [c] is of the group [g]: its text lies between two
    positions of a match of the body, at or after [st]. *)
Definition group_match (st : mstate) (g : nat * regex) (c : nat * str) : Prop :=
  g.1 = c.1
  /\ exists sta stb,
       rest sta `suffix_of` rest st /\ reach g.2 sta stb /\ c.2 = consumed sta stb.

Lemma group_match_suffix st st' g c :
  rest st' `suffix_of` rest st -> group_match st' g c -> group_match st g c.
Proof.
  intros Hs (Hi & sta & stb & Ha & Hr & Hc). split; [done|].
  exists sta, stb. split; [by etrans|done].
Qed.

Lemma reach_flat r st st1 gs :
  reach r st st1 ->
  (if no_groups r then Some [] else None) = Some gs ->
  exists cs, caps st1 = rev cs ++ caps st /\ Forall2 (group_match st) gs cs.
Proof.
  intros Hr. destruct (no_groups r) eqn:E; [|done]. intros [= <-].
  exists []. split; [by apply (reach_caps_same r) | constructor].
Qed.

Lemma reach_spine r st st1 :
  reach r st st1 ->
  forall gs, spine r = Some gs ->
  exists cs, caps st1 = rev cs ++ caps st /\ Forall2 (group_match st) gs cs.
Proof.
  induction 1 as [st | c s' st Hr | c s' st Hr | neg items c s' st Hr Hin | a st Ha
                 | r1 r2 st st1 st2 H1 IH1 H2 IH2 | r1 r2 st st1 H1 IH | r1 r2 st st1 H1 IH
                 | r st st1 H1 IH | i r st st1 H1 IH | hi m r st
                 | lo hi m r st st1 st2 H1 IH1 H2 IH2]; intros gs Hs.
  - eapply reach_flat; [constructor | exact Hs].
  - eapply reach_flat; [by constructor | exact Hs].
  - eapply reach_flat; [by apply (reach_any c s') | exact Hs].
  - eapply reach_flat; [by apply (reach_in neg items c s') | exact Hs].
  - eapply reach_flat; [by constructor | exact Hs].
  - simpl in Hs. destruct (spine r1) as [x|] eqn:E1; [|done].
    destruct (spine r2) as [y|] eqn:E2; [|done]. injection Hs as <-.
    destruct (IH1 x eq_refl) as (c1 & Ec1 & F1).
    destruct (IH2 y eq_refl) as (c2 & Ec2 & F2).
    exists (c1 ++ c2). split.
    + by rewrite Ec2, Ec1, rev_app_distr, app_assoc.
    + apply Forall2_app; [done|].
      eapply Forall2_impl; [exact F2|]. intros g c. apply group_match_suffix.
      by apply (reach_suffix r1).
  - eapply reach_flat; [by apply reach_alt_l | exact Hs].
  - eapply reach_flat; [by apply reach_alt_r | exact Hs].
  - eapply reach_flat; [by apply reach_group_none | exact Hs].
  - simpl in Hs. destruct (no_groups r) eqn:E; [|done]. injection Hs as <-.
    exists [(i, consumed st st1)]. split.
    + simpl. by rewrite (reach_caps_same r st st1).
    + constructor; [|constructor]. split; [done|]. by exists st, st1.
  - eapply reach_flat; [by apply reach_rep_stop | exact Hs].
  - eapply reach_flat; [by apply (reach_rep_more lo hi m r st st1 st2) | exact Hs].
Qed.

End CapturedText.

(** ** When the years extractor returns *)

Section YearsTotal.
Import Py Re CVParser.

(** A text [int] converts: one decimal digit or more. *)
Definition numeral (t : str) : Prop := t <> [] /\ forallb is_digit t = true.

Lemma numeral_digit t : numeral t -> exists c, c ∈ t /\ is_digit c = true.
Proof.
  intros [Hne Hd]. destruct t as [|c t]; [done|]. exists c. split; [by left|].
  simpl in Hd. by apply andb_true_iff in Hd as [? _].
Qed.

Lemma int_numeral limit t :
  numeral t -> exceeds_limit limit t = false -> int limit t = Ok (int_digits t 0%Z).
Proof.
  intros [Hne Hd] Hl. unfold int. destruct t as [|c t]; [done|].
  by rewrite Hd, Hl.
Qed.

(** The body of a group matches digits, or one of [words]. *)
Fixpoint text_shape (words : list str) (a : regex) : bool :=
  match a with
  | Alt x y => text_shape words x && text_shape words y
  | _ =>
      digits_only a && consumes a
      || match literal a with
         | Some v => bool_decide (v ∈ words)
         | None => false
         end
  end.

Lemma reach_text_plain (words : list str) a sta stb :
  reach a sta stb ->
  digits_only a && consumes a
  || match literal a with
     | Some v => bool_decide (v ∈ words)
     | None => false
     end = true ->
  numeral (consumed sta stb) \/ consumed sta stb ∈ words.
Proof.
  intros (w & E & D & C & L)%reach_span Hs. rewrite (consumed_span _ _ _ E).
  apply orb_true_iff in Hs as [[Hd Hc]%andb_true_iff|Hl].
  - left. split; auto.
  - right. destruct (literal a) as [v|]; [|done].
    apply bool_decide_eq_true in Hl. by rewrite (L v).
Qed.

Lemma reach_text_shape (words : list str) a : forall sta stb,
  reach a sta stb -> text_shape words a = true ->
  numeral (consumed sta stb) \/ consumed sta stb ∈ words.
Proof.
  induction a as [| c | | neg items | an | r1 IH1 r2 IH2 | r1 IH1 r2 IH2
                 | idx r1 IH1 | lo hi mode r1 IH1]; intros sta stb Hr Hs;
    try (by apply (reach_text_plain words _ _ _ Hr)).
  simpl in Hs. apply andb_true_iff in Hs as [H1 H2].
  inversion Hr; subst; [by apply IH1 | by apply IH2].
Qed.

(** What the scanner returns: for each match, the text of the groups at
    the end of a match that started at some position of the text. *)
Lemma match_at_reach r p s adv st1 :
  match_at r p s adv = Some st1 -> reach r (MState p s []) st1.
Proof.
  unfold match_at. intros (st & Hr & Hk)%rmatch_sound.
  destruct (adv && _); [done|]. by injection Hk as <-.
Qed.

Lemma search_from_sound r s : forall p adv start st1,
  search_from r p s adv = Some (start, st1) ->
  start `suffix_of` s /\ exists p', reach r (MState p' start []) st1.
Proof.
  induction s as [|c s IH]; intros p adv start st1; simpl.
  - destruct (match_at r p [] adv) as [st|] eqn:E; [|done].
    intros [= <- <-]. split; [done|]. exists p. by apply (match_at_reach _ _ _ adv).
  - destruct (match_at r p (c :: s) adv) as [st|] eqn:E.
    + intros [= <- <-]. split; [done|]. exists p. by apply (match_at_reach _ _ _ adv).
    + intros (Hs & Hr)%IH. split; [|done]. by apply suffix_cons_r.
Qed.

Definition scanned (r : regex) (ng : nat) (text : str) (item : list str) : Prop :=
  exists p start st1,
    start `suffix_of` text /\ reach r (MState p start []) st1
    /\ item = map (group_text st1) (seq 1 ng).

Lemma scan_sound r ng text : forall fuel p s adv,
  s `suffix_of` text ->
  Forall (scanned r (S ng) text) (scan fuel r (S ng) p s adv).
Proof.
  induction fuel as [|fuel IH]; intros p s adv Hs; simpl; [constructor|].
  destruct (search_from r p s adv) as [[start st1]|] eqn:E; [|constructor].
  apply search_from_sound in E as (Hstart & p' & Hr).
  constructor.
  - exists p', start, st1. split; [by etrans|done].
  - apply IH. apply reach_suffix in Hr. simpl in Hr. etrans; [exact Hr|]. by etrans.
Qed.

Lemma findall_scanned possessive pattern text r ng items :
  compile possessive pattern = Ok (r, S ng) ->
  findall possessive pattern text = Ok items ->
  Forall (scanned r (S ng) text) items.
Proof.
  unfold findall. intros ->. simpl. intros [= <-]. by apply scan_sound.
Qed.

Variable possessive : bool.

(** Each of the three patterns has one group, along its sequence, whose
    body matches one digit or more. *)
Lemma patterns_shape p :
  p ∈ patterns ->
  exists r D, compile possessive p = Ok (r, 1)
              /\ spine r = Some [(1, D)] /\ text_shape [] D = true.
Proof.
  unfold patterns. rewrite !elem_of_cons, elem_of_nil.
  intros [->|[->|[->|[]]]]; destruct possessive;
    eexists _, _; (split; [vm_compute; reflexivity|]);
    (split; vm_compute; reflexivity).
Qed.

(** The date pattern has two: a year, then a year or one of two words. *)
Lemma date_pattern_shape :
  exists r Y E, compile possessive date_pattern = Ok (r, 2)
                /\ spine r = Some [(1, Y); (2, E)]
                /\ text_shape [] Y = true
                /\ text_shape (strs ["present"; "current"]) E = true.
Proof.
  destruct possessive; eexists _, _, _; (split; [vm_compute; reflexivity|]);
    (split; [vm_compute; reflexivity|]); (split; vm_compute; reflexivity).
Qed.

(** [t] is a piece of [text]. *)
Definition from_text (text t : str) : Prop := exists k1 k2, text = k1 ++ t ++ k2.

Lemma from_text_elem text t x : from_text text t -> x ∈ t -> x ∈ text.
Proof. intros (k1 & k2 & ->) Hx. rewrite !elem_of_app. auto. Qed.

Lemma from_text_length text t : from_text text t -> length t <= length text.
Proof. intros (k1 & k2 & ->). rewrite !length_app. lia. Qed.

(** The text of a group is a piece of the text searched. *)
Lemma group_match_within text p start g c :
  start `suffix_of` text ->
  group_match (MState p start []) g c -> from_text text c.2.
Proof.
  intros [k1 ->] (_ & sta & stb & [k2 Hk2] & Hr & ->). simpl in Hk2.
  apply reach_span in Hr as (w & E & _). rewrite (consumed_span _ _ _ E).
  exists (k1 ++ k2), (rest stb). by rewrite Hk2, E, <- app_assoc.
Qed.

Lemma findall1_shape p text m :
  p ∈ patterns -> findall1 possessive p text = Ok m ->
  Forall (fun t => numeral t /\ from_text text t) m.
Proof.
  intros (r & D & Hc & Hs & Ht)%patterns_shape. unfold findall1.
  destruct (findall possessive p text) as [items|e] eqn:Ef; simpl; [|done].
  intros [= <-]. apply (findall_scanned _ _ _ _ _ _ Hc) in Ef.
  rewrite Forall_forall in Ef. rewrite Forall_forall. intros t Hin.
  apply list_elem_of_fmap in Hin as (item & -> & Hitem).
  destruct (Ef item Hitem) as (p' & start & st1 & Hsuf & Hr & ->).
  destruct (reach_spine _ _ _ Hr _ Hs) as (cs & Ecs & F).
  apply Forall2_cons_inv_l in F as ([i t] & cs' & G & F & ->).
  apply Forall2_nil_inv_l in F as ->.
  pose proof (group_match_within text _ _ _ _ Hsuf G) as Hwithin.
  destruct G as (Hi & sta & stb & _ & Hrd & Hct). simpl in Hi, Hct, Hwithin. subst i.
  simpl. unfold group_text. rewrite Ecs. simpl. split; [|exact Hwithin].
  rewrite Hct. destruct (reach_text_shape [] D _ _ Hrd Ht) as [?|Hn]; [done|].
  by apply elem_of_nil in Hn.
Qed.

Lemma findall2_shape text m :
  findall2 possessive date_pattern text = Ok m ->
  Forall (fun '(start, end_) =>
            (numeral start /\ from_text text start)
            /\ (numeral end_ /\ from_text text end_
                \/ end_ ∈ strs ["present"; "current"])) m.
Proof.
  destruct date_pattern_shape as (r & Y & E & Hc & Hs & HY & HE). unfold findall2.
  destruct (findall possessive date_pattern text) as [items|e] eqn:Ef; simpl; [|done].
  intros [= <-]. apply (findall_scanned _ _ _ _ _ _ Hc) in Ef.
  rewrite Forall_forall in Ef. rewrite Forall_forall. intros t Hin.
  apply list_elem_of_fmap in Hin as (item & -> & Hitem).
  destruct (Ef item Hitem) as (p' & start & st1 & Hsuf & Hr & ->).
  destruct (reach_spine _ _ _ Hr _ Hs) as (cs & Ecs & F).
  apply Forall2_cons_inv_l in F as ([i1 t1] & cs' & G1 & F & ->).
  apply Forall2_cons_inv_l in F as ([i2 t2] & cs'' & G2 & F & ->).
  apply Forall2_nil_inv_l in F as ->.
  pose proof (group_match_within text _ _ _ _ Hsuf G1) as Hwithin1.
  pose proof (group_match_within text _ _ _ _ Hsuf G2) as Hwithin2.
  destruct G1 as (Hi1 & sta1 & stb1 & _ & Hr1 & Hc1).
  destruct G2 as (Hi2 & sta2 & stb2 & _ & Hr2 & Hc2).
  simpl in Hi1, Hi2, Hc1, Hc2, Hwithin1, Hwithin2. subst i1 i2.
  simpl. unfold group_text. rewrite Ecs. simpl. split; [split; [|exact Hwithin1]|].
  - rewrite Hc1. destruct (reach_text_shape [] Y _ _ Hr1 HY) as [?|Hn]; [done|].
    by apply elem_of_nil in Hn.
  - destruct (reach_text_shape _ E _ _ Hr2 HE) as [Hn|Hw].
    + left. split; [by rewrite Hc2 | exact Hwithin2].
    + right. by rewrite Hc2.
Qed.

Variable int_max_str_digits : nat.

(** No piece of [text] has more digits than [int] converts. *)
Definition within_limit (text : str) : Prop :=
  int_max_str_digits = 0 \/ length text <= int_max_str_digits.

Lemma within_limit_piece text t :
  within_limit text -> from_text text t -> exceeds_limit int_max_str_digits t = false.
Proof.
  intros Hl Ht%from_text_length. unfold exceeds_limit.
  destruct Hl as [->|Hl]; [by rewrite andb_false_r|].
  apply andb_false_iff. right. apply Nat.ltb_ge. lia.
Qed.

Lemma mapM_int_ok text m :
  within_limit text -> Forall (fun t => numeral t /\ from_text text t) m ->
  exists ns, mapM (int int_max_str_digits) m = Ok ns.
Proof.
  intros Hl. induction 1 as [|t m [Hn Hf] _ [ns IH]]; simpl; [eauto|].
  rewrite (int_numeral _ t Hn (within_limit_piece _ _ Hl Hf)), IH. simpl. eauto.
Qed.

Lemma years_step_ok text y p :
  within_limit text -> p ∈ patterns ->
  exists y', years_step possessive int_max_str_digits text y p = Ok y'.
Proof.
  intros Hl Hp. destruct (findall1_ok possessive p text Hp) as [m Hm].
  pose proof (findall1_shape _ _ _ Hp Hm) as Hshape.
  unfold years_step. rewrite Hm. cbn [bind]. destruct m as [|t m]; [eauto|].
  destruct (mapM_int_ok text (t :: m) Hl Hshape) as [ns ->]. cbn [bind]. eauto.
Qed.

Lemma years_loop_ok text ps : forall y,
  within_limit text -> (forall p, p ∈ ps -> p ∈ patterns) ->
  exists y', years_loop possessive int_max_str_digits text y ps = Ok y'.
Proof.
  induction ps as [|p ps IH]; intros y Hl Hps; simpl; [eauto|].
  destruct (years_step_ok text y p Hl) as [y1 ->]; [apply Hps; by left|]. simpl.
  apply IH; [done|]. intros q Hq. apply Hps. by right.
Qed.

Lemma range_loop_ok text ranges : forall total,
  within_limit text ->
  Forall (fun '(start, end_) =>
            (numeral start /\ from_text text start)
            /\ (numeral end_ /\ from_text text end_
                \/ end_ ∈ strs ["present"; "current"])) ranges ->
  exists total', range_loop int_max_str_digits total ranges = Ok total'.
Proof.
  induction ranges as [|[s e] ranges IH]; intros total Hl Hr; simpl; [eauto|].
  apply Forall_cons_1 in Hr as [[[Hs Hfs] He] Hr].
  rewrite (int_numeral _ s Hs (within_limit_piece _ _ Hl Hfs)). simpl.
  destruct (bool_decide (e ∈ strs ["present"; "current"])) eqn:Eb; simpl.
  - by apply IH.
  - apply bool_decide_eq_false in Eb. destruct He as [[He Hfe]|He]; [|done].
    rewrite (int_numeral _ e He (within_limit_piece _ _ Hl Hfe)). simpl. by apply IH.
Qed.

End YearsTotal.

Section YearsTheorems.
Import Py Re CVParser.

Lemma lower_length s : length (lower s) = length s.
Proof. unfold lower. apply length_map. Qed.

(** X26: whenever the limit on the digits of an integer is off, or the
    text is no longer than it, the years extractor returns, under either
    generation of the regex engine: each [int] it calls is given the
    text of a group that matched one decimal digit or more, a piece of
    the text.  Only a number of more digits than the interpreter
    converts can make it raise. *)
Theorem X26_years_never_raises (possessive : bool) (int_max_str_digits : nat)
    (text : str) :
  int_max_str_digits = 0 \/ length text <= int_max_str_digits ->
  exists y, _extract_years_experience possessive int_max_str_digits text = Ok y.
Proof.
  intros Hlim.
  assert (within_limit int_max_str_digits (lower text)) as Hl
    by (unfold within_limit; by rewrite lower_length).
  unfold _extract_years_experience.
  destruct (years_loop_ok possessive int_max_str_digits (lower text) patterns 0%Z Hl)
    as [y ->]; [done|].
  simpl.
  destruct (findall2_ok possessive (lower text)) as [ranges Hf]. rewrite Hf. simpl.
  destruct ranges as [|range ranges]; [eauto|].
  destruct (range_loop_ok int_max_str_digits (lower text) (range :: ranges)
              0%Z Hl (findall2_shape _ _ _ Hf)) as [total ->].
  simpl. eauto.
Qed.

Lemma X26_years_never_raises_witness :
  exists y, _extract_years_experience true 4300 (u "Lead since 2019 - present, 7+ years as lead")
            = Ok y.
Proof.
  apply (X26_years_never_raises true 4300%nat
           (u "Lead since 2019 - present, 7+ years as lead")).
  right. vm_compute. lia.
Defined.

Lemma lower_char_digit c : is_digit (lower_char c) = is_digit c.
Proof.
  unfold lower_char, is_digit.
  destruct ((65 <=? c)%N && (c <=? 90)%N) eqn:E; [|done].
  apply andb_true_iff in E as [H1 H2]. apply N.leb_le in H1, H2.
  transitivity false; [|symmetry]; apply andb_false_iff; right; apply N.leb_gt; lia.
Qed.

Lemma lower_no_digit text :
  (forall c, c ∈ text -> is_digit c = false) ->
  forall c, c ∈ lower text -> is_digit c = false.
Proof.
  intros Hno c Hc. unfold lower in Hc.
  apply list_elem_of_fmap in Hc as (c' & -> & Hc'). rewrite lower_char_digit. by apply Hno.
Qed.

Lemma no_digit_no_text text t :
  (forall c, c ∈ text -> is_digit c = false) ->
  numeral t -> from_text text t -> False.
Proof.
  intros Hno (c & Hc & Hd)%numeral_digit Hfrom.
  rewrite (Hno c (from_text_elem _ _ _ Hfrom Hc)) in Hd. done.
Qed.

Lemma years_loop_no_digit possessive limit text ps :
  (forall c, c ∈ text -> is_digit c = false) ->
  (forall p, p ∈ ps -> p ∈ patterns) ->
  years_loop possessive limit text 0 ps = Ok 0%Z.
Proof.
  intros Hno. induction ps as [|p ps IH]; intros Hps; simpl; [done|].
  assert (p ∈ patterns) as Hp by (apply Hps; by left).
  destruct (findall1_ok possessive p text Hp) as [m Hm].
  pose proof (findall1_shape _ _ _ _ Hp Hm) as Hshape.
  unfold years_step. rewrite Hm. simpl. destruct m as [|t m].
  - simpl. apply IH. intros q Hq. apply Hps. by right.
  - apply Forall_cons_1 in Hshape as [[Hi Hf] _].
    destruct (no_digit_no_text text t Hno Hi Hf).
Qed.

(** X27: a text of ASCII characters and dashes that holds no decimal
    digit gives 0 years. *)
Theorem X27_no_digit_no_years (possessive : bool) (int_max_str_digits : nat)
    (text : str) :
  forallb plain_char text = true ->
  existsb is_digit text = false ->
  _extract_years_experience possessive int_max_str_digits text = Ok 0%Z.
Proof.
  intros _ Hex.
  assert (forall c, c ∈ text -> is_digit c = false) as Hno.
  { intros c Hc. destruct (is_digit c) eqn:E; [|done].
    rewrite <- Hex. symmetry. apply existsb_exists. exists c.
    split; [by apply list_elem_of_In | done]. }
  pose proof (lower_no_digit text Hno) as Hlow.
  unfold _extract_years_experience.
  rewrite (years_loop_no_digit possessive _ (lower text) patterns Hlow); [|done]. simpl.
  destruct (findall2_ok possessive (lower text)) as [ranges Hf]. rewrite Hf. simpl.
  destruct ranges as [|[s e] ranges]; [done|].
  pose proof (findall2_shape _ _ _ Hf) as Hshape.
  apply Forall_cons_1 in Hshape as [[[Hi Hfrom] _] _].
  destruct (no_digit_no_text (lower text) s Hlow Hi Hfrom).
Qed.

Lemma X27_no_digit_no_years_witness :
  _extract_years_experience true 4300 (u "Seasoned engineer, many years of experience")
  = Ok 0%Z.
Proof.
  apply (X27_no_digit_no_years true 4300%nat
           (u "Seasoned engineer, many years of experience")).
  - vm_compute. reflexivity.
  - vm_compute. reflexivity.
Defined.

End YearsTheorems.

(** ** Patterns that are a choice of words *)

Section WordPatterns.
Import Py Re.

(** The words of a pattern that is an alternation of words. *)
Fixpoint alt_words (r : regex) : option (list str) :=
  match r with
  | Alt x y =>
      match literal x, alt_words y with
      | Some v, Some ws => Some (v :: ws)
      | _, _ => None
      end
  | _ =>
      match literal r with
      | Some v => Some [v]
      | None => None
      end
  end.

Lemma startswith_app_iff w s : startswith w s = true <-> exists s', s = w ++ s'.
Proof.
  revert s. induction w as [|a w IH]; intros s; simpl.
  - split; [eauto|done].
  - destruct s as [|b s]; simpl.
    + split; [done|]. by intros [s' ?].
    + rewrite andb_true_iff, N.eqb_eq, IH. split.
      * intros [-> [s' ->]]. eauto.
      * intros [s' [= -> ->]]. eauto.
Qed.

Lemma contains_suffix w text :
  Py.contains w text = true <-> exists start, start `suffix_of` text /\ startswith w start = true.
Proof.
  induction text as [|c text IH]; simpl.
  - rewrite orb_false_r. split.
    + intros Hs. exists []. done.
    + intros (start & [k Hk] & Hs). symmetry in Hk.
      apply app_eq_nil in Hk as [_ ->]. done.
  - rewrite orb_true_iff, IH. split.
    + intros [Hs|(start & Hsuf & Hs)].
      * exists (c :: text). done.
      * exists start. split; [by apply suffix_cons_r | done].
    + intros (start & [k Hk] & Hs). destruct k as [|x k].
      * left. by rewrite Hk.
      * right. injection Hk as _ ->. exists start. split; [by exists k | done].
Qed.

(** A word matches where the text starts with it, and nowhere else. *)
Lemma rmatch_literal r : forall v st k s',
  literal r = Some v -> rest st = v ++ s' ->
  exists p', rmatch r st k = k (MState p' s' (caps st)).
Proof.
  induction r as [| c | | neg items | an | r1 IH1 r2 IH2 | r1 IH1 r2 IH2
                 | idx r1 IH1 | lo hi mode r1 IH1]; intros v st k s'; simpl; try done.
  - intros [= <-] Hr. simpl in Hr. exists (prev st). destruct st. simpl in *. by subst.
  - intros [= <-] Hr. simpl in Hr. exists (Some c).
    unfold step_char. by rewrite Hr, N.eqb_refl.
  - destruct (literal r1) as [v1|] eqn:E1; [|done].
    destruct (literal r2) as [v2|] eqn:E2; [|done]. intros [= <-] Hr.
    rewrite <- app_assoc in Hr.
    destruct (IH1 v1 st (fun st1 => rmatch r2 st1 k) (v2 ++ s') eq_refl Hr) as [p1 ->].
    destruct (IH2 v2 (MState p1 (v2 ++ s') (caps st)) k s' eq_refl eq_refl) as [p2 ->].
    by exists p2.
  - destruct idx as [i|]; [done|]. apply IH1.
Qed.

Lemma reach_alt_words r : forall ws st st1,
  alt_words r = Some ws -> reach r st st1 ->
  exists w, w ∈ ws /\ startswith w (rest st) = true.
Proof.
  assert (forall a ws st st1,
            match literal a with Some v => Some [v] | None => None end = Some ws ->
            reach a st st1 -> exists w, w ∈ ws /\ startswith w (rest st) = true) as Hword.
  { intros a ws st st1 Hl (w & E & _ & _ & L)%reach_span.
    destruct (literal a) as [v|]; [|done]. injection Hl as <-.
    exists v. split; [by left|]. apply startswith_app_iff. rewrite <- (L v eq_refl). eauto. }
  induction r as [| c | | neg items | an | r1 IH1 r2 IH2 | r1 IH1 r2 IH2
                 | idx r1 IH1 | lo hi mode r1 IH1]; intros ws st st1 Hs Hr;
    try (by eapply Hword; [|exact Hr]; exact Hs).
  simpl in Hs. destruct (literal r1) as [v|] eqn:E1; [|done].
  destruct (alt_words r2) as [ws2|] eqn:E2; [|done]. injection Hs as <-.
  inversion Hr; subst.
  - destruct (Hword r1 [v] st st1) as (w & Hw & Hsw); [by rewrite E1 | done |].
    apply list_elem_of_singleton in Hw. subst w. exists v. split; [by left | done].
  - destruct (IH2 ws2 st st1 eq_refl) as (w & Hw & Hsw); [done|].
    exists w. split; [by right | done].
Qed.

Lemma rmatch_alt_words r : forall ws st k w,
  alt_words r = Some ws -> (forall st', is_Some (k st')) ->
  w ∈ ws -> startswith w (rest st) = true -> is_Some (rmatch r st k).
Proof.
  assert (forall a ws st k w,
            match literal a with Some v => Some [v] | None => None end = Some ws ->
            (forall st', is_Some (k st')) ->
            w ∈ ws -> startswith w (rest st) = true -> is_Some (rmatch a st k)) as Hword.
  { intros a ws st k w Hl Hk Hw Hs. destruct (literal a) as [v|] eqn:E; [|done].
    injection Hl as <-. apply list_elem_of_singleton in Hw. subst w.
    apply startswith_app_iff in Hs as [s' Hs].
    destruct (rmatch_literal a v st k s' E Hs) as [p' ->]. apply Hk. }
  induction r as [| c | | neg items | an | r1 IH1 r2 IH2 | r1 IH1 r2 IH2
                 | idx r1 IH1 | lo hi mode r1 IH1]; intros ws st k w Hs Hk Hw Hsw;
    try (by eapply Hword; [exact Hs | exact Hk | exact Hw | exact Hsw]).
  simpl in Hs. destruct (literal r1) as [v|] eqn:E1; [|done].
  destruct (alt_words r2) as [ws2|] eqn:E2; [|done]. injection Hs as <-.
  simpl. apply elem_of_cons in Hw as [->|Hw].
  - assert (is_Some (rmatch r1 st k)) as [x ->]; [|done].
    apply (Hword r1 [v] st k v); [by rewrite E1 | done | by left | done].
  - destruct (rmatch r1 st k); [done|]. by apply (IH2 ws2 st k w).
Qed.

(** Searching for a choice of words is asking whether the text contains
    one of them. *)
Lemma search_words r ws text : forall p,
  alt_words r = Some ws ->
  bool_decide (is_Some (search_from r p text false)) = Matcher.any_in ws text.
Proof.
  intros p Hs. apply eq_true_iff_eq. rewrite bool_decide_eq_true.
  unfold Matcher.any_in. rewrite existsb_exists. split.
  - intros [[start st1] E]. apply search_from_sound in E as (Hsuf & p' & Hr).
    destruct (reach_alt_words r ws _ _ Hs Hr) as (w & Hw & Hsw). simpl in Hsw.
    exists w. split; [by apply list_elem_of_In|]. apply contains_suffix. eauto.
  - intros (w & Hw%list_elem_of_In & Hc). revert p.
    induction text as [|c text IH]; intros p; simpl in Hc |- *.
    + rewrite orb_false_r in Hc.
      assert (is_Some (match_at r p [] false)) as [x ->]; [|done].
      unfold match_at. by apply (rmatch_alt_words r ws _ _ w).
    + destruct (match_at r p (c :: text) false) as [x|] eqn:E; [done|].
      apply orb_true_iff in Hc as [Hc|Hc]; [|by apply IH].
      assert (is_Some (match_at r p (c :: text) false)) as [x Hx]; [|congruence].
      unfold match_at. by apply (rmatch_alt_words r ws _ _ w).
Qed.

End WordPatterns.

Section LocationWords.
Import Py Matcher Filter.
Variable possessive : bool.
Local Open Scope Q_scope.

Lemma str_contains_words pattern ws f :
  (exists r ng, Re.compile possessive pattern = Ok (r, ng) /\ alt_words r = Some ws) ->
  str_contains possessive pattern = Ok f ->
  forall text, f text = any_in ws text.
Proof.
  intros (r & ng & Hc & Hw). unfold str_contains. rewrite Hc. simpl.
  intros [= <-] text. by apply search_words.
Qed.

Lemma usa_words :
  exists r ng, Re.compile possessive (join (u "|") usa_keywords) = Ok (r, ng)
               /\ alt_words r = Some usa_keywords.
Proof.
  destruct possessive; eexists _, _; split; vm_compute; reflexivity.
Qed.


Lemma usa_not_worldwide remote_type :
  remote_type ∈ strs ["USA Remote Only"; "USA Only"] ->
  bool_decide (remote_type ∈ strs ["Worldwide Remote (Anywhere)"; "Worldwide (Anywhere)"])
  = false.
Proof.
  intros Hin. apply elem_of_cons in Hin as [->|Hin]; [by vm_compute|].
  apply list_elem_of_singleton in Hin as ->. by vm_compute.
Qed.

(** X28: under the USA preference the test of a location is whether its
    lower-casing contains "usa", "us", "united states" or "america"; so
    every location with the letters "us" in it counts as one of the USA,
    and the stage returns those rows when they are 5 or more, and every
    row otherwise. *)
Theorem X28_usa_test_is_substring remote_type df out :
  remote_type ∈ strs ["USA Remote Only"; "USA Only"] ->
  location_filter possessive remote_type df = Ok out ->
  let usa_jobs := filter (fun r => any_in usa_keywords (lower (Location (job r)))) df in
  out = (if 5 <=? length usa_jobs then usa_jobs else df)
  /\ forall r, r ∈ df -> contains (u "us") (lower (Location (job r))) = true ->
               r ∈ usa_jobs.
Proof.
  intros Hin Hl usa_jobs. split.
  - unfold location_filter in Hl. rewrite (usa_not_worldwide _ Hin) in Hl.
    rewrite (bool_decide_eq_true_2 _ Hin) in Hl.
    destruct (usa_compiles possessive) as [f Hf]. rewrite Hf in Hl. cbn [bind] in Hl.
    injection Hl as <-.
    assert (filter (fun r => f (lower (Location (job r)))) df = usa_jobs) as ->; [|done].
    unfold usa_jobs. apply list_filter_iff. intros r.
    by rewrite (str_contains_words _ _ _ usa_words Hf).
  - intros r Hr Hus. apply list_elem_of_filter. split; [|done].
    apply Is_true_true. unfold any_in. apply existsb_exists.
    exists (u "us"). split; [|done]. right. left. reflexivity.
Qed.


End LocationWords.

Section LocationWordsAtWork.
Import Py Matcher Filter Sorts.
Local Open Scope Q_scope.

(** One posting in Sydney. *)
Definition sydney : list row := [posting "Analyst" "Sydney, Australia" 60].

Lemma X28_usa_test_is_substring_witness :
  sydney
  = (if 5 <=? length (filter (fun r => any_in usa_keywords (lower (Location (job r))))
                             sydney)
     then filter (fun r => any_in usa_keywords (lower (Location (job r)))) sydney
     else sydney)
  /\ forall r, r ∈ sydney -> contains (u "us") (lower (Location (job r))) = true ->
               r ∈ filter (fun r => any_in usa_keywords (lower (Location (job r)))) sydney.
Proof.
  apply (X28_usa_test_is_substring true (u "USA Only") sydney sydney).
  - by_decide.
  - vm_compute. reflexivity.
Defined.



End LocationWordsAtWork.
